(** * LensMark: metadata normalisation, banner layout and slot relocation

    A shallow embedding of [src/utils/exif.ts], [src/utils/canvas.ts] and of
    the settings handlers of the editor component ([onDrop], [handleDrop]).

    Conventions of the embedding.
    - The numbers of [exif.ts] (GPS coordinates) are IEEE 754 binary64
      values, with the arithmetic of the Standard Library's [SpecFloat].
      The sizes of [canvas.ts] are exact rationals ([Q]): rounding of
      doubles is not represented there.  Integers that the code only
      ever uses as integers (pixel channels, counts, slot orders, image
      dimensions) are [Z].
    - A JavaScript string is the [string] of its UTF-8 bytes;
      [undefined] is [None].
    - The raw tag dictionary returned by the metadata reader is a
      [gmap string Tag].
    - The object [settings.elements] is an association list in the
      insertion order that [Object.entries] enumerates. *)

From Stdlib Require Import ZArith QArith Qround Qminmax Qabs String Ascii List Lia Lqa Bool.
From Stdlib Require Import DecimalString Permutation SpecFloat.
From stdpp Require Import base strings gmap list.

Open Scope Z_scope.

(** ** JavaScript string and number primitives used by the sources *)

Module Js.

(** [String(n)] for an integer number. *)
Definition numToString (z : Z) : string :=
  NilZero.string_of_int (Z.to_int z).

(** [s.startsWith(p)] *)
Definition startsWith (s p : string) : bool := String.prefix p s.

(** [s.endsWith(p)] *)
Definition endsWith (s p : string) : bool :=
  let n := String.length s in
  let m := String.length p in
  (m <=? n)%nat && String.eqb (String.substring (n - m) m s) p.

(** A string is truthy when it is not empty. *)
Definition truthy (s : string) : bool :=
  match s with EmptyString => false | _ => true end.

(** [a || b] on strings. *)
Definition orElse (a b : string) : string := if truthy a then a else b.

(** The string with the bytes [l]. *)
Definition utf8 (l : list nat) : string :=
  fold_right (fun n r => String (ascii_of_nat n) r) EmptyString l.

(** The number of bytes of the UTF-8 sequence that the byte [c] starts:
    one for an ASCII byte (and for a stray continuation byte), two from
    0xC0, three from 0xE0, four from 0xF0. *)
Definition width (c : ascii) : nat :=
  let n := nat_of_ascii c in
  if (n <? 192)%nat then 1%nat
  else if (n <? 224)%nat then 2%nat
  else if (n <? 240)%nat then 3%nat
  else 4%nat.

(** The characters of a string: its UTF-8 sequences in order (a
    sequence cut short by the end of the string is left as single
    bytes). *)
Fixpoint chars (s : string) : list string :=
  match s with
  | EmptyString => []
  | String c1 r1 =>
      match width c1, r1 with
      | 2%nat, String c2 r2 =>
          String c1 (String c2 EmptyString) :: chars r2
      | 3%nat, String c2 (String c3 r3) =>
          String c1 (String c2 (String c3 EmptyString)) :: chars r3
      | 4%nat, String c2 (String c3 (String c4 r4)) =>
          String c1 (String c2 (String c3 (String c4 EmptyString))) :: chars r4
      | _, _ => String c1 EmptyString :: chars r1
      end
  end.

(** The characters of the class [\s]: ECMAScript's WhiteSpace and
    LineTerminator, that is U+0009 to U+000D, U+0020, U+00A0, U+1680,
    U+2000 to U+200A, U+2028, U+2029, U+202F, U+205F, U+3000 and
    U+FEFF. *)
Definition whiteSpace : list string :=
  map utf8
    [ [9]; [10]; [11]; [12]; [13]; [32]; [194; 160]; [225; 154; 128];
      [226; 128; 128]; [226; 128; 129]; [226; 128; 130]; [226; 128; 131];
      [226; 128; 132]; [226; 128; 133]; [226; 128; 134]; [226; 128; 135];
      [226; 128; 136]; [226; 128; 137]; [226; 128; 138];
      [226; 128; 168]; [226; 128; 169]; [226; 128; 175]; [226; 129; 159];
      [227; 128; 128]; [239; 187; 191] ]%nat.

Definition isSpace (ch : string) : bool := existsb (String.eqb ch) whiteSpace.

(** The concatenation of a list of strings. *)
Definition join (l : list string) : string :=
  fold_right String.append EmptyString l.

(** [s.replace(/\s+/g, '')]: the characters of [s] that are not of
    the class [\s]. *)
Definition removeSpaces (s : string) : string :=
  join (List.filter (fun ch => negb (isSpace ch)) (chars s)).

(** [s.replace(/:/g, '.')] *)
Fixpoint replaceColons (s : string) : string :=
  match s with
  | EmptyString => EmptyString
  | String c r =>
      String (if Ascii.eqb c ":" then "."%char else c) (replaceColons r)
  end.

(** [s.split(' ')]: the pieces between single spaces; never empty. *)
Fixpoint splitSpace (s : string) : list string :=
  match s with
  | EmptyString => [EmptyString]
  | String c r =>
      if Ascii.eqb c " " then EmptyString :: splitSpace r
      else match splitSpace r with
           | p :: ps => String c p :: ps
           | [] => [String c EmptyString]
           end
  end.

(** [s.padStart(2, '0')] *)
Definition padStart2 (s : string) : string :=
  match String.length s with
  | O => "00"
  | S O => "0" +:+ s
  | _ => s
  end.

(** [s?.[0]]: the first character as a string, if any. *)
Definition firstChar (s : string) : option string :=
  match s with
  | EmptyString => None
  | String c _ => Some (String c EmptyString)
  end.

Fixpoint zeros (n : nat) : string :=
  match n with O => EmptyString | S k => String "0" (zeros k) end.

(** Steps 7 to 12 of ECMAScript's Number.prototype.toFixed, on the real
    number [x] that a finite number below 1e21 stands for: the sign is
    split off, the magnitude is rounded to the nearest multiple of
    [10^-f] with ties going up, and the digits are left-padded with
    zeros so that at least one digit precedes the dot. *)
Definition fixedDigits (f : nat) (x : Q) : string :=
  let neg := negb (Qle_bool 0 x) in
  let ax := if neg then Qopp x else x in
  let n := Qfloor (ax * inject_Z (10 ^ Z.of_nat f) + (1 # 2)) in
  let m := numToString n in
  let body :=
    match f with
    | O => m
    | _ =>
        let k := String.length m in
        let m' := if (k <=? f)%nat then zeros (f + 1 - k) +:+ m else m in
        let k' := String.length m' in
        String.substring 0 (k' - f) m' +:+ "." +:+ String.substring (k' - f) f m'
    end in
  if neg then "-" +:+ body else body.

(** *** Numbers

    A number of [exif.ts] is an IEEE 754 binary64 value; the operations
    round to nearest, ties to even. *)
Definition prec : Z := 53.
Definition emax : Z := 1024.
Definition number : Type := spec_float.

Definition NaN : number := S754_nan.

(** The number an integer stands for, and the number nearest to the
    quotient [n / d] of two integers (what a decimal literal such as
    54.36 denotes). *)
Definition ofInt (z : Z) : number := binary_normalize prec emax z 0 false.
Definition ofRatio (n d : Z) : number := SFdiv prec emax (ofInt n) (ofInt d).

Definition add (x y : number) : number := SFadd prec emax x y.
Definition mul (x y : number) : number := SFmul prec emax x y.
Definition div (x y : number) : number := SFdiv prec emax x y.

(** [isNaN(x)] *)
Definition isNaN (x : number) : bool :=
  match x with S754_nan => true | _ => false end.

(** A number is truthy unless it is [NaN], [+0] or [-0]. *)
Definition numTruthy (x : number) : bool :=
  match x with S754_nan | S754_zero _ => false | _ => true end.

(** The real number a finite number stands for. *)
Definition realOf (x : number) : Q :=
  match x with
  | S754_finite s m e =>
      (if s then - inject_Z (Zpos m) else inject_Z (Zpos m)) * Qpower 2 e
  | _ => 0
  end.

(** [x.toFixed(f)].  [numberToString] is [String(x)], which toFixed
    falls back on for a magnitude of 1e21 or more. *)
Definition toFixed (numberToString : number -> string) (f : nat) (x : number)
  : string :=
  match x with
  | S754_nan => "NaN"
  | S754_infinity s => if s then "-Infinity" else "Infinity"
  | S754_zero _ => fixedDigits f 0
  | S754_finite s _ _ =>
      if Qle_bool (inject_Z (10 ^ 21)) (Qabs (realOf x))
      then (if s then "-" +:+ numberToString (SFabs x) else numberToString x)
      else fixedDigits f (realOf x)
  end.

(** [c.toLowerCase()] and [c.toUpperCase()] on the one-byte letters. *)
Definition lowerChar (c : ascii) : ascii :=
  let n := nat_of_ascii c in
  if ((65 <=? n) && (n <=? 90))%nat then ascii_of_nat (n + 32) else c.

Definition upperChar (c : ascii) : ascii :=
  let n := nat_of_ascii c in
  if ((97 <=? n) && (n <=? 122))%nat then ascii_of_nat (n - 32) else c.

(** [s.toLowerCase()] *)
Fixpoint toLowerCase (s : string) : string :=
  match s with
  | EmptyString => EmptyString
  | String c r => String (lowerChar c) (toLowerCase r)
  end.

(** [s.toUpperCase()] *)
Fixpoint toUpperCase (s : string) : string :=
  match s with
  | EmptyString => EmptyString
  | String c r => String (upperChar c) (toUpperCase r)
  end.

(** [s.includes(p)] *)
Fixpoint includes (s p : string) : bool :=
  String.prefix p s ||
  match s with
  | EmptyString => false
  | String _ r => includes r p
  end.

(** [s.charAt(0)] *)
Definition charAt0 (s : string) : string :=
  match s with
  | EmptyString => EmptyString
  | String c _ => String c EmptyString
  end.

(** [s.slice(1)] *)
Definition slice1 (s : string) : string :=
  match s with
  | EmptyString => EmptyString
  | String _ r => r
  end.

End Js.

(** ** [src/utils/exif.ts] *)

Module Exif.
Import Js.

(** The part of an ExifReader tag the code reads: [value] and the
    string [description].  A [value] that is an array is an array of
    plain numbers, which is what [convertDMSToDecimal] declares as its
    argument, or an array of [numerator, denominator] pairs of integers,
    which is how the reader hands over the rational-typed GPS tags. *)
Inductive DmsArray :=
| Numbers (xs : list number)
| Rationals (xs : list (Z * Z)).

Inductive TagValue :=
| VArray (a : DmsArray)
| VOther.

Record Tag := mkTag { value : TagValue; description : string }.

(** What [lat] and [lon] hold at run time.  They are declared as
    numbers, but [convertDMSToDecimal] yields a string when the entries
    of its array are themselves arrays. *)
Inductive Coord :=
| Num (x : number)
| Str (s : string).

(** How a call ends: with a value, or with a thrown [TypeError]. *)
Inductive Result (A : Type) :=
| Returned (a : A)
| Threw.
Arguments Returned {A} a.
Arguments Threw {A}.

(** [interface ExifData] *)
Record ExifData := mkExifData {
  make : string;
  model : string;
  lens : string;
  focalLength : string;
  fNumber : string;
  iso : string;
  exposureTime : string;
  dateTime : string;
  gps : option string;
  lat : option Coord;
  lon : option Coord
}.

(** The fields of [new Date()] that the fallback date reads. *)
Record Date := mkDate {
  getFullYear : Z;
  getMonth : Z;
  getDate : Z;
  getHours : Z;
  getMinutes : Z
}.

(** [String([n, d])]: the entries joined by a comma. *)
Definition pairToString (p : Z * Z) : string :=
  numToString (fst p) +:+ "," +:+ numToString (snd p).

(** [convertDMSToDecimal].  On plain numbers the sum is a number.  On
    pairs, [minutes / 60] and [seconds / 3600] convert an array to the
    string "n,d", which reads as no number: both are [NaN]; the array
    [degrees] makes each [+] a string concatenation, so [decimal] is the
    string "n,dNaNNaN", and [decimal * -1] is [NaN]. *)
Definition convertDMSToDecimal (dms : DmsArray) (ref : string) : option Coord :=
  match dms with
  | Numbers (degrees :: minutes :: seconds :: _) =>
      let decimal := add (add degrees (div minutes (ofInt 60)))
                         (div seconds (ofInt 3600)) in
      if String.eqb ref "S" || String.eqb ref "W"
      then Some (Num (mul decimal (ofInt (-1))))
      else Some (Num decimal)
  | Rationals (degrees :: minutes :: seconds :: _) =>
      let decimal := pairToString degrees +:+ "NaN" +:+ "NaN" in
      if String.eqb ref "S" || String.eqb ref "W"
      then Some (Num NaN)
      else Some (Str decimal)
  | _ => None
  end.

(** [tags[k]?.description || ''] *)
Definition desc (tags : gmap string Tag) (k : string) : string :=
  match tags !! k with
  | Some t => description t
  | None => EmptyString
  end.

(** [tags[k]?.description?.[0] || dflt] *)
Definition refOf (tags : gmap string Tag) (k dflt : string) : string :=
  match tags !! k with
  | Some t => match firstChar (description t) with
              | Some c => c
              | None => dflt
              end
  | None => dflt
  end.

Definition formatNow (date : Date) : string :=
  numToString (getFullYear date) +:+ "." +:+
  padStart2 (numToString (getMonth date + 1)) +:+ "." +:+
  padStart2 (numToString (getDate date)) +:+ " " +:+
  padStart2 (numToString (getHours date)) +:+ ":" +:+
  padStart2 (numToString (getMinutes date)).

Section Extract.

(** [parseFloat] *)
Variable parseFloat : string -> number.

(** [String(x)] for a number, which [toFixed] falls back on for a
    magnitude of 1e21 or more. *)
Variable numberToString : number -> string.

(** The clock read by [new Date()]. *)
Variable now : Date.

Definition normFNumber (d : string) : string :=
  if truthy d && negb (startsWith d "f/") then "f/" +:+ d else d.

Definition normExposure (d : string) : string :=
  if truthy d && negb (endsWith d "s") then d +:+ "s" else d.

Definition normDate (d : string) : string :=
  if truthy d then
    match splitSpace d with
    | p0 :: rest =>
        replaceColons p0 +:+ " " +:+
        orElse (match rest with p1 :: _ => p1 | [] => EmptyString end) EmptyString
    | [] => d
    end
  else formatNow now.

(** [if (!isNaN(x)) lat = x] *)
Definition unlessNaN (x : number) : option Coord :=
  if isNaN x then None else Some (Num x).

(** [c.toFixed(4)]: a string has no [toFixed], the call throws. *)
Definition coordToFixed (c : Coord) : Result string :=
  match c with
  | Num x => Returned (toFixed numberToString 4 x)
  | Str _ => Threw
  end.

(** The GPS block: [(lat, lon, gpsString)]. *)
Definition extractGps (tags : gmap string Tag)
  : Result (option Coord * option Coord * option string) :=
  let latRef := refOf tags "GPSLatitudeRef" "N" in
  let lonRef := refOf tags "GPSLongitudeRef" "E" in
  match tags !! "GPSLatitude", tags !! "GPSLongitude" with
  | Some latTag, Some lonTag =>
      let '(lat, lon) :=
        match value latTag, value lonTag with
        | VArray la, VArray lo =>
            (convertDMSToDecimal la latRef, convertDMSToDecimal lo lonRef)
        | _, _ =>
            (unlessNaN (parseFloat (description latTag)),
             unlessNaN (parseFloat (description lonTag)))
        end in
      match lat, lon with
      | Some la, Some lo =>
          match coordToFixed la with
          | Returned a =>
              match coordToFixed lo with
              | Returned b => Returned (lat, lon, Some (a +:+ ", " +:+ b))
              | Threw => Threw
              end
          | Threw => Threw
          end
      | _, _ => Returned (lat, lon, Some "Location Data")
      end
  | _, _ => Returned (None, None, None)
  end.

(** [extractExifData], after [ExifReader.load] has produced [tags]. *)
Definition extractExifData (tags : gmap string Tag) : Result ExifData :=
  let make := desc tags "Make" in
  let model := orElse (desc tags "Model") "Unknown Camera" in
  let lens := orElse (desc tags "LensModel") (desc tags "Lens") in
  let focalLength := removeSpaces (desc tags "FocalLength") in
  let fNumber := normFNumber (desc tags "FNumber") in
  let iso := desc tags "ISOSpeedRatings" in
  let exposureTime := normExposure (desc tags "ExposureTime") in
  let dateTime := normDate (desc tags "DateTimeOriginal") in
  match extractGps tags with
  | Returned (lat, lon, gpsString) =>
      Returned (mkExifData make model lens focalLength fNumber iso
                  exposureTime dateTime gpsString lat lon)
  | Threw => Threw
  end.

End Extract.

(** [getBrandLogoKey] *)
Definition getBrandLogoKey (make : string) : string :=
  let m := toLowerCase make in
  if includes m "canon" then "CANON"
  else if includes m "nikon" then "NIKON"
  else if includes m "fujifilm" || includes m "fuji" then "FUJIFILM"
  else if includes m "sony" then "SONY"
  else if includes m "leica" then "LEICA"
  else if includes m "hasselblad" then "HASSELBLAD"
  else if includes m "olympus" || includes m "om digital" then "OLYMPUS"
  else if includes m "panasonic" || includes m "lumix" then "PANASONIC"
  else if includes m "google" || includes m "pixel" then "GOOGLE"
  else if includes m "apple" || includes m "iphone" then "APPLE"
  else "DEFAULT".

End Exif.

(** ** [src/types.ts] *)

Module Types.

Inductive BannerStyle := BLACK | WHITE | BLUR | ADAPTIVE.

Inductive Side := left | right | off.

(** [type Line = 1 | 2] *)
Inductive Line := Line1 | Line2.

Inductive LogoPosition := logoLeft | logoRight.

Record WatermarkElement := mkElement {
  id : string;
  label : string;
  text : string;
  side : Side;
  line : Line;
  order : Z
}.

(** [elements] is the object with the keys [model], [lens], ...; it is
    kept as the list of its entries in enumeration order. *)
Record WatermarkSettings := mkSettings {
  elements : list (string * WatermarkElement);
  bannerStyle : BannerStyle;
  blurIntensity : Q;
  useOriginalDate : bool;
  selectedLogoKey : string;
  customLogoSvg : option string;
  logoPosition : LogoPosition;
  useAdaptiveTextColor : bool
}.

Definition side_eqb (a b : Side) : bool :=
  match a, b with
  | left, left | right, right | off, off => true
  | _, _ => false
  end.

Definition line_eqb (a b : Line) : bool :=
  match a, b with
  | Line1, Line1 | Line2, Line2 => true
  | _, _ => false
  end.

Definition style_eqb (a b : BannerStyle) : bool :=
  match a, b with
  | BLACK, BLACK | WHITE, WHITE | BLUR, BLUR | ADAPTIVE, ADAPTIVE => true
  | _, _ => false
  end.

End Types.

(** ** Arrays *)

Module Arr.

Section Sort.
Context {A : Type}.

(** The comparator protocol of [Array.prototype.sort]: [cmp a b <= 0]
    keeps [a] before [b]. *)
Variable cmp : A -> A -> Z.

Fixpoint insertSorted (x : A) (l : list A) : list A :=
  match l with
  | [] => [x]
  | y :: t => if cmp x y <=? 0 then x :: y :: t else y :: insertSorted x t
  end.

(** [arr.sort(cmp)], a stable sort. *)
Fixpoint sort (l : list A) : list A :=
  match l with
  | [] => []
  | x :: t => insertSorted x (sort t)
  end.

End Sort.

(** [arr.findIndex(p)], with [None] for [-1]. *)
Fixpoint findIndex {A : Type} (p : A -> bool) (l : list A) : option nat :=
  match l with
  | [] => None
  | x :: t => if p x then Some O
              else match findIndex p t with
                   | Some i => Some (S i)
                   | None => None
                   end
  end.

(** [arr.splice(i, 0, x)] *)
Definition spliceInsert {A : Type} (i : nat) (x : A) (l : list A) : list A :=
  firstn i l ++ x :: skipn i l.

End Arr.

(** ** [src/utils/canvas.ts] *)

Module Canvas.
Import Js Types.

Definition BANNER_HEIGHT_PERCENTAGE : Q := 0.12.
Definition PADDING_PERCENTAGE : Q := 0.35.
Definition SEPARATOR_CHAR : string := "|".

(** [a > b] on numbers. *)
Definition Qgtb (a b : Q) : bool := negb (Qle_bool a b).

(** [Math.round] *)
Definition round (x : Q) : Z := Qfloor (x + (1 # 2)).

(** *** Colour algorithms *)

(** An entry of [colorMap]: the running count and channel sums. *)
Record Acc := mkAcc { acount : Z; ar : Z; ag : Z; ab : Z }.

(** An element of [buckets]. *)
Record Bucket := mkBucket { count : Z; r : Z; g : Z; b : Z; hex : string }.

Definition quantizationFactor : Z := 32.

(** The key of a pixel; [Math.floor(r/32)] is [r / 32] on integers. *)
Definition keyOf (r g b : Z) : string :=
  numToString (r / quantizationFactor) +:+ "," +:+
  numToString (g / quantizationFactor) +:+ "," +:+
  numToString (b / quantizationFactor).

(** One iteration of the pixel loop on [colorMap]: the entry is created
    at the end of the object when absent, then incremented. *)
Fixpoint bump (key : string) (r g b : Z) (m : list (string * Acc))
  : list (string * Acc) :=
  match m with
  | [] => [(key, mkAcc 1 r g b)]
  | (k, a) :: t =>
      if String.eqb k key
      then (k, mkAcc (acount a + 1) (ar a + r) (ag a + g) (ab a + b)) :: t
      else (k, a) :: bump key r g b t
  end.

(** The loop [for (i = 0; i < data.length; i += 4)]; [data] holds four
    bytes per pixel. *)
Fixpoint accumulate (data : list Z) (m : list (string * Acc))
  : list (string * Acc) :=
  match data with
  | r :: g :: b :: _ :: rest => accumulate rest (bump (keyOf r g b) r g b m)
  | _ => m
  end.

Definition avg (s n : Z) : Z := round (inject_Z s / inject_Z n).

Definition toBucket (a : Acc) : Bucket :=
  let r := avg (ar a) (acount a) in
  let g := avg (ag a) (acount a) in
  let b := avg (ab a) (acount a) in
  mkBucket (acount a) r g b
    ("rgb(" +:+ numToString r +:+ ", " +:+ numToString g +:+ ", " +:+
     numToString b +:+ ")").

(** The squared distance under the root of [dist]. *)
Definition distSq (x d : Bucket) : Z :=
  (r x - r d) ^ 2 + (g x - g d) ^ 2 + (b x - b d) ^ 2.

(** [Math.sqrt(s) > 60] for an integer [s >= 0], decided on the squares. *)
Definition farFrom (d x : Bucket) : bool := 60 * 60 <? distSq x d.

(** The scan [for (i = 1; ...)]: the first later bucket far enough from
    [dominant]; [None] when the loop ends with [secondary === dominant]. *)
Fixpoint findSecondary (dominant : Bucket) (rest : list Bucket) : option Bucket :=
  match rest with
  | [] => None
  | x :: t => if farFrom dominant x then Some x else findSecondary dominant t
  end.

Definition brightnessOf (d : Bucket) : Q :=
  inject_Z (r d * 299 + g d * 587 + b d * 114) / 1000.

Definition blackBucket : Bucket := mkBucket 0 0 0 0 "#000000".
Definition whiteBucket : Bucket := mkBucket 0 255 255 255 "#ffffff".

Record Colors := mkColors { dominant : string; secondary : string }.

Definition defaultColors : Colors := mkColors "#ffffff" "#000000".

(** The body of [getDominantColors] once [getImageData] has returned
    the sampled pixels [data]. *)
Definition dominantOfData (data : list Z) : Colors :=
  let colorMap := accumulate data [] in
  let buckets :=
    Arr.sort (fun a b => count b - count a) (map (fun e => toBucket (snd e)) colorMap) in
  match buckets with
  | [] => defaultColors
  | dominant :: rest =>
      let secondary :=
        match findSecondary dominant rest with
        | Some s => s
        | None =>
            if Qgtb (brightnessOf dominant) 128 then blackBucket else whiteBucket
        end in
      mkColors (hex dominant) (hex secondary)
  end.

(** [parseInt(s, 10)] on a run of decimal digits. *)
Definition digitVal (c : ascii) : option Z :=
  let n := nat_of_ascii c in
  if ((48 <=? n) && (n <=? 57))%nat then Some (Z.of_nat n - 48) else None.

(** [s.match(/\d+/g)] with every match already parsed by [parseInt]:
    [cur] is the value of the digit run being read, if any. *)
Fixpoint digitRuns (s : string) (cur : option Z) : list Z :=
  match s with
  | EmptyString => match cur with Some v => [v] | None => [] end
  | String c rest =>
      match digitVal c, cur with
      | Some d, Some v => digitRuns rest (Some (10 * v + d))
      | Some d, None => digitRuns rest (Some d)
      | None, Some v => v :: digitRuns rest None
      | None, None => digitRuns rest None
      end
  end.

(** [getBrightness]; [None] is [NaN] (fewer than three digit runs). *)
Definition getBrightness (rgbStr : string) : option Q :=
  match digitRuns rgbStr None with
  | [] => Some 255%Q
  | r :: g :: b :: _ => Some (inject_Z (r * 299 + g * 587 + b * 114) / 1000)%Q
  | _ => None
  end.

(** [x >= t] where [x] may be [NaN]. *)
Definition geNum (x : option Q) (t : Q) : bool :=
  match x with Some v => Qle_bool t v | None => false end.

(** *** The 2D context and the canvas *)

Local Open Scope Q_scope.

(** [ctx.font]: the context default, or one of the strings
    ["bold <size>px Inter, sans-serif"] / ["<size>px Inter, sans-serif"]. *)
Inductive Font :=
| DefaultFont
| Inter (bold : bool) (size : Q).

(** [ctx.filter] *)
Inductive Filter :=
| FilterNone
| FilterBlur (px : Q)
| FilterInvert.

(** The drawing state of the context that the code assigns. *)
Record Ctx := mkCtx {
  font : Font;
  fillStyle : string;
  ctxFilter : Filter;
  textAlign : string;
  textBaseline : string;
  shadowColor : string;
  shadowBlur : Q;
  shadowOffsetX : Q;
  shadowOffsetY : Q
}.

Definition defaultCtx : Ctx :=
  mkCtx DefaultFont "#000000" FilterNone "start" "alphabetic"
        "rgba(0, 0, 0, 0)" 0 0 0.

Definition setFont (f : Font) (c : Ctx) : Ctx :=
  mkCtx f (fillStyle c) (ctxFilter c) (textAlign c) (textBaseline c)
        (shadowColor c) (shadowBlur c) (shadowOffsetX c) (shadowOffsetY c).
Definition setFillStyle (s : string) (c : Ctx) : Ctx :=
  mkCtx (font c) s (ctxFilter c) (textAlign c) (textBaseline c)
        (shadowColor c) (shadowBlur c) (shadowOffsetX c) (shadowOffsetY c).
Definition setFilter (f : Filter) (c : Ctx) : Ctx :=
  mkCtx (font c) (fillStyle c) f (textAlign c) (textBaseline c)
        (shadowColor c) (shadowBlur c) (shadowOffsetX c) (shadowOffsetY c).
Definition setTextAlign (s : string) (c : Ctx) : Ctx :=
  mkCtx (font c) (fillStyle c) (ctxFilter c) s (textBaseline c)
        (shadowColor c) (shadowBlur c) (shadowOffsetX c) (shadowOffsetY c).
Definition setTextBaseline (s : string) (c : Ctx) : Ctx :=
  mkCtx (font c) (fillStyle c) (ctxFilter c) (textAlign c) s
        (shadowColor c) (shadowBlur c) (shadowOffsetX c) (shadowOffsetY c).
Definition setShadowColor (s : string) (c : Ctx) : Ctx :=
  mkCtx (font c) (fillStyle c) (ctxFilter c) (textAlign c) (textBaseline c)
        s (shadowBlur c) (shadowOffsetX c) (shadowOffsetY c).
Definition setShadowBlur (x : Q) (c : Ctx) : Ctx :=
  mkCtx (font c) (fillStyle c) (ctxFilter c) (textAlign c) (textBaseline c)
        (shadowColor c) x (shadowOffsetX c) (shadowOffsetY c).
Definition setShadowOffset (x y : Q) (c : Ctx) : Ctx :=
  mkCtx (font c) (fillStyle c) (ctxFilter c) (textAlign c) (textBaseline c)
        (shadowColor c) (shadowBlur c) x y.

(** The image drawn: the photograph [img] or the logo [lImg]. *)
Inductive Source := SrcImg | SrcLogo.

(** The drawing calls the code makes. *)
Inductive Cmd :=
| DrawImage3 (src : Source) (dx dy : Q)
| DrawImage5 (src : Source) (dx dy dw dh : Q)
| DrawImage9 (src : Source) (sx sy sw sh dx dy dw dh : Q)
| FillRect (x y w h : Q)
| FillText (t : string) (x y : Q)
| BeginPath
| MoveTo (x y : Q)
| ArcTo (x1 y1 x2 y2 r : Q)
| ClosePath
| Fill.

(** The output canvas: its size in pixels, the context state, and the
    calls made since the last resize, each with the state it was made
    in. *)
Record CanvasEl := mkCanvas {
  width : Z;
  height : Z;
  ctx : Ctx;
  ops : list (Ctx * Cmd)
}.

Definition emit (cmd : Cmd) (c : CanvasEl) : CanvasEl :=
  mkCanvas (width c) (height c) (ctx c) (ops c ++ [(ctx c, cmd)]).

Definition onCtx (f : Ctx -> Ctx) (c : CanvasEl) : CanvasEl :=
  mkCanvas (width c) (height c) (f (ctx c)) (ops c).

(** What [canvas.width = x] or [canvas.height = x] stores.  The
    attributes are unsigned 32-bit integers: the fraction of [x] is
    dropped and the result is taken modulo 2^32; a value above
    2^31 - 1 is replaced by the attribute's default [dflt]. *)
Definition toDimension (dflt : Z) (x : Q) : Z :=
  let n := Z.quot (Qnum x) (Zpos (Qden x)) mod 2 ^ 32 in
  if n <=? 2147483647 then n else dflt.

(** [canvas.width = w]: sizing the canvas clears it and resets the
    context (hence the redraw of the image in the drawing phase). *)
Definition setWidth (w : Q) (c : CanvasEl) : CanvasEl :=
  mkCanvas (toDimension 300 w) (height c) defaultCtx [].
Definition setHeight (h : Q) (c : CanvasEl) : CanvasEl :=
  mkCanvas (width c) (toDimension 150 h) defaultCtx [].

(** [document.createElement('canvas')] *)
Definition newCanvas : CanvasEl := mkCanvas 300 150 defaultCtx [].

(** [roundRect] *)
Definition roundRect (x y w h r : Q) (c : CanvasEl) : CanvasEl :=
  let r := if Qgtb (2 * r) w then w / 2 else r in
  let r := if Qgtb (2 * r) h then h / 2 else r in
  let c := emit BeginPath c in
  let c := emit (MoveTo (x + r) y) c in
  let c := emit (ArcTo (x + w) y (x + w) (y + h) r) c in
  let c := emit (ArcTo (x + w) (y + h) x (y + h) r) c in
  let c := emit (ArcTo x (y + h) x y r) c in
  let c := emit (ArcTo x y (x + w) y r) c in
  emit ClosePath c.

(** *** [generateWatermark] *)

(** The sizing variables of [img.onload] and [processRender]. *)
Record Layout := mkLayout {
  bannerH : Q;
  mainFontSize : Q;
  subFontSize : Q;
  padding : Q;
  logoH : Q;
  logoW : Q;
  logoRealH : Q
}.

(** "Determine Logo Width" for a logo of natural size [natW] x [natH]. *)
Definition logoDims (bannerH logoH : Q) (logoFailed : bool) (natW natH : Z)
  : Q * Q :=
  if negb logoFailed && negb (natW =? 0)%Z && negb (natH =? 0)%Z then
    let aspect := inject_Z natW / inject_Z natH in
    let logoW := logoH * aspect in
    let maxLogoW := bannerH * 2.5 in
    if Qgtb logoW maxLogoW then
      let scale := maxLogoW / logoW in
      (maxLogoW, logoH * scale)
    else (logoW, logoH)
  else (logoH, logoH).

(** The pre-calculation of the sizes from the image size [w] x [h]. *)
Definition initialLayout (w h : Z) (logoFailed : bool) (natW natH : Z) : Layout :=
  let refSize := Qmin (inject_Z w) (inject_Z h) in
  let bannerH := refSize * BANNER_HEIGHT_PERCENTAGE in
  let mainFontSize := inject_Z (Qfloor (bannerH * 0.24)) in
  let subFontSize := inject_Z (Qfloor (bannerH * 0.20)) in
  let padding := bannerH * PADDING_PERCENTAGE in
  let logoH := bannerH * 0.38 in
  let '(logoW, logoRealH) := logoDims bannerH logoH logoFailed natW natH in
  mkLayout bannerH mainFontSize subFontSize padding logoH logoW logoRealH.

(** [elements.filter(e => e.side === s && e.line === l).sort(...)] *)
Definition group (settings : WatermarkSettings) (s : Side) (l : Line)
  : list WatermarkElement :=
  Arr.sort (fun a b => (order a - order b)%Z)
    (List.filter (fun e => side_eqb (side e) s && line_eqb (line e) l)
       (map snd (elements settings))).

Definition hasText (items : list WatermarkElement) : bool :=
  existsb (fun e => truthy (text e)) items.

Section Render.

(** [ctx.measureText(s).width] under the font [ctx.font]. *)
Variable measureText : Font -> string -> Q.

(** The pixels [getImageData] returns for the band [(y, h)] of the
    photograph, resampled to 100 x 10; [None] when the scratch canvas
    has no 2D context. *)
Variable sampleBand : Q -> Q -> option (list Z).

(** [canvas.toDataURL('image/jpeg', 0.95)] *)
Variable toDataURL : CanvasEl -> string.

(** The [forEach] of [measureLine] over the items with text; [n] is
    their number and [idx] the index of the head of [items]. *)
Fixpoint sumWidths (f : Font) (gap : Q) (n idx : nat)
  (items : list WatermarkElement) (width : Q) : Q :=
  match items with
  | [] => width
  | item :: rest =>
      let width := width + measureText f (text item) in
      let width := if (idx <? n - 1)%nat then width + gap else width in
      sumWidths f gap n (S idx) rest width
  end.

Definition measureLine (c : Ctx) (items : list WatermarkElement)
  (fontSize : Q) (isBold : bool) : Q * Ctx :=
  match items with
  | [] => (0, c)
  | _ =>
      let c := setFont (Inter isBold fontSize) c in
      let gap := measureText (font c) SEPARATOR_CHAR * 2.5 in
      let shown := List.filter (fun i => truthy (text i)) items in
      (sumWidths (font c) gap (length shown) 0 shown 0, c)
  end.

(** "Measure Text Blocks" up to [totalContentWidth]. *)
Definition measure (c : Ctx) (settings : WatermarkSettings) (L : Layout)
  : Q * Ctx :=
  let '(wL1, c) := measureLine c (group settings left Line1) (mainFontSize L) true in
  let '(wL2, c) := measureLine c (group settings left Line2) (subFontSize L) false in
  let '(wR1, c) := measureLine c (group settings right Line1) (mainFontSize L) true in
  let '(wR2, c) := measureLine c (group settings right Line2) (subFontSize L) false in
  let totalLeftW := Qmax wL1 wL2 in
  let totalRightW := Qmax wR1 wR2 in
  let logoSpace := logoW L + bannerH L * 0.2 in
  let sep := measureText (font c) SEPARATOR_CHAR * 2.5 in
  let '(totalLeftW, totalRightW) :=
    match logoPosition settings with
    | logoLeft =>
        let t := totalLeftW + logoSpace in
        (if Qgtb (Qmax wL1 wL2) 0 then t + sep else t, totalRightW)
    | logoRight =>
        let t := totalRightW + logoSpace in
        (totalLeftW, if Qgtb (Qmax wR1 wR2) 0 then t + sep else t)
    end in
  (totalLeftW + totalRightW + padding L * 2 + bannerH L * 0.5, c).

(** "Check for Overlap": the sizes after the overflow correction. *)
Definition fit (w : Z) (totalContentWidth : Q) (L : Layout) : Layout :=
  if Qgtb totalContentWidth (inject_Z w) then
    let scale := inject_Z w / totalContentWidth in
    let safeScale := Qmax 0.6 scale in
    mkLayout (bannerH L * safeScale) (mainFontSize L * safeScale)
             (subFontSize L * safeScale) (padding L * safeScale)
             (logoH L * safeScale) (logoW L * safeScale)
             (logoRealH L * safeScale)
  else L.

(** One measurement and correction pass on given sizes. *)
Definition fitPass (c : Ctx) (settings : WatermarkSettings) (w : Z) (L : Layout)
  : Layout * Ctx :=
  let '(total, c) := measure c settings L in
  (fit w total L, c).

(** The sizes the drawing phase works with. *)
Definition finalLayout (settings : WatermarkSettings) (w h : Z)
  (logoFailed : bool) (natW natH : Z) : Layout :=
  fst (fitPass defaultCtx settings w (initialLayout w h logoFailed natW natH)).

(** [getDominantColors(img, y, h)] *)
Definition getDominantColors (y h : Q) : Colors :=
  match sampleBand y h with
  | None => defaultColors
  | Some data => dominantOfData data
  end.

(** The colour variables of the drawing phase. *)
Record Style := mkStyle {
  bgColor : string;
  textColor : string;
  secondaryTextColor : string;
  useShadow : bool
}.

(** The branch on [settings.bannerStyle]. *)
Definition applyStyle (settings : WatermarkSettings) (w h : Q) (L : Layout)
  (c : CanvasEl) : Style * CanvasEl :=
  match bannerStyle settings with
  | ADAPTIVE =>
      let colors := getDominantColors (h - h * 0.15) (h * 0.15) in
      let bgColor := dominant colors in
      let c := onCtx (setFillStyle bgColor) c in
      if useAdaptiveTextColor settings then
        (mkStyle bgColor (secondary colors) (secondary colors) true, c)
      else if geNum (getBrightness bgColor) 128 then
        (mkStyle bgColor "#000000" "#333333" true, c)
      else
        (mkStyle bgColor "#ffffff" "#dddddd" true, c)
  | BLACK =>
      (mkStyle "#000000" "#ffffff" "#aaaaaa" false,
       onCtx (setFillStyle "#000000") c)
  | WHITE =>
      (mkStyle "#ffffff" "#000000" "#666666" false,
       onCtx (setFillStyle "#ffffff") c)
  | BLUR =>
      let c := onCtx (setFilter (FilterBlur (blurIntensity settings))) c in
      let extension := blurIntensity settings * 2 in
      let sy := Qmax 0 (h - bannerH L) in
      let sh := Qmin (bannerH L) (h - sy) in
      let c := emit (DrawImage9 SrcImg 0 sy w sh
                       (- extension) (h - extension)
                       (w + extension * 2) (bannerH L + extension * 2)) c in
      let c := onCtx (setFilter FilterNone) c in
      let colors := getDominantColors (h - bannerH L) (bannerH L) in
      if geNum (getBrightness (dominant colors)) 160 then
        (mkStyle "#ffffff" "#000000" "#222222" true, c)
      else
        (mkStyle "#ffffff" "#ffffff" "#eeeeee" true, c)
  end.

Definition enableShadow (st : Style) (L : Layout) (c : Ctx) : Ctx :=
  if useShadow st then
    let c := setShadowColor
               (if String.eqb (textColor st) "#ffffff"
                then "rgba(0, 0, 0, 0.3)" else "rgba(255, 255, 255, 0.3)") c in
    let c := setShadowBlur (mainFontSize L * 0.8) c in
    setShadowOffset 0 0 c
  else setShadowColor "transparent" c.

Inductive Dir := ltr | rtl.

(** An entry of the sequences handed to [drawSeqY]. *)
Record Item := mkItem { content : string; itemFont : Font; color : string }.

(** [line.map(e => ({content, font, color})).filter(e => e.content)] *)
Definition toSeq (items : list WatermarkElement) (f : Font) (col : string)
  : list Item :=
  List.filter (fun i => truthy (content i))
    (map (fun e => mkItem (text e) f col) items).

(** The loop of [drawSeqY]. *)
Fixpoint drawSeqLoop (st : Style) (y gap : Q) (pipeFont : Font) (dir : Dir)
  (items : list Item) (cursor : Q) (c : CanvasEl) : CanvasEl :=
  match items with
  | [] => c
  | item :: rest =>
      let c := onCtx (setFont (itemFont item)) c in
      let itemW := measureText (font (ctx c)) (content item) in
      let drawX := match dir with ltr => cursor | rtl => cursor - itemW end in
      let c := onCtx (setTextAlign "left") c in
      let c := onCtx (setFillStyle (color item)) c in
      let c := emit (FillText (content item) drawX y) c in
      match rest with
      | [] => c
      | _ =>
          let cursor := match dir with ltr => cursor + itemW | rtl => cursor - itemW end in
          let pipeX := match dir with ltr => cursor + gap / 2 | rtl => cursor - gap / 2 end in
          let c := onCtx (setTextAlign "center") c in
          let c := onCtx (setFillStyle (secondaryTextColor st)) c in
          let c := onCtx (setFont pipeFont) c in
          let c := emit (FillText SEPARATOR_CHAR pipeX y) c in
          let cursor := match dir with ltr => cursor + gap | rtl => cursor - gap end in
          drawSeqLoop st y gap pipeFont dir rest cursor c
      end
  end.

Definition drawSeqY (st : Style) (L : Layout) (x y : Q) (dir : Dir)
  (items : list Item) (isBoldLine : bool) (c : CanvasEl) : CanvasEl :=
  let gap := measureText (font (ctx c)) SEPARATOR_CHAR * 2.5 in
  let pipeFont :=
    if isBoldLine then Inter true (mainFontSize L)
    else Inter false (subFontSize L) in
  drawSeqLoop st y gap pipeFont dir items x c.

(** [isFallback] is never assigned after its declaration. *)
Definition isFallback : bool := false.

(** [drawLogoSequence]: the logo, or its placeholder when it failed to
    load; returns [logoW]. *)
Definition drawLogoSequence (logoFailed : bool) (st : Style) (L : Layout)
  (centerY x : Q) (dir : Dir) (c : CanvasEl) : Q * CanvasEl :=
  let drawX := match dir with ltr => x | rtl => x - logoW L end in
  if logoFailed then
    let c := onCtx (setFillStyle (textColor st)) c in
    let r := Qmin (logoW L) (logoRealH L) * 0.2 in
    let c := roundRect drawX (centerY - logoRealH L / 2) (logoW L) (logoRealH L) r c in
    (logoW L, emit Fill c)
  else
    let c := if String.eqb (textColor st) "#ffffff" && negb isFallback
             then onCtx (setFilter FilterInvert) c else c in
    let c := emit (DrawImage5 SrcLogo drawX (centerY - logoRealH L / 2)
                     (logoW L) (logoRealH L)) c in
    (logoW L, onCtx (setFilter FilterNone) c).

(** The [forEach] that measures a right-hand line when the logo sits on
    the right; every item of the line carries the font [f]. *)
Fixpoint seqWidthLoop (f : Font) (gap : Q) (n idx : nat) (texts : list string)
  (w : Q) (c : CanvasEl) : Q * CanvasEl :=
  match texts with
  | [] => (w, c)
  | t :: rest =>
      let c := onCtx (setFont f) c in
      let w := w + measureText (font (ctx c)) t in
      let w := if (idx <? n - 1)%nat then w + gap else w in
      seqWidthLoop f gap n (S idx) rest w c
  end.

Definition seqWidth (f : Font) (gap : Q) (items : list WatermarkElement)
  (c : CanvasEl) : Q * CanvasEl :=
  let texts := List.filter truthy (map text items) in
  seqWidthLoop f gap (length texts) 0 texts 0 c.

(** The separator drawn between the logo and the text block. *)
Definition drawLogoSeparator (st : Style) (L : Layout) (x y : Q) (c : CanvasEl)
  : CanvasEl :=
  let c := onCtx (setFillStyle (secondaryTextColor st)) c in
  let c := onCtx (setFont (Inter true (mainFontSize L))) c in
  let c := onCtx (setTextAlign "center") c in
  emit (FillText SEPARATOR_CHAR x y) c.

(** The two lines of one side, drawn from [cursor] in direction [dir]. *)
Definition drawLines (st : Style) (L : Layout) (centerY y1 y2 cursor : Q)
  (dir : Dir) (l1 l2 : list WatermarkElement) (c : CanvasEl) : CanvasEl :=
  let has1 := hasText l1 in
  let has2 := hasText l2 in
  let c :=
    if has1 then
      drawSeqY st L cursor (if has2 then y1 else centerY) dir
        (toSeq l1 (Inter true (mainFontSize L)) (textColor st)) true c
    else c in
  if has2 then
    drawSeqY st L cursor (if has1 then y2 else centerY) dir
      (toSeq l2 (Inter false (subFontSize L)) (secondaryTextColor st)) false c
  else c.

(** "DRAW LEFT" *)
Definition drawLeft (settings : WatermarkSettings) (logoFailed : bool)
  (st : Style) (L : Layout) (centerY y1 y2 : Q) (c : CanvasEl) : CanvasEl :=
  let leftL1 := group settings left Line1 in
  let leftL2 := group settings left Line2 in
  let leftCursor := padding L in
  let '(leftCursor, c) :=
    match logoPosition settings with
    | logoLeft =>
        let '(lw, c) := drawLogoSequence logoFailed st L centerY leftCursor ltr c in
        let leftCursor := leftCursor + lw in
        let leftCursor := leftCursor + bannerH L * 0.2 in
        if hasText leftL1 || hasText leftL2 then
          let c := drawLogoSeparator st L leftCursor centerY c in
          (leftCursor + measureText (font (ctx c)) SEPARATOR_CHAR * 2.5, c)
        else (leftCursor, c)
    | logoRight => (leftCursor, c)
    end in
  drawLines st L centerY y1 y2 leftCursor ltr leftL1 leftL2 c.

(** "DRAW RIGHT" *)
Definition drawRight (settings : WatermarkSettings) (logoFailed : bool)
  (st : Style) (L : Layout) (w centerY y1 y2 : Q) (c : CanvasEl) : CanvasEl :=
  let rightL1 := group settings right Line1 in
  let rightL2 := group settings right Line2 in
  let rightCursor := w - padding L in
  match logoPosition settings with
  | logoRight =>
      let maxTextW := 0 in
      let gap := measureText (font (ctx c)) SEPARATOR_CHAR * 2.5 in
      let '(maxTextW, c) :=
        if hasText rightL1 then
          let '(tw, c) := seqWidth (Inter true (mainFontSize L)) gap rightL1 c in
          (if Qgtb tw maxTextW then tw else maxTextW, c)
        else (maxTextW, c) in
      let '(maxTextW, c) :=
        if hasText rightL2 then
          let '(tw, c) := seqWidth (Inter false (subFontSize L)) gap rightL2 c in
          (if Qgtb tw maxTextW then tw else maxTextW, c)
        else (maxTextW, c) in
      let c := drawLines st L centerY y1 y2 rightCursor rtl rightL1 rightL2 c in
      let '(rightCursor, c) :=
        if hasText rightL1 || hasText rightL2 then
          let rightCursor := rightCursor - maxTextW in
          let c := onCtx (setFillStyle (secondaryTextColor st)) c in
          let c := onCtx (setFont (Inter true (mainFontSize L))) c in
          let c := onCtx (setTextAlign "center") c in
          let c := emit (FillText SEPARATOR_CHAR
                           (rightCursor - (measureText (font (ctx c)) SEPARATOR_CHAR * 2.5) / 2)
                           centerY) c in
          (rightCursor - measureText (font (ctx c)) SEPARATOR_CHAR * 2.5, c)
        else (rightCursor, c) in
      snd (drawLogoSequence logoFailed st L centerY rightCursor rtl c)
  | logoLeft =>
      drawLines st L centerY y1 y2 rightCursor rtl rightL1 rightL2 c
  end.

(** The style of a render: the colours [applyStyle] settles on. *)
Definition styleOf (settings : WatermarkSettings) (w h : Q) (L : Layout) : Style :=
  fst (applyStyle settings w h L newCanvas).

(** [processRender(logoFailed)] for a photograph of [w] x [h] pixels and
    a logo image of natural size [natW] x [natH]. *)
Definition processRender (settings : WatermarkSettings) (w h : Z)
  (natW natH : Z) (logoFailed : bool) (canvas : CanvasEl) : CanvasEl :=
  let L := fst (fitPass (ctx canvas) settings w
                  (initialLayout w h logoFailed natW natH)) in
  let wq := inject_Z w in
  let hq := inject_Z h in
  let totalH := hq + bannerH L in
  let c := setWidth wq canvas in
  let c := setHeight totalH c in
  let c := emit (DrawImage3 SrcImg 0 0) c in
  let bannerY := hq in
  let c := onCtx (setShadowBlur 0) c in
  let c := onCtx (setShadowColor "transparent") c in
  let '(st, c) := applyStyle settings wq hq L c in
  let c := if negb (style_eqb (bannerStyle settings) BLUR)
           then emit (FillRect 0 bannerY wq (bannerH L)) c else c in
  let centerY := bannerY + bannerH L / 2 in
  let c := onCtx (setTextBaseline "middle") c in
  let c := onCtx (enableShadow st L) c in
  let gapY := bannerH L * 0.08 in
  let totalTextH := mainFontSize L + gapY + subFontSize L in
  let startY := centerY - totalTextH / 2 in
  let y1 := startY + mainFontSize L / 2 in
  let y2 := startY + mainFontSize L + gapY + subFontSize L / 2 in
  let c := drawLeft settings logoFailed st L centerY y1 y2 c in
  drawRight settings logoFailed st L wq centerY y1 y2 c.

(** How the promise of [generateWatermark] settles. *)
Inductive Outcome :=
| Resolved (dataUrl : string)
| Rejected (message : string).

(** Where the 15-second timer falls among the events of a call: it
    fires before the photograph's load or error event, or after that
    but before the logo's load or error event, or [cleanup] clears it
    before it fires. *)
Inductive Timer :=
| FiresBeforeImage
| FiresBeforeLogo
| Cleared.

(** [generateWatermark]: [imgLoad] is the natural size of the decoded
    photograph ([None]: [img.onerror]), [hasCtx] whether [getContext('2d')]
    gave a context, [logoLoad] the natural size of the decoded logo
    ([None]: [lImg.onerror]).  The promise keeps the first settlement:
    once the timer has rejected it, the later [resolve] or [reject] has
    no effect. *)
Definition generateWatermark (settings : WatermarkSettings)
  (imgLoad : option (Z * Z)) (hasCtx : bool) (logoLoad : option (Z * Z))
  (timer : Timer) : Outcome :=
  match timer with
  | FiresBeforeImage => Rejected "Processing timeout."
  | _ =>
      match imgLoad with
      | None => Rejected "Image load error"
      | Some (w, h) =>
          if negb hasCtx then Rejected "Canvas context not available"
          else
            let canvas := setHeight (inject_Z h) (setWidth (inject_Z w) newCanvas) in
            match timer with
            | Cleared =>
                match logoLoad with
                | Some (natW, natH) =>
                    Resolved (toDataURL (processRender settings w h natW natH false canvas))
                | None =>
                    Resolved (toDataURL (processRender settings w h 0 0 true canvas))
                end
            | _ => Rejected "Processing timeout."
            end
      end
  end.

End Render.

(** What [lImg.src] is set to: an object URL for the uploaded SVG text,
    or the path of a bundled logo. *)
Inductive LogoSrc :=
| BlobOf (svg : string)
| PathOf (path : string).

(** "Prepare Logo": [logoImgSrc] for the key [logoKey] handed in by the
    caller. *)
Definition logoImgSrc (settings : WatermarkSettings) (logoKey : string) : LogoSrc :=
  let custom :=
    match customLogoSvg settings with
    | Some svg => if String.eqb (selectedLogoKey settings) "CUSTOM" && truthy svg
                  then Some svg else None
    | None => None
    end in
  match custom with
  | Some svg => BlobOf svg
  | None =>
      let filename :=
        orElse (if String.eqb (selectedLogoKey settings) "AUTO" then logoKey
                else selectedLogoKey settings) "DEFAULT" in
      let cleanName := toUpperCase (charAt0 filename) +:+ toLowerCase (slice1 filename) in
      PathOf ("/logos/" +:+ cleanName +:+ ".svg")
  end.

End Canvas.

(** ** The settings handlers of the editor component *)

Module App.
Import Js Types.

(** [els[k]] *)
Fixpoint get (k : string) (els : list (string * WatermarkElement))
  : option WatermarkElement :=
  match els with
  | [] => None
  | (k', e) :: t => if String.eqb k' k then Some e else get k t
  end.

(** [els[k] = v]: an existing property keeps its place in the
    enumeration order, a new one is added at the end. *)
Fixpoint assign (k : string) (v : WatermarkElement)
  (els : list (string * WatermarkElement)) : list (string * WatermarkElement) :=
  match els with
  | [] => [(k, v)]
  | (k', e) :: t =>
      if String.eqb k' k then (k', v) :: t else (k', e) :: assign k v t
  end.

(** [els.k.text = v]; [None] is the TypeError of reading a property of
    [undefined]. *)
Definition setText (k v : string) (els : list (string * WatermarkElement))
  : option (list (string * WatermarkElement)) :=
  match get k els with
  | Some e => Some (assign k (mkElement (id e) (label e) v (side e) (line e) (order e)) els)
  | None => None
  end.

(** The updater that [onDrop] passes to [setSettings], for the record
    [data] returned by [extractExifData]. *)
Definition onDropUpdate (data : Exif.ExifData) (prev : WatermarkSettings)
  : option WatermarkSettings :=
  els ← setText "model" (Exif.model data) (elements prev);
  els ← setText "lens" (Exif.lens data) els;
  els ← setText "focalLength" (Exif.focalLength data) els;
  els ← setText "fNumber" (Exif.fNumber data) els;
  els ← setText "iso" (if truthy (Exif.iso data) then "ISO" +:+ Exif.iso data
                       else EmptyString) els;
  els ← setText "exposureTime" (Exif.exposureTime data) els;
  els ← setText "date" (Exif.dateTime data) els;
  els ← setText "gps" (match Exif.gps data with Some g => g | None => EmptyString end) els;
  Some (mkSettings els (bannerStyle prev) (blurIntensity prev)
          (useOriginalDate prev) (selectedLogoKey prev) (customLogoSvg prev)
          (logoPosition prev) (useAdaptiveTextColor prev)).

(** The initial value of the [settings] state. *)
Definition initialSettings : WatermarkSettings :=
  mkSettings
    [ ("model", mkElement "model" "model" EmptyString left Line1 0);
      ("lens", mkElement "lens" "lens" EmptyString left Line1 1);
      ("focalLength", mkElement "focalLength" "focalLength" EmptyString right Line1 0);
      ("fNumber", mkElement "fNumber" "fNumber" EmptyString right Line1 1);
      ("iso", mkElement "iso" "iso" EmptyString right Line1 2);
      ("exposureTime", mkElement "exposureTime" "exposureTime" EmptyString right Line1 3);
      ("date", mkElement "date" "date" EmptyString right Line2 0);
      ("gps", mkElement "gps" "gps" EmptyString off Line2 1) ]
    WHITE 30%Q true "AUTO" None logoLeft false.

(** [{ ...els[k], side, line, order }]; spreading [undefined] leaves the
    other properties absent (kept empty here). *)
Definition place (o : option WatermarkElement) (s : Side) (l : Line) (i : Z)
  : WatermarkElement :=
  match o with
  | Some e => mkElement (id e) (label e) (text e) s l i
  | None => mkElement EmptyString EmptyString EmptyString s l i
  end.

(** [newGroup.forEach(([k], index) => { els[k] = {...} })] from [index]. *)
Fixpoint placeAll (keys : list string) (index : nat) (s : Side) (l : Line)
  (els : list (string * WatermarkElement)) : list (string * WatermarkElement) :=
  match keys with
  | [] => els
  | k :: t =>
      placeAll t (S index) s l
        (assign k (place (get k els) s l (Z.of_nat index)) els)
  end.

(** The updater that [handleDrop] passes to [setSettings]. *)
Definition dropUpdate (draggedId : string) (targetSide : Side)
  (targetLine : Line) (targetId : option string) (prev : WatermarkSettings)
  : WatermarkSettings :=
  let els := elements prev in
  let groupItems :=
    Arr.sort (fun a b => order (snd a) - order (snd b))
      (List.filter
         (fun '(k, el) => side_eqb (side el) targetSide
                          && line_eqb (line el) targetLine
                          && negb (String.eqb k draggedId)) els) in
  let insertIndex :=
    match targetId with
    | Some t =>
        if truthy t then
          match Arr.findIndex (fun '(k, _) => String.eqb k t) groupItems with
          | Some idx => idx
          | None => length groupItems
          end
        else length groupItems
    | None => length groupItems
    end in
  let draggedEl := get draggedId els in
  let newGroup :=
    Arr.spliceInsert insertIndex (draggedId, draggedEl)
      (map (fun '(k, el) => (k, Some el)) groupItems) in
  let els := placeAll (map fst newGroup) 0 targetSide targetLine els in
  let els := assign draggedId (place (get draggedId els) targetSide targetLine
                                 (match get draggedId els with
                                  | Some e => order e | None => 0 end)) els in
  mkSettings els (bannerStyle prev) (blurIntensity prev)
    (useOriginalDate prev) (selectedLogoKey prev) (customLogoSvg prev)
    (logoPosition prev) (useAdaptiveTextColor prev).

(** The component state the drag handlers work on. *)
Record State := mkState {
  settings : WatermarkSettings;
  draggedId : option string
}.

(** [handleDragStart] *)
Definition handleDragStart (key : string) (st : State) : State :=
  mkState (settings st) (Some key).

(** [handleDrop] *)
Definition handleDrop (targetSide : Side) (targetLine : Line)
  (targetId : option string) (st : State) : State :=
  match draggedId st with
  | None => st
  | Some d =>
      if negb (truthy d) then st
      else if match targetId with Some t => String.eqb d t | None => false end
      then st
      else mkState (dropUpdate d targetSide targetLine targetId (settings st)) None
  end.

(** [prev] with its [elements] replaced. *)
Definition withElements (els : list (string * WatermarkElement))
  (prev : WatermarkSettings) : WatermarkSettings :=
  mkSettings els (bannerStyle prev) (blurIntensity prev)
    (useOriginalDate prev) (selectedLogoKey prev) (customLogoSvg prev)
    (logoPosition prev) (useAdaptiveTextColor prev).

(** [updateElementText]; the handlers below are only ever called with
    the key of a slot, [None] stands for any other key. *)
Definition updateElementText (key val : string) (prev : WatermarkSettings)
  : option WatermarkSettings :=
  match get key (elements prev) with
  | Some e =>
      Some (withElements
              (assign key (mkElement (id e) (label e) val (side e) (line e) (order e))
                 (elements prev)) prev)
  | None => None
  end.

(** [handleHide] *)
Definition handleHide (key : string) (prev : WatermarkSettings)
  : option WatermarkSettings :=
  match get key (elements prev) with
  | Some e =>
      Some (withElements
              (assign key (mkElement (id e) (label e) (text e) off (line e) (order e))
                 (elements prev)) prev)
  | None => None
  end.

(** [handleRestore] *)
Definition handleRestore (key : string) (prev : WatermarkSettings)
  : option WatermarkSettings :=
  match get key (elements prev) with
  | Some e =>
      Some (withElements
              (assign key (mkElement (id e) (label e) (text e) left Line1 (order e))
                 (elements prev)) prev)
  | None => None
  end.

(** The place name assembled from the reverse-geocoding answer: the
    first non-empty of city, town, village and county, then the country
    unless it repeats that name; absent fields are empty strings. *)
Definition placeName (city town village county country : string) : string :=
  let city := orElse city (orElse town (orElse village (orElse county EmptyString))) in
  let country := orElse country EmptyString in
  let locParts := if truthy city then [city] else [] in
  let locParts :=
    if truthy country && negb (String.eqb country city)
    then locParts ++ [country] else locParts in
  match locParts with
  | [] => EmptyString
  | [a] => a
  | a :: b :: _ => a +:+ ", " +:+ b
  end.

(** The update of the GPS slot once the place name [loc] is known. *)
Definition applyPlace (loc : string) (prev : WatermarkSettings)
  : option WatermarkSettings :=
  if truthy loc then updateElementText "gps" loc prev else Some prev.

(** Truthiness of what [lat] or [lon] holds. *)
Definition coordTruthy (c : Exif.Coord) : bool :=
  match c with
  | Exif.Num x => numTruthy x
  | Exif.Str s => truthy s
  end.

(** The [exif] state that [onDrop] sets: the record of
    [extractExifData], or the stand-in record of the [catch] block when
    extraction threw; [localeNow] is [new Date().toLocaleString()]. *)
Definition exifAfterDrop (localeNow : string) (r : Exif.Result Exif.ExifData)
  : Exif.ExifData :=
  match r with
  | Exif.Returned data => data
  | Exif.Threw =>
      Exif.mkExifData "Camera" "Unknown" EmptyString EmptyString EmptyString
        EmptyString EmptyString localeNow None None None
  end.

(** The [settings] state after [onDrop]: the [catch] block leaves the
    settings as they are. *)
Definition settingsAfterDrop (r : Exif.Result Exif.ExifData)
  (prev : WatermarkSettings) : option WatermarkSettings :=
  match r with
  | Exif.Returned data => onDropUpdate data prev
  | Exif.Threw => Some prev
  end.

(** The guard of the lookup effect: [exif && exif.lat && exif.lon]. *)
Definition lookupWanted (exif : option Exif.ExifData) : bool :=
  match exif with
  | Some e =>
      match Exif.lat e, Exif.lon e with
      | Some la, Some lo => coordTruthy la && coordTruthy lo
      | _, _ => false
      end
  | None => false
  end.

(** [finalLogoKey] of the render effect. *)
Definition finalLogoKey (settings : WatermarkSettings) (autoLogoKey : string) : string :=
  if String.eqb (selectedLogoKey settings) "AUTO" then autoLogoKey
  else selectedLogoKey settings.

End App.

(** ** Notions used to state the properties *)

Module Spec.
Import Js Types.

(** The character [c] does not occur in [s]. *)
Fixpoint lacks (c : ascii) (s : string) : bool :=
  match s with
  | EmptyString => true
  | String d r => negb (Ascii.eqb d c) && lacks c r
  end.

(** A component of a date: free of spaces and colons. *)
Definition plain (s : string) : Prop :=
  lacks " " s = true /\ lacks ":" s = true.

(** A clock value, a [parseFloat] and a [String] for closed examples. *)
Definition noon : Exif.Date := Exif.mkDate 2024 0 1 12 0.
Definition noFloat : string -> number := fun _ => NaN.
Definition noString : number -> string := fun _ => EmptyString.

(** A tag map with the capture date of the specification's example. *)
Definition dateTags : gmap string Exif.Tag :=
  {[ "DateTimeOriginal" := Exif.mkTag Exif.VOther "2024:05:01 10:30:00" ]}.

(** The clock at the instant of that capture date. *)
Definition captureClock : Exif.Date := Exif.mkDate 2024 4 1 10 30.

(** A tag map with the position (40, 44, 54.36) N, (73, 59, 8.52) W as
    the reader delivers it: each component a pair of numerator and
    denominator. *)
Definition gpsTags : gmap string Exif.Tag :=
  <[ "GPSLatitude" :=
       Exif.mkTag (Exif.VArray (Exif.Rationals [(40, 1); (44, 1); (5436, 100)]))
         "40.7484" ]>
  (<[ "GPSLatitudeRef" := Exif.mkTag Exif.VOther "North latitude" ]>
  (<[ "GPSLongitude" :=
        Exif.mkTag (Exif.VArray (Exif.Rationals [(73, 1); (59, 1); (852, 100)]))
          "73.9857" ]>
  (<[ "GPSLongitudeRef" := Exif.mkTag Exif.VOther "West longitude" ]>
  (<[ "Model" := Exif.mkTag Exif.VOther "X100V" ]> ∅)))).

(** The position (22, 54, 30) S, (43, 10, 22) W, as pairs. *)
Definition southWestTags : gmap string Exif.Tag :=
  <[ "GPSLatitude" :=
       Exif.mkTag (Exif.VArray (Exif.Rationals [(22, 1); (54, 1); (30, 1)]))
         "22.9083" ]>
  (<[ "GPSLatitudeRef" := Exif.mkTag Exif.VOther "South latitude" ]>
  (<[ "GPSLongitude" :=
        Exif.mkTag (Exif.VArray (Exif.Rationals [(43, 1); (10, 1); (22, 1)]))
          "43.1728" ]>
  (<[ "GPSLongitudeRef" := Exif.mkTag Exif.VOther "West longitude" ]> ∅))).

(** The position of [gpsTags] with the components as plain numbers. *)
Definition plainGpsTags : gmap string Exif.Tag :=
  <[ "GPSLatitude" :=
       Exif.mkTag (Exif.VArray (Exif.Numbers [ofInt 40; ofInt 44; ofRatio 5436 100]))
         "40.7484" ]>
  (<[ "GPSLatitudeRef" := Exif.mkTag Exif.VOther "North latitude" ]>
  (<[ "GPSLongitude" :=
        Exif.mkTag (Exif.VArray (Exif.Numbers [ofInt 73; ofInt 59; ofRatio 852 100]))
          "73.9857" ]>
  (<[ "GPSLongitudeRef" := Exif.mkTag Exif.VOther "West longitude" ]> ∅))).

(** A tag map with an aperture and a shutter time already in display
    form, and an ISO value. *)
Definition exposureTags : gmap string Exif.Tag :=
  <[ "FNumber" := Exif.mkTag Exif.VOther "f/1.8" ]>
  (<[ "ExposureTime" := Exif.mkTag Exif.VOther "1/125s" ]>
  (<[ "ISOSpeedRatings" := Exif.mkTag Exif.VOther "400" ]> ∅)).

(** [ref] names the southern or western hemisphere. *)
Definition southOrWest (ref : string) : Prop := ref = "S" \/ ref = "W".

(** Degrees, minutes and seconds as signed decimal degrees, computed in
    binary64: [d + m / 60 + s / 3600], negated for the references "S"
    and "W". *)
Definition signedDegrees (d m s : number) (ref : string) : number :=
  let x := add (add d (div m (ofInt 60))) (div s (ofInt 3600)) in
  if String.eqb ref "S" || String.eqb ref "W" then mul x (ofInt (-1)) else x.

(** The number of entries of a tag's array. *)
Definition entries (a : Exif.DmsArray) : nat :=
  match a with
  | Exif.Numbers xs => length xs
  | Exif.Rationals xs => length xs
  end.

(** The value is an array of [numerator, denominator] pairs. *)
Definition rationals (v : Exif.TagValue) : Prop :=
  exists xs, v = Exif.VArray (Exif.Rationals xs).

(** The keys of [settings.elements]. *)
Definition slotKeys : list string :=
  ["model"; "lens"; "focalLength"; "fNumber"; "iso"; "exposureTime"; "date"; "gps"].

(** A sampled band in which every pixel is the mid grey (128, 128, 128):
    the 100 x 10 samples, four bytes each. *)
Definition greyBand : list Z :=
  concat (repeat [128; 128; 128; 255] 1000).

(** Settings that choose the adaptive banner. *)
Definition adaptiveSettings (adaptiveText : bool) : WatermarkSettings :=
  mkSettings (elements App.initialSettings) ADAPTIVE 30%Q true "AUTO" None
    logoLeft adaptiveText.

(** The call draws the logo image. *)
Definition drawsLogo (op : Canvas.Ctx * Canvas.Cmd) : bool :=
  match snd op with
  | Canvas.DrawImage3 Canvas.SrcLogo _ _
  | Canvas.DrawImage5 Canvas.SrcLogo _ _ _ _
  | Canvas.DrawImage9 Canvas.SrcLogo _ _ _ _ _ _ _ _ => true
  | _ => false
  end.

(** The call is made under the brightness-invert filter. *)
Definition inverted (op : Canvas.Ctx * Canvas.Cmd) : bool :=
  match Canvas.ctxFilter (fst op) with
  | Canvas.FilterInvert => true
  | _ => false
  end.

Definition clean (op : Canvas.Ctx * Canvas.Cmd) : Prop :=
  drawsLogo op = false /\ inverted op = false.

Definition calm (c : Canvas.CanvasEl) : Prop :=
  Canvas.ctxFilter (Canvas.ctx c) <> Canvas.FilterInvert.

(** A call that does not draw the logo. *)
Definition plainCmd (cmd : Canvas.Cmd) : Prop :=
  forall st, drawsLogo (st, cmd) = false.

(** A filled rectangle with rounded corners of radius [r]: the path
    from the top edge through the four corner arcs, closed and filled. *)
Definition roundedBox (x y w h r : Q) : list Canvas.Cmd :=
  [ Canvas.BeginPath;
    Canvas.MoveTo (x + r) y;
    Canvas.ArcTo (x + w) y (x + w) (y + h) r;
    Canvas.ArcTo (x + w) (y + h) x (y + h) r;
    Canvas.ArcTo x (y + h) x y r;
    Canvas.ArcTo x y (x + w) y r;
    Canvas.ClosePath;
    Canvas.Fill ]%Q.

(** [c'] comes from [c] by further drawing calls on a canvas of the same
    size; when [P] holds and [c] is not under the invert filter, neither
    is [c'] and the added calls are [clean]. *)
Definition ext (P : Prop) (c c' : Canvas.CanvasEl) : Prop :=
  Canvas.width c' = Canvas.width c /\
  Canvas.height c' = Canvas.height c /\
  exists more, Canvas.ops c' = Canvas.ops c ++ more /\
               (P -> calm c -> calm c' /\ Forall clean more).

(** [c'] comes from [c] by calls among which a rounded box of size
    [w] x [h] with top edge [y], filled in [colour], is drawn. *)
Definition boxDrawn (colour : string) (y w h : Q) (c c' : Canvas.CanvasEl) : Prop :=
  exists before cx x r after,
    Canvas.ops c' = Canvas.ops c ++ before
                    ++ map (pair cx) (roundedBox x y w h r) ++ after /\
    Canvas.fillStyle cx = colour /\
    Canvas.ctxFilter cx <> Canvas.FilterInvert.

(** The canvas right after the photograph has been redrawn. *)
Definition redrawn (w h : Z) (L : Canvas.Layout) (canvas : Canvas.CanvasEl)
  : Canvas.CanvasEl :=
  Canvas.emit (Canvas.DrawImage3 Canvas.SrcImg 0 0)
    (Canvas.setHeight (inject_Z h + Canvas.bannerH L)%Q
       (Canvas.setWidth (inject_Z w) canvas)).

(** The canvas [generateWatermark] hands to [processRender]. *)
Definition sizedCanvas (w h : Z) : Canvas.CanvasEl :=
  Canvas.setHeight (inject_Z h) (Canvas.setWidth (inject_Z w) Canvas.newCanvas).

(** What [lImg] reports to [processRender]: its natural size and
    whether loading failed. *)
Definition logoArgs (logoLoad : option (Z * Z)) : Z * Z * bool :=
  match logoLoad with
  | Some (natW, natH) => (natW, natH, false)
  | None => (0, 0, true)
  end.

(** All sizes of a layout multiplied by [k]. *)
Definition scaleLayout (k : Q) (L : Canvas.Layout) : Canvas.Layout :=
  Canvas.mkLayout (Canvas.bannerH L * k) (Canvas.mainFontSize L * k)
    (Canvas.subFontSize L * k) (Canvas.padding L * k) (Canvas.logoH L * k)
    (Canvas.logoW L * k) (Canvas.logoRealH L * k).

(** Text widths grow linearly with the font size. *)
Definition linearText (mt : Canvas.Font -> string -> Q) : Prop :=
  forall b f k s, (0 < k)%Q ->
    (mt (Canvas.Inter b (f * k)) s == k * mt (Canvas.Inter b f) s)%Q.

(** The fonts of two contexts are the same face at sizes [sz] and [sz * k]. *)
Definition fontScaled (k : Q) (c c' : Canvas.Ctx) : Prop :=
  exists b sz, Canvas.font c = Canvas.Inter b sz /\
               Canvas.font c' = Canvas.Inter b (sz * k).

(** A text measurement for closed examples: 0.6 of the font size per
    character. *)
Definition monoText (f : Canvas.Font) (s : string) : Q :=
  match f with
  | Canvas.DefaultFont => 10 * 0.6 * inject_Z (Z.of_nat (String.length s))
  | Canvas.Inter _ sz => sz * (0.6 * inject_Z (Z.of_nat (String.length s)))
  end.

(** Settings whose texts are [model] on the left and [expo] on the right. *)
Definition textSettings (model expo : string) : WatermarkSettings :=
  mkSettings
    [ ("model", mkElement "model" "model" model left Line1 0);
      ("lens", mkElement "lens" "lens" EmptyString left Line1 1);
      ("focalLength", mkElement "focalLength" "focalLength" EmptyString right Line1 0);
      ("fNumber", mkElement "fNumber" "fNumber" EmptyString right Line1 1);
      ("iso", mkElement "iso" "iso" EmptyString right Line1 2);
      ("exposureTime", mkElement "exposureTime" "exposureTime" expo right Line1 3);
      ("date", mkElement "date" "date" EmptyString right Line2 0);
      ("gps", mkElement "gps" "gps" EmptyString off Line2 1) ]
    WHITE 30%Q true "AUTO" None logoLeft false.

(** A caption that overflows a 1000-pixel image, and one that fits. *)
Definition crowded : WatermarkSettings :=
  textSettings "A camera with a very long descriptive model name, mark two"
               "1/125s at a leisurely pace, handheld, no flash was fired!".
Definition roomy : WatermarkSettings := textSettings "X100V" "1/125s".

(** A caption that overflows a 1000-pixel image by less than the floor
    of the correction allows. *)
Definition snug : WatermarkSettings :=
  textSettings "A camera with a rather long model name 2"
               "1/125s, handheld, dusk".

(** Within each (side, line) group the slots have pairwise distinct
    [order] values. *)
Definition ordersDistinct (els : list (string * WatermarkElement)) : Prop :=
  forall k1 k2 e1 e2,
    k1 <> k2 -> App.get k1 els = Some e1 -> App.get k2 els = Some e2 ->
    side e1 = side e2 -> line e1 = line e2 -> order e1 <> order e2.

(** The decision procedure for [ordersDistinct] on a list of entries
    with distinct keys. *)
Fixpoint ordersDistinctb (els : list (string * WatermarkElement)) : bool :=
  match els with
  | [] => true
  | (_, e) :: t =>
      forallb (fun '(_, e') =>
                 negb (side_eqb (side e) (side e') && line_eqb (line e) (line e')
                       && (order e =? order e')%Z)) t
      && ordersDistinctb t
  end.

(** The slot keeps its identity and its text. *)
Definition sameSlot (e e' : WatermarkElement) : Prop :=
  id e' = id e /\ label e' = label e /\ text e' = text e.

(** The position of [k] in [ks]. *)
Fixpoint indexOf (k : string) (ks : list string) : option nat :=
  match ks with
  | [] => None
  | k' :: t => if String.eqb k' k then Some O
               else match indexOf k t with
                    | Some i => Some (S i)
                    | None => None
                    end
  end.

(** The editor state while the slot [d] is being dragged. *)
Definition dragging (d : string) : App.State :=
  App.mkState App.initialSettings (Some d).

(** The other slots of the drop zone, in their current order: the
    [groupItems] of [handleDrop]. *)
Definition zoneItems (d : string) (ts : Side) (tl : Line)
  (els : list (string * WatermarkElement)) : list (string * WatermarkElement) :=
  Arr.sort (fun a b => order (snd a) - order (snd b))
    (List.filter
       (fun '(k, el) => side_eqb (side el) ts && line_eqb (line el) tl
                        && negb (String.eqb k d)) els).

(** The [insertIndex] of [handleDrop]. *)
Definition insertAt (tid : option string) (items : list (string * WatermarkElement))
  : nat :=
  match tid with
  | Some t =>
      if truthy t then
        match Arr.findIndex (fun '(k, _) => String.eqb k t) items with
        | Some idx => idx
        | None => length items
        end
      else length items
  | None => length items
  end.

(** The keys of the drop zone after the drop of [d], in their new
    order. *)
Definition zoneOrder (d : string) (ts : Side) (tl : Line) (tid : option string)
  (els : list (string * WatermarkElement)) : list string :=
  let items := zoneItems d ts tl els in
  let i := insertAt tid items in
  firstn i (map fst items) ++ d :: skipn i (map fst items).

(** The keys of [l] increase strictly from left to right. *)
Fixpoint ascending {A : Type} (key : A -> Z) (l : list A) : Prop :=
  match l with
  | [] => True
  | x :: t => Forall (fun y => key x < key y) t /\ ascending key t
  end.

(** The slots with the keys [ks], placed in the zone [(s, l)] with the
    orders [i], [i + 1], ... *)
Fixpoint placedFrom (s : Side) (l : Line) (els : list (string * WatermarkElement))
  (ks : list string) (i : nat) : list WatermarkElement :=
  match ks with
  | [] => []
  | k :: t => App.place (App.get k els) s l (Z.of_nat i) :: placedFrom s l els t (S i)
  end.

(** The element belongs to the zone [(s, l)]. *)
Definition inZone (s : Side) (l : Line) (e : WatermarkElement) : bool :=
  side_eqb (side e) s && line_eqb (line e) l.

(** The sum of a list of numbers. *)
Fixpoint sumQ (l : list Q) : Q :=
  match l with
  | [] => 0
  | x :: t => x + sumQ t
  end.

(** The items of a line that have a text. *)
Definition shown (items : list WatermarkElement) : list WatermarkElement :=
  List.filter (fun i => truthy (text i)) items.

(** The number of pixels the loop of [getDominantColors] visits. *)
Fixpoint pixels (data : list Z) : Z :=
  match data with
  | _ :: _ :: _ :: _ :: rest => 1 + pixels rest
  | _ => 0
  end.

(** A colour channel value. *)
Definition isByte (x : Z) : Prop := 0 <= x <= 255.

(** The sum of the pixel counts of the buckets. *)
Fixpoint totalCount (l : list Canvas.Bucket) : Z :=
  match l with
  | [] => 0
  | x :: t => Canvas.count x + totalCount t
  end.

(** The string [rgb(r, g, b)]. *)
Definition rgbString (r g b : Z) : string :=
  "rgb(" +:+ numToString r +:+ ", " +:+ numToString g +:+ ", " +:+
  numToString b +:+ ")".

(** The buckets of a sampled band, most populated first: the [buckets]
    array of [getDominantColors] after sorting. *)
Definition bucketsOf (data : list Z) : list Canvas.Bucket :=
  Arr.sort (fun a b => Canvas.count b - Canvas.count a)
    (map (fun e => Canvas.toBucket (snd e)) (Canvas.accumulate data [])).

(** An accumulator entry that averages to valid channels. *)
Definition sound (a : Canvas.Acc) : Prop :=
  0 < Canvas.acount a /\
  0 <= Canvas.ar a <= 255 * Canvas.acount a /\
  0 <= Canvas.ag a <= 255 * Canvas.acount a /\
  0 <= Canvas.ab a <= 255 * Canvas.acount a.

(** A pixel of the sampled band, as its red, green and blue channels;
    also used for a cell of the 8 x 8 x 8 colour grid. *)
Definition Pixel : Type := Z * Z * Z.

Definition red (p : Pixel) : Z := fst (fst p).
Definition green (p : Pixel) : Z := snd (fst p).
Definition blue (p : Pixel) : Z := snd p.

(** The pixels of the sampled band in the order of the loop; the alpha
    byte is not read. *)
Fixpoint pixelsOf (data : list Z) : list Pixel :=
  match data with
  | r :: g :: b :: _ :: rest => (r, g, b) :: pixelsOf rest
  | _ => []
  end.

Definition bytePixel (p : Pixel) : Prop :=
  isByte (red p) /\ isByte (green p) /\ isByte (blue p).

(** The grid cell of a pixel: each channel divided by 32, rounded down. *)
Definition cellOf (p : Pixel) : Pixel :=
  (red p / 32, green p / 32, blue p / 32).

Definition cellEqb (c c' : Pixel) : bool :=
  (red c =? red c') && (green c =? green c') && (blue c =? blue c').

(** The pixels of [ps] that fall in [cell], in their order. *)
Definition within (cell : Pixel) (ps : list Pixel) : list Pixel :=
  List.filter (fun p => cellEqb (cellOf p) cell) ps.

(** The pixels of the band that fall in [cell]. *)
Definition members (cell : Pixel) (data : list Z) : list Pixel :=
  within cell (pixelsOf data).

(** The sum of one channel over a list of pixels. *)
Fixpoint sumOf (f : Pixel -> Z) (l : list Pixel) : Z :=
  match l with
  | [] => 0
  | p :: t => f p + sumOf f t
  end.

(** [q] is the quotient [s / n] rounded to the nearest integer, a half
    rounded upwards. *)
Definition nearest (s n q : Z) : Prop :=
  2 * n * q <= 2 * s + n < 2 * n * (q + 1).

(** The bucket [x] describes the pixels of one grid cell of the band:
    its count is their number, which is not zero, its channels are
    their channel averages rounded to the nearest integer, and its
    colour string is written from these channels. *)
Definition averages (data : list Z) (x : Canvas.Bucket) : Prop :=
  exists cell,
    Canvas.count x = Z.of_nat (length (members cell data)) /\
    0 < Canvas.count x /\
    nearest (sumOf red (members cell data)) (Canvas.count x) (Canvas.r x) /\
    nearest (sumOf green (members cell data)) (Canvas.count x) (Canvas.g x) /\
    nearest (sumOf blue (members cell data)) (Canvas.count x) (Canvas.b x) /\
    Canvas.hex x = rgbString (Canvas.r x) (Canvas.g x) (Canvas.b x).

(** The key of a grid cell in [colorMap]. *)
Definition keyStr (c : Pixel) : string :=
  numToString (red c) +:+ "," +:+ numToString (green c) +:+ "," +:+
  numToString (blue c).

Definition range8 : list Z := [0; 1; 2; 3; 4; 5; 6; 7].

(** The 512 grid cells. *)
Definition cells : list Pixel := list_prod (list_prod range8 range8) range8.

(** Two grid cells with the same key are the same cell, checked on all
    pairs. *)
Definition keysDistinct : bool :=
  forallb (fun c =>
    forallb (fun c' => implb (String.eqb (keyStr c) (keyStr c')) (cellEqb c c'))
      cells) cells.

(** The entry [a] of [colorMap] holds the count and the channel sums of
    the pixels of [ps] in [cell], of which there is at least one. *)
Definition holds (cell : Pixel) (ps : list Pixel) (a : Canvas.Acc) : Prop :=
  within cell ps <> [] /\
  Canvas.acount a = Z.of_nat (length (within cell ps)) /\
  Canvas.ar a = sumOf red (within cell ps) /\
  Canvas.ag a = sumOf green (within cell ps) /\
  Canvas.ab a = sumOf blue (within cell ps).

(** [colorMap] after the loop has visited the pixels [ps]: one entry
    per grid cell met, holding the totals of that cell. *)
Definition tracks (ps : list Pixel) (m : list (string * Canvas.Acc)) : Prop :=
  List.NoDup (map fst m) /\
  (forall k a, In (k, a) m ->
     exists cell, In cell cells /\ k = keyStr cell /\ holds cell ps a) /\
  (forall p, In p ps ->
     In (cellOf p) cells /\ exists a, In (keyStr (cellOf p), a) m).

(** A clock reading with a four-digit year. *)
Definition validClock (d : Exif.Date) : Prop :=
  1000 <= Exif.getFullYear d <= 9999 /\
  0 <= Exif.getMonth d <= 11 /\
  1 <= Exif.getDate d <= 31 /\
  0 <= Exif.getHours d <= 23 /\
  0 <= Exif.getMinutes d <= 59.

(** A tag map with the capture date [d] only. *)
Definition dateOnlyTags (d : string) : gmap string Exif.Tag :=
  {[ "DateTimeOriginal" := Exif.mkTag Exif.VOther d ]}.

(** A tag map whose latitude array is too short. *)
Definition shortGpsTags : gmap string Exif.Tag :=
  <[ "GPSLatitude" :=
       Exif.mkTag (Exif.VArray (Exif.Rationals [(40, 1); (44, 1)])) "40.73" ]>
  (<[ "GPSLongitude" :=
        Exif.mkTag (Exif.VArray (Exif.Rationals [(73, 1); (59, 1); (852, 100)]))
          "73.9857" ]> ∅).

(** Two settings agree on everything the renderer reads: the four
    visible groups, the banner style with its parameters and the place
    of the logo. *)
Definition sameLook (s1 s2 : WatermarkSettings) : Prop :=
  (forall l, Canvas.group s1 left l = Canvas.group s2 left l) /\
  (forall l, Canvas.group s1 right l = Canvas.group s2 right l) /\
  bannerStyle s1 = bannerStyle s2 /\
  blurIntensity s1 = blurIntensity s2 /\
  logoPosition s1 = logoPosition s2 /\
  useAdaptiveTextColor s1 = useAdaptiveTextColor s2.

(** Within each visible (side, line) group the slots have pairwise
    distinct [order] values. *)
Definition visibleOrdersDistinct (els : list (string * WatermarkElement)) : Prop :=
  forall k1 k2 e1 e2,
    k1 <> k2 -> App.get k1 els = Some e1 -> App.get k2 els = Some e2 ->
    side e1 <> off -> side e1 = side e2 -> line e1 = line e2 ->
    order e1 <> order e2.

(** The settings after the slot [k] of the initial settings was given
    the text [v]. *)
Definition withText (k v : string) : WatermarkSettings :=
  match App.updateElementText k v App.initialSettings with
  | Some s => s
  | None => App.initialSettings
  end.

(** The slot [e'] is the slot [e] with possibly another text: same
    identity and same place in the banner. *)
Definition samePlace (e e' : WatermarkElement) : Prop :=
  id e' = id e /\ label e' = label e /\ side e' = side e /\
  line e' = line e /\ order e' = order e.

(** The texts [onDrop] writes into the slots, in the order of
    [slotKeys]. *)
Definition slotTexts (data : Exif.ExifData) : list string :=
  [ Exif.model data; Exif.lens data; Exif.focalLength data; Exif.fNumber data;
    (if truthy (Exif.iso data) then "ISO" +:+ Exif.iso data else EmptyString);
    Exif.exposureTime data; Exif.dateTime data;
    (match Exif.gps data with Some g => g | None => EmptyString end) ].

(** Settings without the GPS slot. *)
Definition sevenSlots : WatermarkSettings :=
  App.withElements (removelast (elements App.initialSettings)) App.initialSettings.

(** A [parseFloat] for closed examples: it reads "0" and "-73.9857". *)
Definition tableFloat (s : string) : number :=
  if String.eqb s "0" then S754_zero false
  else if String.eqb s "-73.9857" then ofRatio (-739857) 10000
  else NaN.

(** A tag map with a position on the equator, the coordinates given by
    their descriptions only. *)
Definition equatorTags : gmap string Exif.Tag :=
  <[ "GPSLatitude" := Exif.mkTag Exif.VOther "0" ]>
  (<[ "GPSLongitude" := Exif.mkTag Exif.VOther "-73.9857" ]> ∅).

(** The successive [els.k.text = v] of a list of keys and texts. *)
Fixpoint setTexts (kvs : list (string * string))
  (els : list (string * WatermarkElement))
  : option (list (string * WatermarkElement)) :=
  match kvs with
  | [] => Some els
  | (k, v) :: t =>
      match App.setText k v els with
      | Some els1 => setTexts t els1
      | None => None
      end
  end.

(** The logo files a render with automatic logo selection can ask for. *)
Definition logoFiles : list string :=
  [ "/logos/Canon.svg"; "/logos/Nikon.svg"; "/logos/Fujifilm.svg";
    "/logos/Sony.svg"; "/logos/Leica.svg"; "/logos/Hasselblad.svg";
    "/logos/Olympus.svg"; "/logos/Panasonic.svg"; "/logos/Google.svg";
    "/logos/Apple.svg"; "/logos/Default.svg" ].

(** The initial settings with another logo selection. *)
Definition withLogo (key : string) (svg : option string) : WatermarkSettings :=
  mkSettings (elements App.initialSettings) WHITE 30%Q true key svg logoLeft false.

(** The text calls among logged drawing calls: string, x and y. *)
Definition textCalls (ops : list (Canvas.Ctx * Canvas.Cmd)) : list (string * Q * Q) :=
  flat_map (fun op => match snd op with
                      | Canvas.FillText t x y => [(t, x, y)]
                      | _ => []
                      end) ops.

(** [l] with [sep] between consecutive entries. *)
Fixpoint between {A : Type} (sep : A) (l : list A) : list A :=
  match l with
  | [] => []
  | a :: rest =>
      match rest with
      | [] => [a]
      | _ => a :: sep :: between sep rest
      end
  end.

(** The number a string of decimal digits reads as, continuing from
    [cur]; [None] when a character is not a digit. *)
Fixpoint digitsVal (s : string) (cur : option Z) : option Z :=
  match s with
  | EmptyString => cur
  | String c r =>
      match Canvas.digitVal c with
      | Some d => digitsVal r (Some (match cur with Some v => 10 * v + d | None => d end))
      | None => None
      end
  end.

(** A small sampled band: two dark red pixels and one grey one. *)
Definition redBand : list Z := [200; 10; 10; 255; 128; 128; 128; 255; 201; 12; 10; 255].

(** The shadow settings of a context. *)
Definition shadowOf (cx : Canvas.Ctx) : string * Q * Q * Q :=
  (Canvas.shadowColor cx, Canvas.shadowBlur cx,
   Canvas.shadowOffsetX cx, Canvas.shadowOffsetY cx).

(** [c'] comes from [c] by calls made under the shadow settings of [c],
    which are still in force in [c']. *)
Definition keeps (c c' : Canvas.CanvasEl) : Prop :=
  shadowOf (Canvas.ctx c') = shadowOf (Canvas.ctx c) /\
  exists more, Canvas.ops c' = Canvas.ops c ++ more /\
               Forall (fun op => shadowOf (fst op) = shadowOf (Canvas.ctx c)) more.

(** The shadow under which the logo and the texts of a style are drawn. *)
Definition textShadow (st : Canvas.Style) (L : Canvas.Layout) : string * Q * Q * Q :=
  if Canvas.useShadow st then
    (if String.eqb (Canvas.textColor st) "#ffffff"
     then "rgba(0, 0, 0, 0.3)" else "rgba(255, 255, 255, 0.3)",
     (Canvas.mainFontSize L * 0.8)%Q, 0%Q, 0%Q)
  else ("transparent", 0%Q, 0%Q, 0%Q).

(** The first character of a string and what follows it (see
    [Js.chars]). *)
Definition cut (s : string) : option (string * string) :=
  match s with
  | EmptyString => None
  | String c1 r1 =>
      Some match width c1, r1 with
           | 2%nat, String c2 r2 => (String c1 (String c2 EmptyString), r2)
           | 3%nat, String c2 (String c3 r3) =>
               (String c1 (String c2 (String c3 EmptyString)), r3)
           | 4%nat, String c2 (String c3 (String c4 r4)) =>
               (String c1 (String c2 (String c3 (String c4 EmptyString))), r4)
           | _, _ => (String c1 EmptyString, r1)
           end
  end.

(** The decimal digit [d] as a character, and a number written with
    exactly two, or four, decimal digits. *)
Definition digitChar (d : Z) : ascii := ascii_of_nat (48 + Z.to_nat d).

Definition twoDigits (n : Z) : string :=
  String (digitChar (n / 10)) (String (digitChar (n mod 10)) EmptyString).

Definition fourDigits (n : Z) : string :=
  String (digitChar (n / 1000))
    (String (digitChar (n / 100 mod 10)) (twoDigits (n mod 100))).

(** A focal length with a no-break space and a thin space in it. *)
Definition spacedTags : gmap string Exif.Tag :=
  {[ "FocalLength" :=
       Exif.mkTag Exif.VOther
         ("24" +:+ utf8 [194; 160]%nat +:+ "m" +:+ utf8 [226; 128; 137]%nat +:+ " m") ]}.

(** A band sampler that finds no 2D context, and an encoder, for closed
    examples. *)
Definition noBand : Q -> Q -> option (list Z) := fun _ _ => None.
Definition jpegOf : Canvas.CanvasEl -> string := fun _ => "data:image/jpeg;base64".

End Spec.

(** * Properties *)

Import Js Types Spec.

(** ** Strings *)

Lemma append_nil (b : string) : EmptyString +:+ b = b.
Proof. reflexivity. Qed.

Lemma append_cons (x : ascii) (a b : string) :
  String x a +:+ b = String x (a +:+ b).
Proof. reflexivity. Qed.

Ltac sapp := rewrite ?append_cons, ?append_nil; simpl.

Lemma append_assoc (a b c : string) : (a +:+ b) +:+ c = a +:+ (b +:+ c).
Proof. induction a as [|x a IH]; sapp; [reflexivity | now rewrite IH]. Qed.

Lemma length_append (a b : string) :
  String.length (a +:+ b) = (String.length a + String.length b)%nat.
Proof. induction a as [|x a IH]; sapp; [reflexivity | now rewrite IH]. Qed.

Lemma substring_skip (a b : string) :
  String.substring (String.length a) (String.length b) (a +:+ b) = b.
Proof.
  induction a as [|x a IH]; sapp.
  - induction b as [|y b IHb]; simpl; [reflexivity|].
    now rewrite IHb.
  - exact IH.
Qed.

Lemma startsWith_append (p s : string) : startsWith (p +:+ s) p = true.
Proof.
  unfold startsWith. induction p as [|x p IH]; sapp.
  - now destruct s.
  - destruct (ascii_dec x x) as [_|n]; [exact IH | now destruct n].
Qed.

Lemma endsWith_append (s p : string) : endsWith (s +:+ p) p = true.
Proof.
  unfold endsWith. rewrite length_append.
  apply andb_true_intro; split.
  - apply Nat.leb_le. lia.
  - replace (String.length s + String.length p - String.length p)%nat
      with (String.length s) by lia.
    rewrite substring_skip. apply String.eqb_refl.
Qed.

Lemma truthy_append_r (a b : string) : truthy b = true -> truthy (a +:+ b) = true.
Proof. destruct a; sapp; auto. Qed.

Lemma lacks_append (c : ascii) (a b : string) :
  lacks c (a +:+ b) = lacks c a && lacks c b.
Proof.
  induction a as [|x a IH]; sapp; [reflexivity|].
  rewrite IH. now rewrite andb_assoc.
Qed.

Lemma splitSpace_lacks (s : string) : lacks " " s = true -> splitSpace s = [s].
Proof.
  induction s as [|c s IH]; simpl; [reflexivity|].
  intros H. apply andb_prop in H as [Hc Hs].
  apply negb_true_iff in Hc. rewrite Hc, (IH Hs). reflexivity.
Qed.

Lemma splitSpace_append (a b : string) :
  lacks " " a = true ->
  splitSpace (a +:+ " " +:+ b) = a :: splitSpace b.
Proof.
  change (" " +:+ b) with (String " " b).
  induction a as [|c a IH]; [reflexivity|].
  intros H. simpl in H. apply andb_prop in H as [Hc Ha].
  apply negb_true_iff in Hc.
  rewrite append_cons. simpl. rewrite Hc, (IH Ha). reflexivity.
Qed.

Lemma replaceColons_append (a b : string) :
  replaceColons (a +:+ b) = replaceColons a +:+ replaceColons b.
Proof. induction a as [|c a IH]; sapp; [reflexivity | now rewrite IH]. Qed.

Lemma replaceColons_lacks (s : string) : lacks ":" s = true -> replaceColons s = s.
Proof.
  induction s as [|c s IH]; simpl; [reflexivity|].
  intros H. apply andb_prop in H as [Hc Hs].
  apply negb_true_iff in Hc. rewrite Hc, (IH Hs). reflexivity.
Qed.

(** ** Metadata normalisation *)

Lemma extract_fields pf ns now tags e :
  Exif.extractExifData pf ns now tags = Exif.Returned e ->
  Exif.model e = orElse (Exif.desc tags "Model") "Unknown Camera" /\
  Exif.focalLength e = removeSpaces (Exif.desc tags "FocalLength") /\
  Exif.fNumber e = Exif.normFNumber (Exif.desc tags "FNumber") /\
  Exif.iso e = Exif.desc tags "ISOSpeedRatings" /\
  Exif.exposureTime e = Exif.normExposure (Exif.desc tags "ExposureTime") /\
  Exif.dateTime e = Exif.normDate now (Exif.desc tags "DateTimeOriginal") /\
  Exif.extractGps pf ns tags = Exif.Returned (Exif.lat e, Exif.lon e, Exif.gps e).
Proof.
  unfold Exif.extractExifData. cbv zeta.
  destruct (Exif.extractGps pf ns tags) as [[[la lo] g]|]; [|discriminate].
  intros [= <-]. repeat split.
Qed.

Lemma extract_returns pf ns now tags g :
  Exif.extractGps pf ns tags = Exif.Returned g ->
  exists e, Exif.extractExifData pf ns now tags = Exif.Returned e /\
            (Exif.lat e, Exif.lon e, Exif.gps e) = g.
Proof.
  intros H. unfold Exif.extractExifData. cbv zeta. rewrite H.
  destruct g as [[la lo] g]. eexists. split; reflexivity.
Qed.

Lemma extract_threw pf ns now tags :
  Exif.extractGps pf ns tags = Exif.Threw ->
  Exif.extractExifData pf ns now tags = Exif.Threw.
Proof. intros H. unfold Exif.extractExifData. cbv zeta. now rewrite H. Qed.

Lemma gps_absent pf ns tags :
  tags !! "GPSLatitude" = None \/ tags !! "GPSLongitude" = None ->
  Exif.extractGps pf ns tags = Exif.Returned (None, None, None).
Proof.
  intros H. unfold Exif.extractGps. cbv zeta.
  destruct H as [-> | ->]; [reflexivity|].
  now destruct (tags !! "GPSLatitude").
Qed.

Lemma orElse_empty (s : string) : orElse s EmptyString = s.
Proof. now destruct s. Qed.

(** C3, what the code does: for a capture date "Y:M:D T" whose date
    components hold neither a space nor a colon and whose time part [T]
    holds no space, the record that [extractExifData] returns has the
    date "Y.M.D T": the colons of the date part become dots and the
    time part is kept whole, seconds included. *)
Theorem date_keeps_time_part pf ns now (tags : gmap string Exif.Tag) t Y Mo D T e :
  tags !! "DateTimeOriginal" = Some t ->
  Exif.description t = Y +:+ ":" +:+ Mo +:+ ":" +:+ D +:+ " " +:+ T ->
  plain Y -> plain Mo -> plain D -> lacks " " T = true ->
  Exif.extractExifData pf ns now tags = Exif.Returned e ->
  Exif.dateTime e = Y +:+ "." +:+ Mo +:+ "." +:+ D +:+ " " +:+ T.
Proof.
  intros Ht Hd [HY1 HY2] [HM1 HM2] [HD1 HD2] HT He.
  destruct (extract_fields _ _ _ _ _ He) as (_ & _ & _ & _ & _ & -> & _).
  unfold Exif.desc. rewrite Ht, Hd.
  unfold Exif.normDate.
  assert (Htr : truthy (Y +:+ ":" +:+ Mo +:+ ":" +:+ D +:+ " " +:+ T) = true)
    by (apply truthy_append_r; reflexivity).
  rewrite Htr.
  replace (Y +:+ ":" +:+ Mo +:+ ":" +:+ D +:+ " " +:+ T)
    with ((Y +:+ ":" +:+ Mo +:+ ":" +:+ D) +:+ " " +:+ T)
    by (now rewrite !append_assoc).
  rewrite splitSpace_append.
  2:{ rewrite !lacks_append, HY1, HM1, HD1. reflexivity. }
  rewrite (splitSpace_lacks T HT), orElse_empty.
  rewrite !replaceColons_append.
  rewrite (replaceColons_lacks Y HY2), (replaceColons_lacks Mo HM2),
    (replaceColons_lacks D HD2).
  change (replaceColons ":") with ".".
  now rewrite !append_assoc.
Qed.

Lemma date_keeps_time_part_witness :
  exists e,
    Exif.extractExifData noFloat noString noon dateTags = Exif.Returned e /\
    Exif.dateTime e = "2024" +:+ "." +:+ "05" +:+ "." +:+ "01" +:+ " " +:+ "10:30:00".
Proof.
  eexists. split; [vm_compute; reflexivity|].
  apply (date_keeps_time_part noFloat noString noon dateTags
           (Exif.mkTag Exif.VOther "2024:05:01 10:30:00")
           "2024" "05" "01" "10:30:00");
    try (split; reflexivity); reflexivity.
Defined.

(** C3 at the specification's example: the capture date
    "2024:05:01 10:30:00" comes out as "2024.05.01 10:30:00", not as
    "2024.05.01 10:30". *)
Lemma date_seconds_not_dropped :
  exists e,
    Exif.extractExifData noFloat noString noon dateTags = Exif.Returned e /\
    Exif.dateTime e = "2024.05.01 10:30:00" /\
    Exif.dateTime e <> "2024.05.01 10:30".
Proof.
  eexists. split; [vm_compute; reflexivity|].
  split; [vm_compute; reflexivity | vm_compute; discriminate].
Qed.

(** The other branch of the same rule: without a capture date, the
    clock at that instant is written as "2024.05.01 10:30", hours and
    minutes only. *)
Lemma date_clock_branch_has_no_seconds :
  exists e,
    Exif.extractExifData noFloat noString captureClock ∅ = Exif.Returned e /\
    Exif.dateTime e = "2024.05.01 10:30".
Proof. eexists. split; vm_compute; reflexivity. Qed.

(** C10: an aperture description that already starts with "f/" and a
    shutter-time description that already ends with "s" pass through
    [extractExifData] unchanged, and normalising a normalised value
    changes nothing. *)
Theorem prefix_suffix_not_doubled pf ns now (tags : gmap string Exif.Tag) e :
  Exif.extractExifData pf ns now tags = Exif.Returned e ->
  (forall rest, Exif.desc tags "FNumber" = "f/" +:+ rest ->
                Exif.fNumber e = "f/" +:+ rest) /\
  (forall body, Exif.desc tags "ExposureTime" = body +:+ "s" ->
                Exif.exposureTime e = body +:+ "s") /\
  Exif.normFNumber (Exif.fNumber e) = Exif.fNumber e /\
  Exif.normExposure (Exif.exposureTime e) = Exif.exposureTime e.
Proof.
  intros He.
  destruct (extract_fields _ _ _ _ _ He) as (_ & _ & -> & _ & -> & _).
  repeat split.
  - intros rest ->. unfold Exif.normFNumber.
    now rewrite startsWith_append, andb_false_r.
  - intros body ->. unfold Exif.normExposure.
    now rewrite endsWith_append, andb_false_r.
  - unfold Exif.normFNumber.
    destruct (truthy (Exif.desc tags "FNumber")
              && negb (startsWith (Exif.desc tags "FNumber") "f/")) eqn:E.
    + now rewrite startsWith_append, andb_false_r.
    + now rewrite E.
  - unfold Exif.normExposure.
    destruct (truthy (Exif.desc tags "ExposureTime")
              && negb (endsWith (Exif.desc tags "ExposureTime") "s")) eqn:E.
    + now rewrite endsWith_append, andb_false_r.
    + now rewrite E.
Qed.

Lemma prefix_suffix_not_doubled_witness :
  exists e,
    Exif.extractExifData noFloat noString noon exposureTags = Exif.Returned e /\
    Exif.fNumber e = "f/1.8" /\ Exif.exposureTime e = "1/125s".
Proof.
  eexists. split; [vm_compute; reflexivity|].
  match goal with
  | |- Exif.fNumber ?e = _ /\ _ =>
      destruct (prefix_suffix_not_doubled noFloat noString noon exposureTags e)
        as (Hf & He & _); [vm_compute; reflexivity|]
  end.
  split.
  - apply (Hf "1.8"). reflexivity.
  - apply (He "1/125"). reflexivity.
Defined.

(** ** The GPS block *)

Lemma convertDMS_rationals a1 a2 a3 ar ref :
  Exif.convertDMSToDecimal (Exif.Rationals (a1 :: a2 :: a3 :: ar)) ref
  = Some (if String.eqb ref "S" || String.eqb ref "W"
          then Exif.Num NaN
          else Exif.Str (Exif.pairToString a1 +:+ "NaN" +:+ "NaN")).
Proof.
  unfold Exif.convertDMSToDecimal.
  now destruct (String.eqb ref "S" || String.eqb ref "W").
Qed.

Lemma southOrWest_eqb ref :
  southOrWest ref <-> String.eqb ref "S" || String.eqb ref "W" = true.
Proof.
  unfold southOrWest. rewrite orb_true_iff, !String.eqb_eq. reflexivity.
Qed.

Lemma not_southOrWest_eqb ref :
  ~ southOrWest ref <-> String.eqb ref "S" || String.eqb ref "W" = false.
Proof.
  rewrite southOrWest_eqb. now destruct (String.eqb ref "S" || String.eqb ref "W").
Qed.

Lemma gps_of_rationals pf ns tags latTag lonTag a1 a2 a3 ar b1 b2 b3 br :
  tags !! "GPSLatitude" = Some latTag ->
  tags !! "GPSLongitude" = Some lonTag ->
  Exif.value latTag = Exif.VArray (Exif.Rationals (a1 :: a2 :: a3 :: ar)) ->
  Exif.value lonTag = Exif.VArray (Exif.Rationals (b1 :: b2 :: b3 :: br)) ->
  Exif.extractGps pf ns tags
  = if (String.eqb (Exif.refOf tags "GPSLatitudeRef" "N") "S"
        || String.eqb (Exif.refOf tags "GPSLatitudeRef" "N") "W")
       && (String.eqb (Exif.refOf tags "GPSLongitudeRef" "E") "S"
           || String.eqb (Exif.refOf tags "GPSLongitudeRef" "E") "W")
    then Exif.Returned (Some (Exif.Num NaN), Some (Exif.Num NaN), Some "NaN, NaN")
    else Exif.Threw.
Proof.
  intros Hla Hlo Hva Hvo. unfold Exif.extractGps. cbv zeta.
  rewrite Hla, Hlo, Hva, Hvo, !convertDMS_rationals.
  destruct (String.eqb (Exif.refOf tags "GPSLatitudeRef" "N") "S"
            || String.eqb (Exif.refOf tags "GPSLatitudeRef" "N") "W");
    destruct (String.eqb (Exif.refOf tags "GPSLongitudeRef" "E") "S"
              || String.eqb (Exif.refOf tags "GPSLongitudeRef" "E") "W");
    reflexivity.
Qed.

(** C4, what the code does on the values the reader delivers.  When
    both GPS tags carry arrays of [numerator, denominator] pairs with at
    least three entries, no coordinate is computed: unless both
    hemisphere references are "S" or "W", [extractExifData] throws, and
    no record is returned at all; when both are, the record has [NaN]
    for both coordinates and the label "NaN, NaN". *)
Theorem gps_rationals_not_converted pf ns now (tags : gmap string Exif.Tag)
  latTag lonTag a1 a2 a3 ar b1 b2 b3 br :
  tags !! "GPSLatitude" = Some latTag ->
  tags !! "GPSLongitude" = Some lonTag ->
  Exif.value latTag = Exif.VArray (Exif.Rationals (a1 :: a2 :: a3 :: ar)) ->
  Exif.value lonTag = Exif.VArray (Exif.Rationals (b1 :: b2 :: b3 :: br)) ->
  let r := Exif.extractExifData pf ns now tags in
  let latRef := Exif.refOf tags "GPSLatitudeRef" "N" in
  let lonRef := Exif.refOf tags "GPSLongitudeRef" "E" in
  (~ southOrWest latRef \/ ~ southOrWest lonRef -> r = Exif.Threw) /\
  (southOrWest latRef -> southOrWest lonRef ->
   exists e, r = Exif.Returned e /\
             Exif.lat e = Some (Exif.Num NaN) /\
             Exif.lon e = Some (Exif.Num NaN) /\
             Exif.gps e = Some "NaN, NaN").
Proof.
  intros Hla Hlo Hva Hvo r latRef lonRef.
  pose proof (gps_of_rationals pf ns tags _ _ _ _ _ _ _ _ _ _ Hla Hlo Hva Hvo) as Hg.
  fold latRef lonRef in Hg. split.
  - intros H. apply extract_threw. rewrite Hg.
    destruct H as [H|H]; apply not_southOrWest_eqb in H; rewrite H;
      [reflexivity | now rewrite andb_false_r].
  - intros Ha Ho. apply southOrWest_eqb in Ha, Ho. rewrite Ha, Ho in Hg.
    destruct (extract_returns pf ns now tags _ Hg) as (e & He & Hf).
    exists e. split; [exact He|]. now injection Hf as -> -> ->.
Qed.

Lemma gps_rationals_not_converted_witness :
  Exif.extractExifData noFloat noString noon gpsTags = Exif.Threw
  /\ exists e,
       Exif.extractExifData noFloat noString noon southWestTags = Exif.Returned e /\
       Exif.gps e = Some "NaN, NaN".
Proof.
  split.
  - apply (gps_rationals_not_converted noFloat noString noon gpsTags
             (Exif.mkTag (Exif.VArray (Exif.Rationals [(40, 1); (44, 1); (5436, 100)]))
                "40.7484")
             (Exif.mkTag (Exif.VArray (Exif.Rationals [(73, 1); (59, 1); (852, 100)]))
                "73.9857")
             (40, 1) (44, 1) (5436, 100) [] (73, 1) (59, 1) (852, 100) []
             eq_refl eq_refl eq_refl eq_refl).
    left. vm_compute. intros [H|H]; discriminate H.
  - destruct (gps_rationals_not_converted noFloat noString noon southWestTags
                (Exif.mkTag (Exif.VArray (Exif.Rationals [(22, 1); (54, 1); (30, 1)]))
                   "22.9083")
                (Exif.mkTag (Exif.VArray (Exif.Rationals [(43, 1); (10, 1); (22, 1)]))
                   "43.1728")
                (22, 1) (54, 1) (30, 1) [] (43, 1) (10, 1) (22, 1) []
                eq_refl eq_refl eq_refl eq_refl) as [_ H].
    destruct H as (e & He & _ & _ & Hg).
    + vm_compute. now left.
    + vm_compute. now right.
    + exists e. split; assumption.
Defined.

(** The same position with the components as plain numbers, which is
    what [convertDMSToDecimal] declares to take: the coordinates are
    computed in binary64 and the label shows four decimals of each. *)
Example gps_plain_numbers :
  exists e,
    Exif.extractExifData noFloat noString noon plainGpsTags = Exif.Returned e /\
    Exif.gps e = Some "40.7484, -73.9857".
Proof. eexists. split; vm_compute; reflexivity. Qed.

(** [toFixed] rounds the binary64 value, not the decimal it was written
    as: 8 + 0/60 + 0.18/3600 is just below 8.00005 and shows as 8.0000,
    where the exact sum would show as 8.0001. *)
Example toFixed_rounds_the_number :
  (toFixed noString 4 <$>
   match Exif.convertDMSToDecimal
           (Exif.Numbers [ofInt 8; ofInt 0; ofRatio 18 100]) "N" with
   | Some (Exif.Num x) => Some x
   | _ => None
   end) = Some "8.0000"
  /\ fixedDigits 4 (8 + 0 / 60 + (18 # 100) / 3600) = "8.0001".
Proof. split; vm_compute; reflexivity. Qed.

(** ** The ISO slot *)




(** ** Colour sampling *)

(** What the fallback of [getDominantColors] does: when no later bucket
    is far from the dominant one, the secondary colour is black for a
    brightness strictly above 128 and white otherwise. *)
Lemma fallback_rule (d : Canvas.Bucket) (rest : list Canvas.Bucket) (data : list Z) :
  Arr.sort (fun a b => Canvas.count b - Canvas.count a)
    (map (fun e => Canvas.toBucket (snd e)) (Canvas.accumulate data [])) = d :: rest ->
  Canvas.findSecondary d rest = None ->
  Canvas.secondary (Canvas.dominantOfData data)
  = if Canvas.Qgtb (Canvas.brightnessOf d) 128 then "#000000" else "#ffffff".
Proof.
  intros Hs Hf. unfold Canvas.dominantOfData. rewrite Hs, Hf.
  now destruct (Canvas.Qgtb (Canvas.brightnessOf d) 128).
Qed.

(** C6 at the boundary: a band of uniform mid grey has the single bucket
    (128, 128, 128), whose brightness is exactly 128; the fallback of
    [getDominantColors] then yields white, where the claim says black.
    The brightness test of the adaptive banner without adaptive text
    colour picks black text on the same band. *)
Theorem fallback_at_128_is_white (y h : Q) :
  (Canvas.brightnessOf (Canvas.mkBucket 1000 128 128 128 "rgb(128, 128, 128)") == 128)%Q
  /\ Canvas.getDominantColors (fun _ _ => Some greyBand) y h
     = Canvas.mkColors "rgb(128, 128, 128)" "#ffffff"
  /\ (forall w hh L,
        Canvas.textColor
          (Canvas.styleOf (fun _ _ => Some greyBand) (adaptiveSettings true) w hh L)
        = "#ffffff"
        /\ Canvas.textColor
             (Canvas.styleOf (fun _ _ => Some greyBand) (adaptiveSettings false) w hh L)
           = "#000000").
Proof.
  split; [reflexivity|].
  assert (E : Canvas.dominantOfData greyBand
              = Canvas.mkColors "rgb(128, 128, 128)" "#ffffff")
    by (vm_compute; reflexivity).
  split.
  - unfold Canvas.getDominantColors. exact E.
  - intros w hh L.
    unfold Canvas.styleOf, Canvas.applyStyle, Canvas.getDominantColors.
    cbv beta iota zeta delta [adaptiveSettings bannerStyle useAdaptiveTextColor].
    rewrite E. split; reflexivity.
Qed.

(** ** Drawing calls *)

Lemma ext_refl (P : Prop) (c : Canvas.CanvasEl) : ext P c c.
Proof.
  repeat split; try reflexivity.
  exists []. split; [now rewrite app_nil_r | intros _ H; split; [exact H | constructor]].
Qed.

Lemma ext_trans (P : Prop) (a b c : Canvas.CanvasEl) :
  ext P a b -> ext P b c -> ext P a c.
Proof.
  intros (W1 & H1 & m1 & O1 & K1) (W2 & H2 & m2 & O2 & K2).
  split; [congruence|]. split; [congruence|].
  exists (m1 ++ m2). split.
  - rewrite O2, O1. now rewrite app_assoc.
  - intros p Ca. destruct (K1 p Ca) as [Cb F1].
    destruct (K2 p Cb) as [Cc F2]. split; [exact Cc|].
    apply Forall_app. split; assumption.
Qed.

Lemma ext_weaken (P Q : Prop) (a b : Canvas.CanvasEl) :
  (Q -> P) -> ext P a b -> ext Q a b.
Proof.
  intros PQ (W & H & m & O & K).
  split; [exact W|]. split; [exact H|].
  exists m. split; [exact O | intros q; apply K, PQ, q].
Qed.

Lemma ext_emit (P : Prop) (cmd : Canvas.Cmd) (c : Canvas.CanvasEl) :
  plainCmd cmd -> ext P c (Canvas.emit cmd c).
Proof.
  intros Hp. repeat split; try reflexivity.
  exists [(Canvas.ctx c, cmd)]. split; [reflexivity|].
  intros _ Hc. split; [exact Hc|].
  constructor; [|constructor]. split; [apply Hp|].
  unfold inverted, calm in *. simpl.
  destruct (Canvas.ctxFilter (Canvas.ctx c)); try reflexivity. now destruct Hc.
Qed.

Lemma ext_onCtx (P : Prop) (f : Canvas.Ctx -> Canvas.Ctx) (c : Canvas.CanvasEl) :
  (forall x, Canvas.ctxFilter x <> Canvas.FilterInvert ->
             Canvas.ctxFilter (f x) <> Canvas.FilterInvert) ->
  ext P c (Canvas.onCtx f c).
Proof.
  intros Hf. repeat split; try reflexivity.
  exists []. split; [simpl; now rewrite app_nil_r|].
  intros _ Hc. split; [apply Hf, Hc | constructor].
Qed.

Ltac ext_step :=
  first
    [ apply ext_emit; intros ?; reflexivity
    | apply ext_onCtx; intros ? ?; simpl; first [assumption | discriminate] ].

Ltac ext_chain :=
  first [ apply ext_refl | eapply ext_trans; [| ext_step]; ext_chain ].

Section DrawingCalls.

Variable measureText : Canvas.Font -> string -> Q.
Variable sampleBand : Q -> Q -> option (list Z).
Variable P : Prop.

Lemma ext_roundRect x y w h r c : ext P c (Canvas.roundRect x y w h r c).
Proof. unfold Canvas.roundRect. cbv zeta. ext_chain. Qed.

Lemma ext_drawSeqLoop st y gap pipeFont dir items :
  forall cursor c,
    ext P c (Canvas.drawSeqLoop measureText st y gap pipeFont dir items cursor c).
Proof.
  induction items as [|item rest IH]; intros cursor c; [apply ext_refl|].
  simpl. destruct rest as [|item' rest'].
  - ext_chain.
  - eapply ext_trans; [| apply IH]. ext_chain.
Qed.

Lemma ext_drawSeqY st L x y dir items isBold c :
  ext P c (Canvas.drawSeqY measureText st L x y dir items isBold c).
Proof. unfold Canvas.drawSeqY. apply ext_drawSeqLoop. Qed.

Lemma ext_drawLines st L centerY y1 y2 cursor dir l1 l2 c :
  ext P c (Canvas.drawLines measureText st L centerY y1 y2 cursor dir l1 l2 c).
Proof.
  unfold Canvas.drawLines. cbv zeta.
  destruct (Canvas.hasText l1), (Canvas.hasText l2);
    repeat (eapply ext_trans; [| apply ext_drawSeqY]); apply ext_refl.
Qed.

Lemma ext_seqWidthLoop f gap n texts :
  forall idx w c,
    ext P c (snd (Canvas.seqWidthLoop measureText f gap n idx texts w c)).
Proof.
  induction texts as [|t rest IH]; intros idx w c; [apply ext_refl|].
  simpl. eapply ext_trans; [| apply IH]. ext_chain.
Qed.

Lemma ext_seqWidth f gap items c :
  ext P c (snd (Canvas.seqWidth measureText f gap items c)).
Proof. unfold Canvas.seqWidth. apply ext_seqWidthLoop. Qed.

Lemma ext_drawLogoSeparator st L x y c :
  ext P c (Canvas.drawLogoSeparator st L x y c).
Proof. unfold Canvas.drawLogoSeparator. cbv zeta. ext_chain. Qed.

Lemma ext_applyStyle settings w h L c :
  ext P c (snd (Canvas.applyStyle sampleBand settings w h L c)).
Proof.
  unfold Canvas.applyStyle.
  destruct (bannerStyle settings); cbv zeta.
  - simpl. ext_chain.
  - simpl. ext_chain.
  - match goal with
    | |- context [if ?b then _ else _] => destruct b
    end; simpl; ext_chain.
  - destruct (useAdaptiveTextColor settings); [simpl; ext_chain|].
    match goal with
    | |- context [if ?b then _ else _] => destruct b
    end; simpl; ext_chain.
Qed.

Lemma applyStyle_style settings w h L c :
  fst (Canvas.applyStyle sampleBand settings w h L c)
  = Canvas.styleOf sampleBand settings w h L.
Proof.
  unfold Canvas.styleOf, Canvas.applyStyle.
  destruct (bannerStyle settings); cbv zeta; try reflexivity.
  - match goal with
    | |- context [if ?b then _ else _] => destruct b
    end; reflexivity.
  - destruct (useAdaptiveTextColor settings); [reflexivity|].
    match goal with
    | |- context [if ?b then _ else _] => destruct b
    end; reflexivity.
Qed.

End DrawingCalls.

Lemma boxDrawn_after (P : Prop) colour y w h (a b c : Canvas.CanvasEl) :
  boxDrawn colour y w h a b -> ext P b c -> boxDrawn colour y w h a c.
Proof.
  intros (bf & cx & x & r & af & O & F & I) (_ & _ & m & O' & _).
  exists bf, cx, x, r, (af ++ m). split; [|split; assumption].
  rewrite O', O. rewrite <- !app_assoc. reflexivity.
Qed.

Lemma boxDrawn_before (P : Prop) colour y w h (a b c : Canvas.CanvasEl) :
  ext P a b -> boxDrawn colour y w h b c -> boxDrawn colour y w h a c.
Proof.
  intros (_ & _ & m & O' & _) (bf & cx & x & r & af & O & F & I).
  exists (m ++ bf), cx, x, r, af. split; [|split; assumption].
  rewrite O, O'. rewrite <- !app_assoc. reflexivity.
Qed.

Section LogoDrawing.

Variable measureText : Canvas.Font -> string -> Q.
Variable sampleBand : Q -> Q -> option (list Z).

Lemma logo_value logoFailed st L centerY x dir c :
  fst (Canvas.drawLogoSequence logoFailed st L centerY x dir c) = Canvas.logoW L.
Proof. unfold Canvas.drawLogoSequence. now destruct logoFailed. Qed.

Lemma ext_drawLogo logoFailed st L centerY x dir c :
  ext (logoFailed = true) c
    (snd (Canvas.drawLogoSequence logoFailed st L centerY x dir c)).
Proof.
  unfold Canvas.drawLogoSequence. destruct logoFailed; cbv zeta.
  - cbn [snd]. eapply ext_trans; [| ext_step].
    eapply ext_trans; [| apply ext_roundRect]. ext_chain.
  - cbn [snd]. repeat split; try reflexivity.
    + destruct (_ && _); reflexivity.
    + destruct (_ && _); reflexivity.
    + destruct (_ && _); (eexists; split; [simpl; reflexivity | intros H; discriminate H]).
Qed.

Lemma placeholder_drawn st L centerY x dir c :
  calm c ->
  boxDrawn (Canvas.textColor st)
    (centerY - Canvas.logoRealH L / 2)%Q (Canvas.logoW L) (Canvas.logoRealH L)
    c (snd (Canvas.drawLogoSequence true st L centerY x dir c)).
Proof.
  intros Hc. unfold Canvas.drawLogoSequence, Canvas.roundRect. cbv zeta.
  cbn [snd].
  exists [], (Canvas.setFillStyle (Canvas.textColor st) (Canvas.ctx c)).
  eexists. eexists. exists [].
  split; [|split; [reflexivity | exact Hc]].
  simpl. rewrite <- !app_assoc. simpl. reflexivity.
Qed.

Lemma ext_drawLeft settings logoFailed st L centerY y1 y2 c :
  ext (logoFailed = true) c
    (Canvas.drawLeft measureText settings logoFailed st L centerY y1 y2 c).
Proof.
  unfold Canvas.drawLeft. cbv zeta.
  destruct (logoPosition settings).
  - pose proof (ext_drawLogo logoFailed st L centerY (Canvas.padding L) Canvas.ltr c) as E.
    destruct (Canvas.drawLogoSequence logoFailed st L centerY (Canvas.padding L) Canvas.ltr c)
      as [lw c1]. cbn [snd] in E.
    destruct (_ || _).
    + eapply ext_trans; [| apply ext_drawLines].
      eapply ext_trans; [exact E | apply ext_drawLogoSeparator].
    + eapply ext_trans; [exact E | apply ext_drawLines].
  - apply ext_drawLines.
Qed.

Lemma placeholder_left settings st L centerY y1 y2 c :
  logoPosition settings = logoLeft -> calm c ->
  boxDrawn (Canvas.textColor st)
    (centerY - Canvas.logoRealH L / 2)%Q (Canvas.logoW L) (Canvas.logoRealH L)
    c (Canvas.drawLeft measureText settings true st L centerY y1 y2 c).
Proof.
  intros Hp Hc. unfold Canvas.drawLeft. cbv zeta. rewrite Hp.
  pose proof (placeholder_drawn st L centerY (Canvas.padding L) Canvas.ltr c Hc) as B.
  destruct (Canvas.drawLogoSequence true st L centerY (Canvas.padding L) Canvas.ltr c)
    as [lw c1]. cbn [snd] in B.
  destruct (_ || _).
  - eapply (boxDrawn_after True); [| apply ext_drawLines].
    eapply (boxDrawn_after True); [exact B | apply ext_drawLogoSeparator].
  - eapply (boxDrawn_after True); [exact B | apply ext_drawLines].
Qed.

End LogoDrawing.

Section RightSide.

Variable measureText : Canvas.Font -> string -> Q.
Variable sampleBand : Q -> Q -> option (list Z).

(** The right-hand side up to the point where the logo is drawn: the
    canvas reached and the cursor handed to [drawLogoSequence]. *)
Lemma drawRight_logoRight settings logoFailed st L w centerY y1 y2 c :
  logoPosition settings = logoRight ->
  exists c1 cursor,
    ext True c c1 /\
    Canvas.drawRight measureText settings logoFailed st L w centerY y1 y2 c
    = snd (Canvas.drawLogoSequence logoFailed st L centerY cursor Canvas.rtl c1).
Proof.
  intros Hp. unfold Canvas.drawRight. cbv zeta. rewrite Hp.
  set (r1 := Canvas.group settings right Line1).
  set (r2 := Canvas.group settings right Line2).
  set (gap := (measureText (Canvas.font (Canvas.ctx c)) Canvas.SEPARATOR_CHAR * 2.5)%Q).
  assert (E1 : exists m1 c1, ext True c c1 /\
            (if Canvas.hasText r1
             then let '(tw, c0) :=
                    Canvas.seqWidth measureText
                      (Canvas.Inter true (Canvas.mainFontSize L)) gap r1 c in
                  (if Canvas.Qgtb tw 0 then tw else 0%Q, c0)
             else (0%Q, c)) = (m1, c1)).
  { destruct (Canvas.hasText r1).
    - pose proof (ext_seqWidth measureText True
                    (Canvas.Inter true (Canvas.mainFontSize L)) gap r1 c) as E.
      destruct (Canvas.seqWidth measureText _ gap r1 c) as [tw c0].
      eexists. eexists. split; [exact E | reflexivity].
    - eexists. eexists. split; [apply ext_refl | reflexivity]. }
  destruct E1 as (m1 & c1 & X1 & ->).
  assert (E2 : exists m2 c2, ext True c1 c2 /\
            (if Canvas.hasText r2
             then let '(tw, c0) :=
                    Canvas.seqWidth measureText
                      (Canvas.Inter false (Canvas.subFontSize L)) gap r2 c1 in
                  (if Canvas.Qgtb tw m1 then tw else m1, c0)
             else (m1, c1)) = (m2, c2)).
  { destruct (Canvas.hasText r2).
    - pose proof (ext_seqWidth measureText True
                    (Canvas.Inter false (Canvas.subFontSize L)) gap r2 c1) as E.
      destruct (Canvas.seqWidth measureText _ gap r2 c1) as [tw c0].
      eexists. eexists. split; [exact E | reflexivity].
    - eexists. eexists. split; [apply ext_refl | reflexivity]. }
  destruct E2 as (m2 & c2 & X2 & ->).
  pose proof (ext_drawLines measureText True st L centerY y1 y2
                (w - Canvas.padding L)%Q Canvas.rtl r1 r2 c2) as X3.
  set (c3 := Canvas.drawLines measureText st L centerY y1 y2
               (w - Canvas.padding L)%Q Canvas.rtl r1 r2 c2) in *.
  destruct (Canvas.hasText r1 || Canvas.hasText r2).
  - eexists. eexists. split; [|reflexivity].
    eapply ext_trans; [exact X1|]. eapply ext_trans; [exact X2|].
    eapply ext_trans; [exact X3|]. ext_chain.
  - eexists. eexists. split; [|reflexivity].
    eapply ext_trans; [exact X1|]. eapply ext_trans; [exact X2|]. exact X3.
Qed.

Lemma ext_drawRight settings logoFailed st L w centerY y1 y2 c :
  ext (logoFailed = true) c
    (Canvas.drawRight measureText settings logoFailed st L w centerY y1 y2 c).
Proof.
  destruct (logoPosition settings) eqn:Hp.
  - unfold Canvas.drawRight. cbv zeta. rewrite Hp. apply ext_drawLines.
  - destruct (drawRight_logoRight settings logoFailed st L w centerY y1 y2 c Hp)
      as (c1 & cursor & E & ->).
    eapply ext_trans; [| apply ext_drawLogo].
    eapply ext_weaken; [|exact E]. exact (fun _ => I).
Qed.

Lemma placeholder_right settings st L w centerY y1 y2 c :
  logoPosition settings = logoRight -> calm c ->
  boxDrawn (Canvas.textColor st)
    (centerY - Canvas.logoRealH L / 2)%Q (Canvas.logoW L) (Canvas.logoRealH L)
    c (Canvas.drawRight measureText settings true st L w centerY y1 y2 c).
Proof.
  intros Hp Hc.
  destruct (drawRight_logoRight settings true st L w centerY y1 y2 c Hp)
    as (c1 & cursor & E & ->).
  eapply (boxDrawn_before True); [exact E|].
  apply placeholder_drawn.
  destruct E as (_ & _ & m & _ & K). now apply K.
Qed.

End RightSide.

Section RenderShape.

Variable measureText : Canvas.Font -> string -> Q.
Variable sampleBand : Q -> Q -> option (list Z).
Variable toDataURL : Canvas.CanvasEl -> string.

Lemma processRender_shape settings w h natW natH logoFailed canvas :
  let L := fst (Canvas.fitPass measureText (Canvas.ctx canvas) settings w
                  (Canvas.initialLayout w h logoFailed natW natH)) in
  let st := Canvas.styleOf sampleBand settings (inject_Z w) (inject_Z h) L in
  let out := Canvas.processRender measureText sampleBand settings w h natW natH
               logoFailed canvas in
  ext (logoFailed = true) (redrawn w h L canvas) out /\
  (logoFailed = true ->
   boxDrawn (Canvas.textColor st)
     (inject_Z h + Canvas.bannerH L / 2 - Canvas.logoRealH L / 2)%Q
     (Canvas.logoW L) (Canvas.logoRealH L) (redrawn w h L canvas) out).
Proof.
  intros L st out. subst out. unfold Canvas.processRender. cbv zeta. fold L.
  set (c0 := redrawn w h L canvas).
  change (Canvas.emit (Canvas.DrawImage3 Canvas.SrcImg 0 0)
            (Canvas.setHeight (inject_Z h + Canvas.bannerH L)
               (Canvas.setWidth (inject_Z w) canvas))) with c0.
  set (c1 := Canvas.onCtx (Canvas.setShadowColor "transparent")
               (Canvas.onCtx (Canvas.setShadowBlur 0) c0)).
  assert (E1 : forall Q, ext Q c0 c1) by (intros Q; subst c1; ext_chain).
  pose proof (applyStyle_style sampleBand settings (inject_Z w) (inject_Z h) L c1) as Hst.
  fold st in Hst.
  assert (E2 : forall Q, ext Q c1
                 (snd (Canvas.applyStyle sampleBand settings (inject_Z w) (inject_Z h) L c1)))
    by (intros Q; apply ext_applyStyle).
  destruct (Canvas.applyStyle sampleBand settings (inject_Z w) (inject_Z h) L c1)
    as [st' c2]. cbn [fst snd] in Hst, E2. subst st'.
  set (c3 := if negb (style_eqb (bannerStyle settings) BLUR)
             then Canvas.emit (Canvas.FillRect 0 (inject_Z h) (inject_Z w)
                                 (Canvas.bannerH L)) c2
             else c2).
  assert (E3 : forall Q, ext Q c2 c3).
  { intros Q. subst c3. destruct (negb _); ext_chain. }
  set (c4 := Canvas.onCtx (Canvas.enableShadow st L)
               (Canvas.onCtx (Canvas.setTextBaseline "middle") c3)).
  assert (E4 : forall Q, ext Q c3 c4).
  { intros Q. subst c4. eapply ext_trans.
    2:{ apply ext_onCtx. intros x Hx. unfold Canvas.enableShadow.
        destruct (Canvas.useShadow st); simpl; exact Hx. }
    ext_chain. }
  assert (E04 : forall Q, ext Q c0 c4).
  { intros Q. eapply ext_trans; [apply E1|]. eapply ext_trans; [apply E2|].
    eapply ext_trans; [apply E3 | apply E4]. }
  assert (C4 : calm c4).
  { destruct (E04 True) as (_ & _ & m & _ & K).
    apply K; [exact I | discriminate]. }
  split.
  - eapply ext_trans; [apply E04|].
    eapply ext_trans; [apply ext_drawLeft | apply ext_drawRight].
  - intros ->. eapply (boxDrawn_before True); [apply E04|].
    destruct (logoPosition settings) eqn:Hp.
    + eapply (boxDrawn_after (true = true)); [| apply ext_drawRight].
      apply placeholder_left; assumption.
    + eapply (boxDrawn_before (true = true)); [apply ext_drawLeft|].
      apply placeholder_right; [assumption|].
      pose proof (ext_drawLeft measureText settings true st L
                    (inject_Z h + Canvas.bannerH L / 2)%Q
                    (inject_Z h + Canvas.bannerH L / 2 -
                     (Canvas.mainFontSize L + Canvas.bannerH L * 0.08 +
                      Canvas.subFontSize L) / 2 + Canvas.mainFontSize L / 2)%Q
                    (inject_Z h + Canvas.bannerH L / 2 -
                     (Canvas.mainFontSize L + Canvas.bannerH L * 0.08 +
                      Canvas.subFontSize L) / 2 + Canvas.mainFontSize L +
                     Canvas.bannerH L * 0.08 + Canvas.subFontSize L / 2)%Q
                    c4) as (_ & _ & m & _ & K).
      now apply K.
Qed.

End RenderShape.

(** ** Sizing and the overflow correction *)

Lemma Qgtb_lt (a b : Q) : Canvas.Qgtb a b = true <-> (b < a)%Q.
Proof.
  unfold Canvas.Qgtb. rewrite negb_true_iff. split.
  - intros H. apply Qnot_le_lt. intros Hle.
    apply Qle_bool_iff in Hle. congruence.
  - intros H. destruct (Qle_bool a b) eqn:E; [|reflexivity].
    apply Qle_bool_iff in E. exfalso. apply (Qlt_not_le _ _ H E).
Qed.

Lemma Qgtb_le (a b : Q) : Canvas.Qgtb a b = false <-> (a <= b)%Q.
Proof.
  unfold Canvas.Qgtb. rewrite negb_false_iff. apply Qle_bool_iff.
Qed.

Lemma finalLayout_fit mt settings w h logoFailed natW natH :
  Canvas.finalLayout mt settings w h logoFailed natW natH
  = Canvas.fit w
      (fst (Canvas.measure mt Canvas.defaultCtx settings
              (Canvas.initialLayout w h logoFailed natW natH)))
      (Canvas.initialLayout w h logoFailed natW natH).
Proof.
  unfold Canvas.finalLayout, Canvas.fitPass.
  destruct (Canvas.measure mt Canvas.defaultCtx settings
              (Canvas.initialLayout w h logoFailed natW natH)) as [total c].
  reflexivity.
Qed.

Lemma safeScale_bounds (w total : Q) :
  (0 <= w)%Q -> (w < total)%Q ->
  (0.6 <= Qmax 0.6 (w / total) /\ Qmax 0.6 (w / total) < 1)%Q.
Proof.
  intros Hw Ht. split; [apply Q.le_max_l|].
  apply Q.max_lub_lt; [reflexivity|].
  assert (Hpos : (0 < total)%Q) by (eapply Qle_lt_trans; eassumption).
  apply Qlt_shift_div_r; [exact Hpos|]. now rewrite Qmult_1_l.
Qed.

Lemma fit_overflow (w : Z) (total : Q) (L : Canvas.Layout) :
  (inject_Z w < total)%Q ->
  Canvas.fit w total L = scaleLayout (Qmax 0.6 (inject_Z w / total)) L.
Proof. intros H. unfold Canvas.fit. apply Qgtb_lt in H. now rewrite H. Qed.

(** C1: when the measured total content width is larger than the image
    width, every size the drawing phase uses (banner height, both font
    sizes, padding, logo height and width) is its pre-calculated value
    times one common factor [max(0.6, w / total)], which lies in
    [0.6, 1) for an image of non-negative width; when the content fits,
    the sizes are the pre-calculated ones. *)
Theorem overflow_scales_uniformly mt settings w h logoFailed natW natH :
  let L0 := Canvas.initialLayout w h logoFailed natW natH in
  let total := fst (Canvas.measure mt Canvas.defaultCtx settings L0) in
  let L := Canvas.finalLayout mt settings w h logoFailed natW natH in
  let s := Qmax 0.6 (inject_Z w / total) in
  ((inject_Z w < total)%Q ->
     L = scaleLayout s L0 /\ (0.6 <= s)%Q /\ ((0 <= w)%Z -> (s < 1)%Q)) /\
  ((total <= inject_Z w)%Q -> L = L0).
Proof.
  intros L0 total L s. subst L. rewrite finalLayout_fit.
  fold L0. fold total. unfold Canvas.fit. split.
  - intros Hlt. apply Qgtb_lt in Hlt as Hb. rewrite Hb.
    split; [reflexivity|]. split; [apply Q.le_max_l|].
    intros Hw. apply safeScale_bounds; [|exact Hlt].
    change 0%Q with (inject_Z 0). rewrite <- Zle_Qle. exact Hw.
  - intros Hle. apply Qgtb_le in Hle. now rewrite Hle.
Qed.

Lemma overflow_scales_uniformly_witness :
  Canvas.finalLayout monoText crowded 1000 1000 true 0 0
  = scaleLayout (Qmax 0.6 (inject_Z 1000 /
                  fst (Canvas.measure monoText Canvas.defaultCtx crowded
                         (Canvas.initialLayout 1000 1000 true 0 0))))
      (Canvas.initialLayout 1000 1000 true 0 0)
  /\ Canvas.finalLayout monoText roomy 1000 1000 true 0 0
     = Canvas.initialLayout 1000 1000 true 0 0.
Proof.
  split.
  - apply (overflow_scales_uniformly monoText crowded 1000 1000 true 0 0).
    vm_compute. reflexivity.
  - apply (overflow_scales_uniformly monoText roomy 1000 1000 true 0 0).
    vm_compute. discriminate.
Defined.

(** The corrected banner is never taller than the pre-calculated one and
    never lower than 60% of it. *)
Theorem banner_height_bounds mt settings w h logoFailed natW natH :
  (0 <= w)%Z -> (0 <= h)%Z ->
  let L0 := Canvas.initialLayout w h logoFailed natW natH in
  let L := Canvas.finalLayout mt settings w h logoFailed natW natH in
  (0.6 * Canvas.bannerH L0 <= Canvas.bannerH L /\
   Canvas.bannerH L <= Canvas.bannerH L0)%Q.
Proof.
  intros Hw Hh L0 L.
  assert (Hb : (0 <= Canvas.bannerH L0)%Q).
  { subst L0. unfold Canvas.initialLayout.
    destruct (Canvas.logoDims _ _ _ _ _) as [a b]. cbn [Canvas.bannerH].
    apply Qmult_le_0_compat; [|discriminate].
    apply Q.min_glb; change 0%Q with (inject_Z 0); rewrite <- Zle_Qle; assumption. }
  subst L. rewrite finalLayout_fit. fold L0.
  set (total := fst (Canvas.measure mt Canvas.defaultCtx settings L0)).
  destruct (Qlt_le_dec (inject_Z w) total) as [Hlt|Hle].
  - rewrite (fit_overflow w total L0 Hlt). cbn [scaleLayout Canvas.bannerH].
    assert (Hwq : (0 <= inject_Z w)%Q)
      by (change 0%Q with (inject_Z 0); rewrite <- Zle_Qle; exact Hw).
    destruct (safeScale_bounds (inject_Z w) total Hwq Hlt) as [Hlo Hhi].
    set (s := Qmax 0.6 (inject_Z w / total)) in *.
    split; nra.
  - unfold Canvas.fit. apply Qgtb_le in Hle. rewrite Hle. split; lra.
Qed.

Lemma banner_height_bounds_witness :
  (0.6 * Canvas.bannerH (Canvas.initialLayout 1000 1000 true 0 0)
   <= Canvas.bannerH (Canvas.finalLayout monoText crowded 1000 1000 true 0 0)
   /\ Canvas.bannerH (Canvas.finalLayout monoText crowded 1000 1000 true 0 0)
      <= Canvas.bannerH (Canvas.initialLayout 1000 1000 true 0 0))%Q.
Proof.
  apply (banner_height_bounds monoText crowded 1000 1000 true 0 0); lia.
Defined.

Section Rescaling.

Variable mt : Canvas.Font -> string -> Q.
Hypothesis linear : linearText mt.
Variable k : Q.
Hypothesis kpos : (0 < k)%Q.

Lemma Qmax_scale (a b a' b' : Q) :
  (a' == k * a)%Q -> (b' == k * b)%Q -> (Qmax a' b' == k * Qmax a b)%Q.
Proof.
  intros Ha Hb. rewrite Ha, Hb.
  destruct (Q.max_spec a b) as [[Hlt E]|[Hle E]]; rewrite E.
  - apply Q.max_r. nra.
  - apply Q.max_l. nra.
Qed.

Lemma Qgtb_scale (a a' : Q) :
  (a' == k * a)%Q -> Canvas.Qgtb a' 0 = Canvas.Qgtb a 0.
Proof.
  intros Ha. destruct (Canvas.Qgtb a 0) eqn:E.
  - apply Qgtb_lt. apply Qgtb_lt in E. rewrite Ha. nra.
  - apply Qgtb_le. apply Qgtb_le in E. rewrite Ha. nra.
Qed.

Lemma sumWidths_scale b sz (gap gap' : Q) n items :
  (gap' == k * gap)%Q ->
  forall idx acc acc', (acc' == k * acc)%Q ->
    (Canvas.sumWidths mt (Canvas.Inter b (sz * k)) gap' n idx items acc'
     == k * Canvas.sumWidths mt (Canvas.Inter b sz) gap n idx items acc)%Q.
Proof.
  intros Hg. induction items as [|item rest IH]; intros idx acc acc' Ha.
  - exact Ha.
  - simpl. apply IH. destruct (idx <? n - 1)%nat.
    + rewrite Ha, Hg, (linear b sz k _ kpos). ring.
    + rewrite Ha, (linear b sz k _ kpos). ring.
Qed.

(** A line measured at a font size scaled by [k] is [k] times as wide;
    either the line is there and leaves the two contexts with the same
    face at scaled sizes, or it is absent, measures 0 and leaves the
    contexts alone. *)
Lemma measureLine_scale c c' items sz b :
  let r := Canvas.measureLine mt c items sz b in
  let r' := Canvas.measureLine mt c' items (sz * k) b in
  (fst r' == k * fst r)%Q /\
  (fontScaled k (snd r) (snd r') \/
   (fst r = 0%Q /\ fst r' = 0%Q /\ snd r = c /\ snd r' = c')).
Proof.
  unfold Canvas.measureLine. destruct items as [|i rest]; cbv zeta.
  - split; [simpl; ring|]. right. repeat split; reflexivity.
  - cbn [fst snd]. split.
    + cbn [Canvas.font Canvas.setFont].
      apply sumWidths_scale; [|ring].
      rewrite (linear b sz k _ kpos). ring.
    + left. exists b, sz. split; reflexivity.
Qed.

(** Measuring a layout whose sizes are all scaled by [k] gives [k] times
    the total width. *)
Lemma measure_scale settings L c c' :
  (fst (Canvas.measure mt c' settings (scaleLayout k L))
   == k * fst (Canvas.measure mt c settings L))%Q.
Proof.
  unfold Canvas.measure.
  cbn [scaleLayout Canvas.mainFontSize Canvas.subFontSize Canvas.logoW
       Canvas.bannerH Canvas.padding].
  pose proof (measureLine_scale c c' (Canvas.group settings left Line1)
                (Canvas.mainFontSize L) true) as [W1 F1].
  destruct (Canvas.measureLine mt c (Canvas.group settings left Line1)
              (Canvas.mainFontSize L) true) as [w1 c1].
  destruct (Canvas.measureLine mt c' (Canvas.group settings left Line1)
              (Canvas.mainFontSize L * k) true) as [w1' c1'].
  pose proof (measureLine_scale c1 c1' (Canvas.group settings left Line2)
                (Canvas.subFontSize L) false) as [W2 F2].
  destruct (Canvas.measureLine mt c1 (Canvas.group settings left Line2)
              (Canvas.subFontSize L) false) as [w2 c2].
  destruct (Canvas.measureLine mt c1' (Canvas.group settings left Line2)
              (Canvas.subFontSize L * k) false) as [w2' c2'].
  pose proof (measureLine_scale c2 c2' (Canvas.group settings right Line1)
                (Canvas.mainFontSize L) true) as [W3 F3].
  destruct (Canvas.measureLine mt c2 (Canvas.group settings right Line1)
              (Canvas.mainFontSize L) true) as [w3 c3].
  destruct (Canvas.measureLine mt c2' (Canvas.group settings right Line1)
              (Canvas.mainFontSize L * k) true) as [w3' c3'].
  pose proof (measureLine_scale c3 c3' (Canvas.group settings right Line2)
                (Canvas.subFontSize L) false) as [W4 F4].
  destruct (Canvas.measureLine mt c3 (Canvas.group settings right Line2)
              (Canvas.subFontSize L) false) as [w4 c4].
  destruct (Canvas.measureLine mt c3' (Canvas.group settings right Line2)
              (Canvas.subFontSize L * k) false) as [w4' c4'].
  cbn [fst snd] in *.
  pose proof (Qmax_scale w1 w2 w1' w2' W1 W2) as ML.
  pose proof (Qmax_scale w3 w4 w3' w4' W3 W4) as MR.
  pose proof (Qgtb_scale _ _ ML) as GL.
  pose proof (Qgtb_scale _ _ MR) as GR.
  assert (Sep : fontScaled k c4 c4' \/
                (w1 = 0 /\ w2 = 0 /\ w3 = 0 /\ w4 = 0)%Q).
  { destruct F4 as [F4|(Z4 & _ & -> & ->)]; [now left|].
    destruct F3 as [F3|(Z3 & _ & -> & ->)]; [now left|].
    destruct F2 as [F2|(Z2 & _ & -> & ->)]; [now left|].
    destruct F1 as [F1|(Z1 & _ & -> & ->)]; [now left|].
    right. repeat split; assumption. }
  destruct Sep as [(b0 & sz & Fc & Fc')|(-> & -> & -> & ->)].
  - rewrite Fc, Fc'.
    pose proof (linear b0 sz k Canvas.SEPARATOR_CHAR kpos) as Hs.
    destruct (logoPosition settings); cbn [fst].
    + rewrite GL. destruct (Canvas.Qgtb (Qmax w1 w2) 0);
        rewrite ML, MR, ?Hs; ring.
    + rewrite GR. destruct (Canvas.Qgtb (Qmax w3 w4) 0);
        rewrite ML, MR, ?Hs; ring.
  - change (Canvas.Qgtb (Qmax 0 0) 0) with false in *.
    rewrite GL, GR.
    destruct (logoPosition settings); cbn [fst]; rewrite ML, MR; ring.
Qed.

End Rescaling.

(** C5: the correction needs no second pass.  If text widths grow
    linearly with the font size and the first pass scaled the sizes by
    [w / total] without hitting the 0.6 floor, then measuring again with
    the corrected sizes gives a total of exactly the image width, and a
    second correction leaves the sizes as they are. *)
Theorem second_pass_changes_nothing mt settings w L c c' :
  linearText mt ->
  let total := fst (Canvas.measure mt c settings L) in
  let L1 := Canvas.fit w total L in
  (inject_Z w < total)%Q ->
  (0.6 <= inject_Z w / total)%Q ->
  (fst (Canvas.measure mt c' settings L1) == inject_Z w)%Q /\
  fst (Canvas.fitPass mt c' settings w L1) = L1.
Proof.
  intros Hlin total L1 Hover Hfloor.
  assert (Hne : ~ (total == 0)%Q).
  { intros Hz. rewrite Hz in Hfloor. unfold Qdiv in Hfloor.
    change (/ 0)%Q with 0%Q in Hfloor. rewrite Qmult_0_r in Hfloor.
    revert Hfloor. apply Qlt_not_le. reflexivity. }
  set (s := Qmax 0.6 (inject_Z w / total)).
  assert (Hs : (s == inject_Z w / total)%Q) by (apply Q.max_r; exact Hfloor).
  assert (Hpos : (0 < s)%Q).
  { eapply Qlt_le_trans; [|apply Q.le_max_l]. reflexivity. }
  assert (E : (fst (Canvas.measure mt c' settings L1) == inject_Z w)%Q).
  { subst L1. rewrite (fit_overflow w total L Hover). fold s.
    rewrite (measure_scale mt Hlin s Hpos settings L c c'). fold total.
    rewrite Hs. field. exact Hne. }
  split; [exact E|].
  unfold Canvas.fitPass.
  destruct (Canvas.measure mt c' settings L1) as [total' c2]. cbn [fst] in *.
  unfold Canvas.fit.
  assert (Hb : Canvas.Qgtb total' (inject_Z w) = false)
    by (apply Qgtb_le; rewrite E; apply Qle_refl).
  now rewrite Hb.
Qed.

Lemma monoText_linear : linearText monoText.
Proof. intros b f k s _. simpl. ring. Qed.

Lemma second_pass_changes_nothing_witness :
  let L1 := Canvas.finalLayout monoText snug 1000 1000 true 0 0 in
  (fst (Canvas.measure monoText Canvas.defaultCtx snug L1) == 1000)%Q /\
  fst (Canvas.fitPass monoText Canvas.defaultCtx snug 1000 L1) = L1.
Proof.
  cbv zeta. rewrite finalLayout_fit.
  apply (second_pass_changes_nothing monoText snug 1000
           (Canvas.initialLayout 1000 1000 true 0 0)
           Canvas.defaultCtx Canvas.defaultCtx monoText_linear).
  - vm_compute. reflexivity.
  - vm_compute. discriminate.
Defined.

(** ** The rendered canvas *)

Lemma floor_unique (x : Q) (n : Z) :
  (inject_Z n <= x)%Q -> (x < inject_Z (n + 1))%Q -> Qfloor x = n.
Proof.
  intros Hlo Hhi. apply Z.le_antisymm.
  - apply Z.lt_succ_r. rewrite Zlt_Qlt.
    eapply Qle_lt_trans; [apply Qfloor_le | exact Hhi].
  - rewrite <- (Qfloor_Z n). now apply Qfloor_resp_le.
Qed.

Lemma floor_shift (z : Z) (q : Q) : Qfloor (inject_Z z + q) = z + Qfloor q.
Proof.
  apply floor_unique.
  - rewrite inject_Z_plus. apply Qplus_le_r, Qfloor_le.
  - replace (z + Qfloor q + 1) with (z + (Qfloor q + 1)) by lia.
    rewrite inject_Z_plus. apply Qplus_lt_r, Qlt_floor.
Qed.

(** A value of at least zero whose whole part fits is stored as its
    whole part. *)
Lemma toDimension_small (d : Z) (x : Q) :
  (0 <= x)%Q -> Qfloor x <= 2147483647 -> Canvas.toDimension d x = Qfloor x.
Proof.
  intros Hx Hf. unfold Canvas.toDimension.
  assert (Hn : 0 <= Qnum x).
  { destruct x as [n dd]. unfold Qle in Hx. cbn [Qnum Qden] in *. lia. }
  assert (Hq : Z.quot (Qnum x) (Zpos (Qden x)) = Qfloor x).
  { destruct x as [n dd]. cbn [Qnum Qden Qfloor] in *. apply Z.quot_div_nonneg; lia. }
  rewrite Hq.
  assert (H0 : 0 <= Qfloor x).
  { rewrite <- (Qfloor_Z 0). now apply Qfloor_resp_le. }
  cbv zeta. rewrite Z.mod_small by lia.
  apply Z.leb_le in Hf. now rewrite Hf.
Qed.

Lemma finalBanner_range mt settings w h logoFailed natW natH :
  (0 <= w)%Z -> (0 <= h)%Z ->
  let L := Canvas.finalLayout mt settings w h logoFailed natW natH in
  (0 <= Canvas.bannerH L /\ Canvas.bannerH L <= inject_Z h * 0.12)%Q.
Proof.
  intros Hw Hh L.
  set (L0 := Canvas.initialLayout w h logoFailed natW natH).
  assert (Hwq : (0 <= inject_Z w)%Q)
    by (change 0%Q with (inject_Z 0); rewrite <- Zle_Qle; exact Hw).
  assert (Hhq : (0 <= inject_Z h)%Q)
    by (change 0%Q with (inject_Z 0); rewrite <- Zle_Qle; exact Hh).
  assert (Hb : (0 <= Canvas.bannerH L0 /\ Canvas.bannerH L0 <= inject_Z h * 0.12)%Q).
  { subst L0. unfold Canvas.initialLayout.
    destruct (Canvas.logoDims _ _ _ _ _) as [a b]. cbn [Canvas.bannerH].
    unfold Canvas.BANNER_HEIGHT_PERCENTAGE.
    pose proof (Q.le_min_r (inject_Z w) (inject_Z h)) as Hm.
    assert (H0 : (0 <= Qmin (inject_Z w) (inject_Z h))%Q)
      by (apply Q.min_glb; assumption).
    split; nra. }
  subst L. rewrite finalLayout_fit. fold L0.
  set (total := fst (Canvas.measure mt Canvas.defaultCtx settings L0)).
  destruct (Qlt_le_dec (inject_Z w) total) as [Hlt|Hle].
  - rewrite (fit_overflow w total L0 Hlt). cbn [scaleLayout Canvas.bannerH].
    destruct (safeScale_bounds (inject_Z w) total Hwq Hlt) as [Hlo Hhi].
    set (k := Qmax 0.6 (inject_Z w / total)) in *.
    split; nra.
  - unfold Canvas.fit. apply Qgtb_le in Hle. rewrite Hle. exact Hb.
Qed.

Section Rendered.

Variable mt : Canvas.Font -> string -> Q.
Variable sb : Q -> Q -> option (list Z).
Variable tdu : Canvas.CanvasEl -> string.

Lemma generateWatermark_loaded settings w h logoLoad :
  let '(natW, natH, failed) := logoArgs logoLoad in
  Canvas.generateWatermark mt sb tdu settings (Some (w, h)) true logoLoad
    Canvas.Cleared
  = Canvas.Resolved
      (tdu (Canvas.processRender mt sb settings w h natW natH failed
              (sizedCanvas w h))).
Proof. destruct logoLoad as [[natW natH]|]; reflexivity. Qed.

(** C2, what the code does: whatever the banner style, the texts and
    the outcome of loading the logo, a render of a decoded photograph
    that finishes before the timeout resolves with a canvas as wide as
    the photograph and as high as the photograph plus the corrected
    banner height, of which the canvas keeps the whole pixels only. *)
Theorem output_canvas_size settings w h logoLoad :
  0 <= w <= 1000000000 -> 0 <= h <= 1000000000 ->
  let '(natW, natH, failed) := logoArgs logoLoad in
  let L := Canvas.finalLayout mt settings w h failed natW natH in
  let c := Canvas.processRender mt sb settings w h natW natH failed
             (sizedCanvas w h) in
  Canvas.generateWatermark mt sb tdu settings (Some (w, h)) true logoLoad
    Canvas.Cleared
  = Canvas.Resolved (tdu c) /\
  Canvas.width c = w /\
  Canvas.height c = h + Qfloor (Canvas.bannerH L).
Proof.
  intros Hw Hh.
  pose proof (generateWatermark_loaded settings w h logoLoad) as G.
  destruct (logoArgs logoLoad) as [[natW natH] failed].
  intros L c. split; [exact G|].
  destruct (processRender_shape mt sb settings w h natW natH failed (sizedCanvas w h))
    as [(W & H & _) _].
  fold c in W, H.
  change (fst (Canvas.fitPass mt (Canvas.ctx (sizedCanvas w h)) settings w
                 (Canvas.initialLayout w h failed natW natH))) with L in *.
  destruct (finalBanner_range mt settings w h failed natW natH) as [B0 B1];
    [lia | lia |]. fold L in B0, B1.
  assert (Hhq : (0 <= inject_Z h)%Q)
    by (change 0%Q with (inject_Z 0); rewrite <- Zle_Qle; lia).
  assert (Hf : Qfloor (Canvas.bannerH L) <= h).
  { etransitivity; [apply (Qfloor_resp_le _ (inject_Z h)); lra|].
    now rewrite Qfloor_Z. }
  split.
  - rewrite W. unfold redrawn. cbn [Canvas.width Canvas.emit Canvas.setHeight Canvas.setWidth].
    rewrite toDimension_small; rewrite ?Qfloor_Z; try lia.
    change 0%Q with (inject_Z 0). rewrite <- Zle_Qle. lia.
  - rewrite H. unfold redrawn. cbn [Canvas.height Canvas.emit Canvas.setHeight].
    rewrite toDimension_small; rewrite ?floor_shift; try lia. lra.
Qed.

(** C7, what the code does: a logo whose failure is reported before the
    timeout does not fail the render.  The promise resolves, the canvas
    holds a filled rounded box in the text colour, [logoW] wide and
    [logoRealH] high, centred on the middle line of the banner, both
    equal to the corrected [logoH] (a square); no call draws the logo
    image and none is made under the invert filter. *)
Theorem logo_failure_draws_placeholder settings w h :
  let L := Canvas.finalLayout mt settings w h true 0 0 in
  let st := Canvas.styleOf sb settings (inject_Z w) (inject_Z h) L in
  let c := Canvas.processRender mt sb settings w h 0 0 true (sizedCanvas w h) in
  Canvas.generateWatermark mt sb tdu settings (Some (w, h)) true None
    Canvas.Cleared
  = Canvas.Resolved (tdu c) /\
  (exists before cx x r after,
     Canvas.ops c
     = before
       ++ map (pair cx)
            (roundedBox x
               (inject_Z h + Canvas.bannerH L / 2 - Canvas.logoRealH L / 2)%Q
               (Canvas.logoW L) (Canvas.logoRealH L) r)
       ++ after /\
     Canvas.fillStyle cx = Canvas.textColor st /\
     Canvas.ctxFilter cx <> Canvas.FilterInvert) /\
  Canvas.logoW L = Canvas.logoH L /\
  Canvas.logoRealH L = Canvas.logoH L /\
  Forall clean (Canvas.ops c).
Proof.
  intros L st c. subst c.
  split; [reflexivity|].
  destruct (processRender_shape mt sb settings w h 0 0 true (sizedCanvas w h))
    as [(_ & _ & m & O & K) B].
  cbv zeta in B. specialize (B eq_refl).
  change (fst (Canvas.fitPass mt (Canvas.ctx (sizedCanvas w h)) settings w
                 (Canvas.initialLayout w h true 0 0))) with L in *.
  fold st in B.
  split; [|split; [|split]].
  - destruct B as (bf & cx & x & r & af & OB & F & I).
    exists ((Canvas.defaultCtx, Canvas.DrawImage3 Canvas.SrcImg 0 0) :: bf),
      cx, x, r, af.
    split; [|split; assumption]. rewrite OB. reflexivity.
  - subst L. rewrite finalLayout_fit. unfold Canvas.fit, Canvas.initialLayout.
    cbn [Canvas.logoDims negb andb].
    destruct (Canvas.Qgtb _ _); reflexivity.
  - subst L. rewrite finalLayout_fit. unfold Canvas.fit, Canvas.initialLayout.
    cbn [Canvas.logoDims negb andb].
    destruct (Canvas.Qgtb _ _); reflexivity.
  - rewrite O. apply Forall_app. split.
    + constructor; [split; reflexivity | constructor].
    + apply K; [reflexivity | discriminate].
Qed.

End Rendered.

Lemma output_canvas_size_witness :
  Canvas.width
    (Canvas.processRender monoText noBand roomy 1001 1001 0 0 true
       (sizedCanvas 1001 1001)) = 1001
  /\ Canvas.height
       (Canvas.processRender monoText noBand roomy 1001 1001 0 0 true
          (sizedCanvas 1001 1001)) = 1121.
Proof.
  destruct (output_canvas_size monoText noBand jpegOf roomy 1001 1001 None)
    as (_ & W & H); [lia | lia |].
  split; [exact W|]. rewrite H. vm_compute. reflexivity.
Defined.

(** C2, as stated, fails: for a photograph of 1001 x 1001 pixels the
    banner is 120.12 pixels high, and the canvas is 1121 pixels high,
    not 1121.12. *)
Lemma output_height_is_whole_pixels :
  let L := Canvas.finalLayout monoText roomy 1001 1001 true 0 0 in
  let c := Canvas.processRender monoText noBand roomy 1001 1001 0 0 true
             (sizedCanvas 1001 1001) in
  Canvas.generateWatermark monoText noBand jpegOf roomy (Some (1001, 1001)) true None
    Canvas.Cleared = Canvas.Resolved (jpegOf c) /\
  (Canvas.bannerH L == 120.12)%Q /\
  Canvas.height c = 1121 /\
  ~ (inject_Z (Canvas.height c) == inject_Z 1001 + Canvas.bannerH L)%Q.
Proof.
  cbv zeta. split; [reflexivity|].
  split; [vm_compute; reflexivity|].
  split; [vm_compute; reflexivity|].
  vm_compute. discriminate.
Qed.

(** C7, as stated, fails: when the logo's failure is reported only
    after the 15-second timer has fired, the promise is rejected. *)
Lemma late_logo_failure_times_out :
  Canvas.generateWatermark monoText noBand jpegOf roomy (Some (1000, 1000)) true None
    Canvas.FiresBeforeLogo
  = Canvas.Rejected "Processing timeout.".
Proof. reflexivity. Qed.


(** ** Slot relocation *)

Lemma get_assign k k' v els :
  App.get k (App.assign k' v els) = if String.eqb k' k then Some v else App.get k els.
Proof.
  induction els as [|[k0 e0] t IH]; simpl.
  - destruct (String.eqb k' k); reflexivity.
  - destruct (String.eqb_spec k0 k') as [->|Hne]; simpl.
    + destruct (String.eqb k' k); reflexivity.
    + destruct (String.eqb_spec k0 k) as [->|Hne2].
      * destruct (String.eqb_spec k' k) as [->|_]; [now destruct Hne | reflexivity].
      * exact IH.
Qed.

Lemma get_None k els : App.get k els = None <-> ~ In k (map fst els).
Proof.
  induction els as [|[k0 e0] t IH]; simpl; [tauto|].
  destruct (String.eqb_spec k0 k) as [->|Hne].
  - split; [discriminate | tauto].
  - rewrite IH. tauto.
Qed.

Lemma get_In k e els : App.get k els = Some e -> In (k, e) els.
Proof.
  induction els as [|[k0 e0] t IH]; simpl; [discriminate|].
  destruct (String.eqb_spec k0 k) as [->|Hne].
  - intros [= ->]. now left.
  - intros H. right. now apply IH.
Qed.

Lemma In_get k e els :
  List.NoDup (map fst els) -> In (k, e) els -> App.get k els = Some e.
Proof.
  induction els as [|[k0 e0] t IH]; simpl; [tauto|].
  intros Hnd [Heq|Hin].
  - injection Heq as -> ->. now rewrite String.eqb_refl.
  - inversion Hnd as [|? ? Hni Hnd']; subst.
    destruct (String.eqb_spec k0 k) as [->|Hne].
    + destruct Hni. apply (in_map fst) in Hin. exact Hin.
    + now apply IH.
Qed.

Lemma keys_assign k v els :
  In k (map fst els) -> map fst (App.assign k v els) = map fst els.
Proof.
  induction els as [|[k0 e0] t IH]; simpl; [tauto|].
  intros Hin. destruct (String.eqb_spec k0 k) as [->|Hne]; [reflexivity|].
  simpl. f_equal. apply IH. destruct Hin as [H|H]; [now destruct Hne | exact H].
Qed.

Lemma placeAll_keys ks s l : forall i els,
  (forall k, In k ks -> In k (map fst els)) ->
  map fst (App.placeAll ks i s l els) = map fst els.
Proof.
  induction ks as [|k t IH]; intros i els Hin; [reflexivity|].
  simpl. rewrite IH.
  - apply keys_assign. apply Hin. now left.
  - intros k' Hk'. rewrite keys_assign by (apply Hin; now left).
    apply Hin. now right.
Qed.

Lemma placeAll_get_other ks s l k : forall i els,
  ~ In k ks -> App.get k (App.placeAll ks i s l els) = App.get k els.
Proof.
  induction ks as [|k0 t IH]; intros i els Hni; [reflexivity|].
  simpl. rewrite IH by (intros H; apply Hni; now right).
  rewrite get_assign.
  destruct (String.eqb_spec k0 k) as [->|_]; [|reflexivity].
  destruct Hni. now left.
Qed.

Lemma placeAll_get_at ks s l k : forall i j els,
  List.NoDup ks -> indexOf k ks = Some j ->
  App.get k (App.placeAll ks i s l els)
  = Some (App.place (App.get k els) s l (Z.of_nat (i + j))).
Proof.
  induction ks as [|k0 t IH]; intros i j els Hnd Hj; [discriminate|].
  inversion Hnd as [|? ? Hni Hnd']; subst. simpl in *.
  destruct (String.eqb_spec k0 k) as [->|Hne].
  - injection Hj as <-. rewrite placeAll_get_other by exact Hni.
    rewrite get_assign, String.eqb_refl. now rewrite Nat.add_0_r.
  - destruct (indexOf k t) as [j'|] eqn:Ej; [|discriminate].
    injection Hj as <-. rewrite (IH (S i) j' _ Hnd' eq_refl).
    rewrite get_assign.
    destruct (String.eqb_spec k0 k) as [->|_]; [now destruct Hne|].
    do 3 f_equal. lia.
Qed.

Lemma indexOf_None k ks : indexOf k ks = None <-> ~ In k ks.
Proof.
  induction ks as [|k0 t IH]; simpl; [tauto|].
  destruct (String.eqb_spec k0 k) as [->|Hne].
  - split; [discriminate | tauto].
  - destruct (indexOf k t) as [i|].
    + split; [discriminate|]. intros H. exfalso.
      assert (Hn : ~ In k t) by tauto.
      apply IH in Hn. discriminate.
    + split; [|reflexivity]. intros _ [H|H]; [now destruct Hne|].
      now apply (proj1 IH eq_refl).
Qed.

Lemma indexOf_inj k1 k2 ks j :
  indexOf k1 ks = Some j -> indexOf k2 ks = Some j -> k1 = k2.
Proof.
  revert j. induction ks as [|k0 t IH]; intros j; simpl; [discriminate|].
  destruct (String.eqb_spec k0 k1) as [E1|H1], (String.eqb_spec k0 k2) as [E2|H2].
  - congruence.
  - intros [= <-]. destruct (indexOf k2 t); discriminate.
  - destruct (indexOf k1 t); [|discriminate]. intros [= <-]. discriminate.
  - destruct (indexOf k1 t) as [a|]; [|discriminate].
    destruct (indexOf k2 t) as [b|]; [|discriminate].
    intros Ha Hb. injection Ha as <-. injection Hb as ->.
    now apply (IH a).
Qed.

Section Sorting.
Context {A : Type}.
Variable cmp : A -> A -> Z.

Lemma insertSorted_perm x l : Permutation (Arr.insertSorted cmp x l) (x :: l).
Proof.
  induction l as [|y t IH]; simpl; [reflexivity|].
  destruct (cmp x y <=? 0); [reflexivity|].
  rewrite IH. apply perm_swap.
Qed.

Lemma sort_perm l : Permutation (Arr.sort cmp l) l.
Proof.
  induction l as [|x t IH]; simpl; [reflexivity|].
  rewrite insertSorted_perm. now rewrite IH.
Qed.

End Sorting.

Lemma keys_filter (p : string * WatermarkElement -> bool) els :
  List.NoDup (map fst els) -> List.NoDup (map fst (List.filter p els)).
Proof.
  induction els as [|[k e] t IH]; simpl; [constructor|].
  intros Hnd. inversion Hnd as [|? ? Hni Hnd']; subst.
  destruct (p (k, e)); [|now apply IH].
  simpl. constructor; [|now apply IH].
  intros Hin. apply Hni. apply in_map_iff in Hin as ([k' e'] & Hk & Hf).
  simpl in Hk. subst k'. apply List.filter_In in Hf as [Hf _].
  apply (in_map fst) in Hf. exact Hf.
Qed.

Lemma zoneItems_In d ts tl els k e :
  In (k, e) (zoneItems d ts tl els)
  <-> In (k, e) els /\ side e = ts /\ line e = tl /\ k <> d.
Proof.
  unfold zoneItems.
  rewrite (Permutation_in' (x:=(k, e)) eq_refl (sort_perm _ _)) by reflexivity.
  rewrite List.filter_In. rewrite !andb_true_iff, negb_true_iff.
  assert (Hs : side_eqb (side e) ts = true <-> side e = ts)
    by (destruct (side e), ts; simpl; split; congruence).
  assert (Hl : line_eqb (line e) tl = true <-> line e = tl)
    by (destruct (line e), tl; simpl; split; congruence).
  rewrite Hs, Hl.
  destruct (String.eqb_spec k d); split; intros H; try tauto;
    decompose [and] H; try congruence; tauto.
Qed.

Lemma zoneItems_keys d ts tl els :
  List.NoDup (map fst els) ->
  List.NoDup (map fst (zoneItems d ts tl els)) /\
  ~ In d (map fst (zoneItems d ts tl els)).
Proof.
  intros Hnd. split.
  - unfold zoneItems.
    eapply Permutation_NoDup; [| apply keys_filter, Hnd].
    apply Permutation_map. symmetry. apply sort_perm.
  - intros Hin. apply in_map_iff in Hin as ([k e] & Hk & Hin).
    simpl in Hk. subst k. apply zoneItems_In in Hin. tauto.
Qed.

Lemma zoneOrder_spec d ts tl tid els :
  List.NoDup (map fst els) ->
  List.NoDup (zoneOrder d ts tl tid els) /\
  (forall k, In k (zoneOrder d ts tl tid els)
             <-> k = d \/ In k (map fst (zoneItems d ts tl els))).
Proof.
  intros Hnd. destruct (zoneItems_keys d ts tl els Hnd) as [Hk Hd].
  unfold zoneOrder. cbv zeta.
  set (ks := map fst (zoneItems d ts tl els)) in *.
  set (i := insertAt tid (zoneItems d ts tl els)).
  assert (Hp : Permutation (firstn i ks ++ d :: skipn i ks) (d :: ks)).
  { rewrite <- Permutation_middle. now rewrite firstn_skipn. }
  split.
  - eapply Permutation_NoDup; [symmetry; exact Hp|].
    constructor; assumption.
  - intros k. split; intros H.
    + apply (Permutation_in _ Hp) in H. destruct H as [<-|H]; auto.
    + apply (Permutation_in _ (Permutation_sym Hp)).
      destruct H as [->|H]; [now left | now right].
Qed.

Lemma newGroup_keys (d : string) (x : option WatermarkElement) (i : nat)
  (items : list (string * WatermarkElement)) :
  map fst (Arr.spliceInsert i (d, x) (map (fun '(k, el) => (k, Some el)) items))
  = firstn i (map fst items) ++ d :: skipn i (map fst items).
Proof.
  unfold Arr.spliceInsert.
  assert (E : map fst (map (fun '(k, el) => (k, Some el)) items) = map fst items).
  { rewrite map_map. apply map_ext. now intros [k e]. }
  rewrite map_app. simpl.
  rewrite <- List.firstn_map, <- List.skipn_map, E. reflexivity.
Qed.

Lemma place_again (o : option WatermarkElement) s l j :
  let e := App.place o s l j in
  App.place (Some e) s l (order e) = e.
Proof. destruct o; reflexivity. Qed.

(** The slots after a drop: the keys are the same, a slot of the new
    zone order sits in the drop zone at its position in that order, and
    every other slot is as before. *)
Lemma dropUpdate_get d ts tl tid prev :
  List.NoDup (map fst (elements prev)) ->
  In d (map fst (elements prev)) ->
  let els := elements prev in
  let els' := elements (App.dropUpdate d ts tl tid prev) in
  map fst els' = map fst els /\
  forall k,
    App.get k els'
    = match indexOf k (zoneOrder d ts tl tid els) with
      | Some j => Some (App.place (App.get k els) ts tl (Z.of_nat j))
      | None => App.get k els
      end.
Proof.
  intros Hnd Hd els els'.
  destruct (zoneOrder_spec d ts tl tid els Hnd) as [Hzn Hzi].
  assert (Hsub : forall k, In k (zoneOrder d ts tl tid els) -> In k (map fst els)).
  { intros k Hk. apply Hzi in Hk as [->|Hk]; [exact Hd|].
    apply in_map_iff in Hk as ([k' e] & Hk & Hin). simpl in Hk. subst k'.
    apply zoneItems_In in Hin as [Hin _].
    apply (in_map fst) in Hin. exact Hin. }
  set (els1 := App.placeAll (zoneOrder d ts tl tid els) 0 ts tl els).
  assert (Hk1 : map fst els1 = map fst els) by (apply placeAll_keys, Hsub).
  assert (Hg1 : forall k,
             App.get k els1
             = match indexOf k (zoneOrder d ts tl tid els) with
               | Some j => Some (App.place (App.get k els) ts tl (Z.of_nat j))
               | None => App.get k els
               end).
  { intros k. subst els1. destruct (indexOf k _) as [j|] eqn:Ej.
    - now rewrite (placeAll_get_at _ ts tl k 0 j els Hzn Ej).
    - apply placeAll_get_other. now apply indexOf_None. }
  assert (Eels' : els' = App.assign d
                    (App.place (App.get d els1) ts tl
                       (match App.get d els1 with
                        | Some e => order e | None => 0 end)) els1).
  { subst els' els1. unfold App.dropUpdate. cbv zeta. cbn [elements].
    rewrite newGroup_keys. reflexivity. }
  rewrite Eels'. split.
  - rewrite keys_assign; [exact Hk1 | rewrite Hk1; exact Hd].
  - intros k. rewrite get_assign.
    destruct (String.eqb_spec d k) as [<-|Hne]; [|apply Hg1].
    pose proof (Hg1 d) as Hgd.
    destruct (indexOf d (zoneOrder d ts tl tid els)) as [j|] eqn:Ej.
    + rewrite Hgd. f_equal. apply place_again.
    + exfalso. apply indexOf_None in Ej. apply Ej, Hzi. now left.
Qed.

Lemma place_order o s l j : order (App.place o s l j) = j.
Proof. now destruct o. Qed.

Lemma place_side o s l j : side (App.place o s l j) = s /\ line (App.place o s l j) = l.
Proof. now destruct o. Qed.

Lemma outside_zone d ts tl tid els k e :
  List.NoDup (map fst els) ->
  indexOf k (zoneOrder d ts tl tid els) = None ->
  App.get k els = Some e -> ~ (side e = ts /\ line e = tl).
Proof.
  intros Hnd Hi Hg [Hs Hl].
  destruct (zoneOrder_spec d ts tl tid els Hnd) as [_ Hzi].
  apply indexOf_None in Hi. apply Hi, Hzi.
  destruct (String.eqb_spec k d) as [->|Hne]; [now left|right].
  apply in_map_iff. exists (k, e). split; [reflexivity|].
  apply zoneItems_In. repeat split; try assumption. now apply get_In.
Qed.

(** C9: relocating a slot by drag and drop keeps the set of slots and
    their identity and text, and keeps the [order] values pairwise
    distinct within every (side, line) group. *)
Theorem drop_keeps_orders_distinct (st : App.State) ts tl tid :
  let els := elements (App.settings st) in
  let els' := elements (App.settings (App.handleDrop ts tl tid st)) in
  List.NoDup (map fst els) ->
  (forall d, App.draggedId st = Some d -> In d (map fst els)) ->
  ordersDistinct els ->
  map fst els' = map fst els /\
  ordersDistinct els' /\
  (forall k e', App.get k els' = Some e' ->
     exists e, App.get k els = Some e /\ sameSlot e e').
Proof.
  intros els els' Hnd Hdrag Hdist. subst els'. unfold App.handleDrop.
  assert (Hsame : map fst els = map fst els /\ ordersDistinct els /\
                  (forall k e', App.get k els = Some e' ->
                     exists e, App.get k els = Some e /\ sameSlot e e')).
  { split; [reflexivity|]. split; [exact Hdist|].
    intros k e' H. exists e'. split; [exact H | repeat split]. }
  destruct (App.draggedId st) as [d|] eqn:Ed; [|exact Hsame].
  destruct (negb (truthy d)); [exact Hsame|].
  destruct (match tid with Some t => String.eqb d t | None => false end);
    [exact Hsame|].
  cbn [App.settings].
  destruct (dropUpdate_get d ts tl tid (App.settings st) Hnd (Hdrag d eq_refl))
    as [Hkeys Hget]. cbv zeta in Hkeys, Hget. fold els in Hkeys, Hget.
  set (els' := elements (App.dropUpdate d ts tl tid (App.settings st))) in *.
  split; [exact Hkeys|]. split.
  - intros k1 k2 e1 e2 Hne H1 H2 Hs Hl Ho.
    rewrite Hget in H1, H2.
    destruct (indexOf k1 (zoneOrder d ts tl tid els)) as [j1|] eqn:E1,
             (indexOf k2 (zoneOrder d ts tl tid els)) as [j2|] eqn:E2.
    + injection H1 as <-. injection H2 as <-.
      rewrite !place_order in Ho. apply Nat2Z.inj in Ho. subst j2.
      apply Hne. eapply indexOf_inj; eassumption.
    + injection H1 as <-.
      destruct (place_side (App.get k1 els) ts tl (Z.of_nat j1)) as [S1 L1].
      apply (outside_zone d ts tl tid els k2 e2 Hnd E2 H2). split; congruence.
    + injection H2 as <-.
      destruct (place_side (App.get k2 els) ts tl (Z.of_nat j2)) as [S2 L2].
      apply (outside_zone d ts tl tid els k1 e1 Hnd E1 H1). split; congruence.
    + exact (Hdist k1 k2 e1 e2 Hne H1 H2 Hs Hl Ho).
  - intros k e' H. rewrite Hget in H.
    destruct (indexOf k (zoneOrder d ts tl tid els)) as [j|] eqn:Ej.
    + destruct (App.get k els) as [e|] eqn:Eg.
      * exists e. split; [reflexivity|]. injection H as <-. repeat split.
      * exfalso. apply get_None in Eg. apply Eg. rewrite <- Hkeys.
        assert (Hk : App.get k els' <> None) by (rewrite Hget, Ej; discriminate).
        destruct (App.get k els') as [x|] eqn:Ex; [|now destruct Hk].
        apply get_In in Ex. apply (in_map fst) in Ex. exact Ex.
    + exists e'. split; [exact H | repeat split].
Qed.

Lemma ordersDistinctb_sound els :
  List.NoDup (map fst els) -> ordersDistinctb els = true -> ordersDistinct els.
Proof.
  induction els as [|[k e] t IH]; intros Hnd Hb.
  - intros k1 k2 e1 e2 _ H; discriminate H.
  - inversion Hnd as [|? ? Hni Hnd']; subst.
    simpl in Hb. apply andb_prop in Hb as [Hhead Htail].
    rewrite forallb_forall in Hhead.
    assert (Hclash : forall k' e', In (k', e') t ->
               side e = side e' -> line e = line e' -> order e <> order e').
    { intros k' e' Hin Hs Hl Ho. specialize (Hhead (k', e') Hin).
      cbv beta iota in Hhead. rewrite Hs, Hl, Ho in Hhead.
      rewrite Z.eqb_refl in Hhead.
      destruct (side e'), (line e'); discriminate Hhead. }
    intros k1 k2 e1 e2 Hne H1 H2 Hs Hl. simpl in H1, H2.
    destruct (String.eqb_spec k k1) as [E1|N1], (String.eqb_spec k k2) as [E2|N2].
    + congruence.
    + injection H1 as <-. apply (Hclash k2 e2); [now apply get_In | assumption..].
    + injection H2 as <-. intros Ho.
      apply (Hclash k1 e1); [now apply get_In | congruence..].
    + now apply (IH Hnd' Htail k1 k2 e1 e2).
Qed.

Lemma initial_keys_distinct : List.NoDup (map fst (elements App.initialSettings)).
Proof.
  simpl. repeat constructor; simpl; intuition discriminate.
Qed.

Lemma initial_orders_distinct : ordersDistinct (elements App.initialSettings).
Proof.
  apply ordersDistinctb_sound; [apply initial_keys_distinct | reflexivity].
Qed.

Lemma drop_keeps_orders_distinct_witness :
  let els' := elements (App.settings
                (App.handleDrop left Line1 (Some "lens") (dragging "iso"))) in
  map fst els' = slotKeys /\ ordersDistinct els'.
Proof.
  destruct (drop_keeps_orders_distinct (dragging "iso") left Line1 (Some "lens")
              initial_keys_distinct) as (Hk & Hd & _).
  - intros d [= <-]. simpl. tauto.
  - exact initial_orders_distinct.
  - split; [exact Hk | exact Hd].
Defined.

(** ** Sorting by a key *)

Section KeySort.
Context {A : Type}.
Variable key : A -> Z.

Lemma ascending_app_inv (l1 l2 : list A) (x : A) :
  ascending key (l1 ++ x :: l2) ->
  Forall (fun y => key y < key x) l1 /\ Forall (fun y => key x < key y) l2 /\
  ascending key (l1 ++ l2).
Proof.
  induction l1 as [|a l1 IH]; simpl.
  - intros [H1 H2]. repeat split; [constructor | assumption..].
  - intros [Ha Hr]. destruct (IH Hr) as (F1 & F2 & Hasc).
    apply Forall_app in Ha as [Ha1 Ha2].
    inversion Ha2 as [|? ? Hax Ha2']; subst.
    repeat split; try assumption.
    + constructor; assumption.
    + apply Forall_app. split; assumption.
Qed.

Lemma insertSorted_place (l1 l2 : list A) (x : A) :
  Forall (fun y => key y < key x) l1 ->
  Forall (fun y => key x < key y) l2 ->
  Arr.insertSorted (fun a b => key a - key b) x (l1 ++ l2) = l1 ++ x :: l2.
Proof.
  intros F1 F2. induction F1 as [|a l1 Ha F1 IH]; simpl.
  - destruct F2 as [|b l2 Hb F2]; simpl; [reflexivity|].
    destruct (Z.leb_spec (key x - key b) 0) as [_|H]; [reflexivity | lia].
  - destruct (Z.leb_spec (key x - key a) 0) as [H|_]; [lia|].
    now rewrite IH.
Qed.

(** Sorting any arrangement of a strictly ascending list restores it. *)
Lemma sort_ascending (l l' : list A) :
  Permutation l l' -> ascending key l' ->
  Arr.sort (fun a b => key a - key b) l = l'.
Proof.
  revert l'. induction l as [|x t IH]; intros l' Hp Hasc.
  - apply Permutation_nil in Hp. now subst.
  - assert (Hin : In x l') by (apply (Permutation_in _ Hp); now left).
    apply in_split in Hin as (l1 & l2 & ->).
    apply Permutation_cons_app_inv in Hp.
    destruct (ascending_app_inv l1 l2 x Hasc) as (F1 & F2 & Hasc').
    simpl. rewrite (IH _ Hp Hasc'). now apply insertSorted_place.
Qed.

End KeySort.

Lemma inZone_iff s l e : inZone s l e = true <-> side e = s /\ line e = l.
Proof.
  unfold inZone. rewrite andb_true_iff.
  destruct (side e), s, (line e), l; simpl; split; intros [? ?];
    split; congruence.
Qed.

Lemma placedFrom_orders s l els ks : forall i,
  Forall (fun y => Z.of_nat i <= order y) (placedFrom s l els ks i) /\
  ascending order (placedFrom s l els ks i).
Proof.
  induction ks as [|k t IH]; intros i; simpl; [split; [constructor | exact I]|].
  destruct (IH (S i)) as [Hge Hasc]. repeat split.
  - constructor; [rewrite place_order; lia|].
    eapply List.Forall_impl; [|exact Hge].
    intros y Hy. cbv beta in Hy. lia.
  - rewrite place_order. eapply List.Forall_impl; [|exact Hge].
    intros y Hy. cbv beta in Hy. lia.
  - exact Hasc.
Qed.

Lemma placedFrom_In s l els ks x : forall i,
  List.NoDup ks ->
  In x (placedFrom s l els ks i) <->
  exists k j, indexOf k ks = Some j /\
              x = App.place (App.get k els) s l (Z.of_nat (i + j)).
Proof.
  induction ks as [|k t IH]; intros i Hnd; simpl.
  - split; [tauto|]. intros (k & j & H & _). discriminate H.
  - inversion Hnd as [|? ? Hni Hnd']; subst. rewrite (IH (S i) Hnd'). split.
    + intros [<-|(k' & j & Hj & ->)].
      * exists k, O. rewrite String.eqb_refl, Nat.add_0_r. split; reflexivity.
      * exists k', (S j).
        destruct (String.eqb_spec k k') as [->|Hne].
        -- exfalso. destruct (in_dec string_dec k' t) as [Hin|Hn];
             [now apply Hni|].
           apply indexOf_None in Hn. congruence.
        -- rewrite Hj. split; [reflexivity|]. do 2 f_equal. lia.
    + intros (k' & j & Hj & ->).
      destruct (String.eqb_spec k k') as [->|Hne].
      * injection Hj as <-. left. now rewrite Nat.add_0_r.
      * destruct (indexOf k' t) as [j'|] eqn:Ej; [|discriminate].
        injection Hj as <-. right. exists k', j'. split; [exact Ej|].
        do 2 f_equal. lia.
Qed.

Lemma ascending_NoDup {A : Type} (key : A -> Z) (l : list A) :
  ascending key l -> List.NoDup l.
Proof.
  induction l as [|x t IH]; simpl; [constructor|].
  intros [Hx Ht]. constructor; [|now apply IH].
  intros Hin. rewrite List.Forall_forall in Hx. specialize (Hx x Hin). lia.
Qed.

Lemma values_NoDup (p : WatermarkElement -> bool)
  (l : list (string * WatermarkElement)) :
  List.NoDup (map fst l) ->
  (forall k1 k2 e, In (k1, e) l -> In (k2, e) l -> p e = true -> k1 = k2) ->
  List.NoDup (List.filter p (map snd l)).
Proof.
  induction l as [|[k e] t IH]; simpl; [constructor|].
  intros Hnd Hinj. inversion Hnd as [|? ? Hni Hnd']; subst.
  assert (IHt : List.NoDup (List.filter p (map snd t))).
  { apply IH; [exact Hnd'|]. intros k1 k2 e0 H1 H2.
    apply Hinj; now right. }
  destruct (p e) eqn:Ep; [|exact IHt].
  constructor; [|exact IHt].
  intros Hin. apply List.filter_In in Hin as [Hin _].
  apply in_map_iff in Hin as ([k' e'] & He & Hin). simpl in He. subst e'.
  assert (k = k') by (apply (Hinj k k' e); [now left | now right | exact Ep]).
  subst k'. apply Hni. apply (in_map fst) in Hin. exact Hin.
Qed.

(** The slots the renderer finds in the drop zone after a drop are, in
    some arrangement, the slots of the new zone order. *)
Lemma zone_members_after_drop d ts tl tid prev :
  List.NoDup (map fst (elements prev)) ->
  In d (map fst (elements prev)) ->
  Permutation
    (List.filter (inZone ts tl)
       (map snd (elements (App.dropUpdate d ts tl tid prev))))
    (placedFrom ts tl (elements prev)
       (zoneOrder d ts tl tid (elements prev)) 0).
Proof.
  intros Hnd Hd.
  destruct (dropUpdate_get d ts tl tid prev Hnd Hd) as [Hkeys Hget].
  cbv zeta in Hkeys, Hget.
  set (els := elements prev) in *.
  set (els' := elements (App.dropUpdate d ts tl tid prev)) in *.
  set (zo := zoneOrder d ts tl tid els) in *.
  destruct (zoneOrder_spec d ts tl tid els Hnd) as [Hzn Hzi]. fold zo in Hzn, Hzi.
  assert (Hnd' : List.NoDup (map fst els')) by (rewrite Hkeys; exact Hnd).
  destruct (placedFrom_orders ts tl els zo 0) as [_ Hasc].
  apply Stdlib.Sorting.Permutation.NoDup_Permutation.
  - apply values_NoDup; [exact Hnd'|].
    intros k1 k2 e H1 H2 Hp.
    apply (In_get _ _ _ Hnd') in H1. apply (In_get _ _ _ Hnd') in H2.
    rewrite Hget in H1, H2. apply inZone_iff in Hp.
    destruct (indexOf k1 zo) as [j1|] eqn:E1.
    2:{ exfalso. exact (outside_zone d ts tl tid els k1 e Hnd E1 H1 Hp). }
    destruct (indexOf k2 zo) as [j2|] eqn:E2.
    2:{ exfalso. exact (outside_zone d ts tl tid els k2 e Hnd E2 H2 Hp). }
    injection H1 as H1. injection H2 as H2.
    assert (Ho : Z.of_nat j1 = Z.of_nat j2).
    { rewrite <- (place_order (App.get k1 els) ts tl (Z.of_nat j1)).
      rewrite <- (place_order (App.get k2 els) ts tl (Z.of_nat j2)).
      congruence. }
    apply Nat2Z.inj in Ho. subst j2. eapply indexOf_inj; eassumption.
  - eapply ascending_NoDup. exact Hasc.
  - intros x. rewrite (placedFrom_In ts tl els zo x 0 Hzn).
    rewrite List.filter_In, in_map_iff. split.
    + intros [([k e] & He & Hin) Hp]. simpl in He. subst e.
      apply (In_get _ _ _ Hnd') in Hin. rewrite Hget in Hin.
      apply inZone_iff in Hp.
      destruct (indexOf k zo) as [j|] eqn:Ej.
      * exists k, j. split; [exact Ej|]. now injection Hin.
      * exfalso. exact (outside_zone d ts tl tid els k x Hnd Ej Hin Hp).
    + intros (k & j & Hj & ->). simpl. split.
      * exists (k, App.place (App.get k els) ts tl (Z.of_nat j)).
        split; [reflexivity|]. apply get_In. rewrite Hget, Hj. reflexivity.
      * apply inZone_iff. apply place_side.
Qed.

Lemma group_is_sorted_zone settings ts tl :
  Canvas.group settings ts tl
  = Arr.sort (fun a b => order a - order b)
      (List.filter (inZone ts tl) (map snd (elements settings))).
Proof. reflexivity. Qed.

(** After a drop, the renderer's group for the drop zone is the zone in
    its new order: the former members in their former order with the
    dragged slot inserted at the drop position, numbered 0, 1, 2, ... *)
Theorem drop_order_is_draw_order d ts tl tid prev :
  List.NoDup (map fst (elements prev)) ->
  In d (map fst (elements prev)) ->
  Canvas.group (App.dropUpdate d ts tl tid prev) ts tl
  = placedFrom ts tl (elements prev)
      (zoneOrder d ts tl tid (elements prev)) 0.
Proof.
  intros Hnd Hd. rewrite group_is_sorted_zone.
  apply (sort_ascending order).
  - now apply zone_members_after_drop.
  - apply placedFrom_orders.
Qed.

Lemma drop_order_is_draw_order_witness :
  map id (Canvas.group (App.dropUpdate "iso" left Line1 (Some "lens")
                          App.initialSettings) left Line1)
  = ["model"; "iso"; "lens"].
Proof.
  rewrite (drop_order_is_draw_order "iso" left Line1 (Some "lens")
             App.initialSettings initial_keys_distinct).
  - reflexivity.
  - simpl. tauto.
Defined.

Lemma findIndex_split (t : string) (items : list (string * WatermarkElement)) :
  In t (map fst items) ->
  exists i l1 l2,
    Arr.findIndex (fun '(k, _) => String.eqb k t) items = Some i /\
    map fst items = l1 ++ t :: l2 /\ length l1 = i.
Proof.
  induction items as [|[k e] r IH]; simpl; [tauto|].
  intros Hin. destruct (String.eqb_spec k t) as [->|Hne].
  - exists O, [], (map fst r). repeat split.
  - destruct Hin as [H|H]; [now destruct Hne|].
    destruct (IH H) as (i & l1 & l2 & -> & -> & <-).
    exists (S (length l1)), (k :: l1), l2. repeat split.
Qed.

(** Dropping a slot onto another slot of the zone puts it immediately
    before that slot in the order the renderer draws. *)
Theorem drop_lands_before_target d t ts tl prev :
  List.NoDup (map fst (elements prev)) ->
  In d (map fst (elements prev)) ->
  truthy t = true ->
  In t (map fst (zoneItems d ts tl (elements prev))) ->
  exists l1 l2,
    map fst (zoneItems d ts tl (elements prev)) = l1 ++ t :: l2 /\
    Canvas.group (App.dropUpdate d ts tl (Some t) prev) ts tl
    = placedFrom ts tl (elements prev) (l1 ++ d :: t :: l2) 0.
Proof.
  intros Hnd Hd Ht Hin.
  destruct (findIndex_split t _ Hin) as (i & l1 & l2 & Hf & Hk & Hl).
  exists l1, l2. split; [exact Hk|].
  rewrite group_is_sorted_zone.
  rewrite (sort_ascending order _ _ (zone_members_after_drop d ts tl (Some t) prev Hnd Hd))
    by apply placedFrom_orders.
  f_equal. unfold zoneOrder, insertAt. cbv zeta. rewrite Ht, Hf, Hk.
  subst i. rewrite List.firstn_app, List.skipn_app.
  rewrite List.firstn_all, List.skipn_all, Nat.sub_diag. simpl.
  now rewrite app_nil_r.
Qed.

Lemma drop_lands_before_target_witness :
  exists l1 l2,
    map fst (zoneItems "iso" left Line1 (elements App.initialSettings))
    = l1 ++ "lens" :: l2 /\
    Canvas.group (App.dropUpdate "iso" left Line1 (Some "lens")
                    App.initialSettings) left Line1
    = placedFrom left Line1 (elements App.initialSettings)
        (l1 ++ "iso" :: "lens" :: l2) 0.
Proof.
  apply (drop_lands_before_target "iso" "lens" left Line1 App.initialSettings
           initial_keys_distinct).
  - simpl. tauto.
  - reflexivity.
  - simpl. tauto.
Defined.

(** Dropping a slot onto the zone itself puts it after all the slots of
    the zone. *)
Theorem drop_on_zone_appends d ts tl prev :
  List.NoDup (map fst (elements prev)) ->
  In d (map fst (elements prev)) ->
  Canvas.group (App.dropUpdate d ts tl None prev) ts tl
  = placedFrom ts tl (elements prev)
      (map fst (zoneItems d ts tl (elements prev)) ++ [d]) 0.
Proof.
  intros Hnd Hd.
  rewrite group_is_sorted_zone.
  rewrite (sort_ascending order _ _ (zone_members_after_drop d ts tl None prev Hnd Hd))
    by apply placedFrom_orders.
  f_equal. unfold zoneOrder, insertAt. cbv zeta.
  rewrite <- (length_map fst). rewrite List.firstn_all, List.skipn_all.
  reflexivity.
Qed.

Lemma drop_on_zone_appends_witness :
  map id (Canvas.group (App.dropUpdate "iso" right Line2 None
                          App.initialSettings) right Line2)
  = ["date"; "iso"].
Proof.
  rewrite (drop_on_zone_appends "iso" right Line2 App.initialSettings
             initial_keys_distinct).
  - reflexivity.
  - simpl. tauto.
Defined.

(** ** The backdrop of the banner *)

Section Backdrop.

Variable mt : Canvas.Font -> string -> Q.
Variable sb : Q -> Q -> option (list Z).

Lemma applyStyle_effect settings w h L c :
  let r := Canvas.applyStyle sb settings w h L c in
  match bannerStyle settings with
  | BLUR =>
      Canvas.ops (snd r)
      = Canvas.ops c
        ++ [(Canvas.setFilter (Canvas.FilterBlur (blurIntensity settings)) (Canvas.ctx c),
             Canvas.DrawImage9 Canvas.SrcImg 0
               (Qmax 0 (h - Canvas.bannerH L))
               w (Qmin (Canvas.bannerH L) (h - Qmax 0 (h - Canvas.bannerH L)))
               (- (blurIntensity settings * 2))
               (h - blurIntensity settings * 2)
               (w + blurIntensity settings * 2 * 2)
               (Canvas.bannerH L + blurIntensity settings * 2 * 2))%Q]
  | _ =>
      Canvas.ops (snd r) = Canvas.ops c /\
      Canvas.fillStyle (Canvas.ctx (snd r)) = Canvas.bgColor (fst r) /\
      Canvas.ctxFilter (Canvas.ctx (snd r)) = Canvas.ctxFilter (Canvas.ctx c)
  end.
Proof.
  unfold Canvas.applyStyle. destruct (bannerStyle settings); cbv zeta.
  - repeat split; reflexivity.
  - repeat split; reflexivity.
  - match goal with
    | |- context [if ?b then _ else _] => destruct b
    end; reflexivity.
  - destruct (useAdaptiveTextColor settings); [repeat split; reflexivity|].
    match goal with
    | |- context [if ?b then _ else _] => destruct b
    end; repeat split; reflexivity.
Qed.

(** The first two drawing calls of a render: the photograph at the
    origin, unscaled, then the backdrop of the banner.  For the black,
    white and adaptive styles that is one rectangle from (0, h), as wide
    as the photograph and [bannerH] high, filled in the background
    colour; for the blur style it is the lower band of the photograph
    drawn under the blur filter onto a rectangle that extends twice the
    blur intensity beyond the banner on every side. *)
Theorem photo_then_backdrop settings w h natW natH logoFailed :
  let L := Canvas.finalLayout mt settings w h logoFailed natW natH in
  let st := Canvas.styleOf sb settings (inject_Z w) (inject_Z h) L in
  let b := blurIntensity settings in
  exists cx second rest,
    Canvas.ops (Canvas.processRender mt sb settings w h natW natH logoFailed
                  (sizedCanvas w h))
    = (Canvas.defaultCtx, Canvas.DrawImage3 Canvas.SrcImg 0 0)
      :: (cx, second) :: rest /\
    match bannerStyle settings with
    | BLUR =>
        second = (Canvas.DrawImage9 Canvas.SrcImg 0
                    (Qmax 0 (inject_Z h - Canvas.bannerH L)) (inject_Z w)
                    (Qmin (Canvas.bannerH L)
                       (inject_Z h - Qmax 0 (inject_Z h - Canvas.bannerH L)))
                    (- (b * 2)) (inject_Z h - b * 2)
                    (inject_Z w + b * 2 * 2) (Canvas.bannerH L + b * 2 * 2))%Q /\
        Canvas.ctxFilter cx = Canvas.FilterBlur b
    | _ =>
        second = Canvas.FillRect 0 (inject_Z h) (inject_Z w) (Canvas.bannerH L) /\
        Canvas.fillStyle cx = Canvas.bgColor st /\
        Canvas.ctxFilter cx = Canvas.FilterNone
    end.
Proof.
  intros L st b. unfold Canvas.processRender. cbv zeta.
  change (fst (Canvas.fitPass mt (Canvas.ctx (sizedCanvas w h)) settings w
                 (Canvas.initialLayout w h logoFailed natW natH))) with L.
  set (c1 := Canvas.onCtx (Canvas.setShadowColor "transparent")
               (Canvas.onCtx (Canvas.setShadowBlur 0)
                  (Canvas.emit (Canvas.DrawImage3 Canvas.SrcImg 0 0)
                     (Canvas.setHeight (inject_Z h + Canvas.bannerH L)
                        (Canvas.setWidth (inject_Z w) (sizedCanvas w h)))))).
  pose proof (applyStyle_style sb settings (inject_Z w) (inject_Z h) L c1) as Hst.
  fold st in Hst.
  pose proof (applyStyle_effect settings (inject_Z w) (inject_Z h) L c1) as Heff.
  pose proof (ext_applyStyle sb True settings (inject_Z w) (inject_Z h) L c1) as Hext.
  cbv zeta in Heff.
  destruct (Canvas.applyStyle sb settings (inject_Z w) (inject_Z h) L c1)
    as [st' c2]. cbn [fst snd] in Hst, Heff, Hext. subst st'.
  match goal with
  | |- context [Canvas.drawRight mt settings logoFailed st L ?ww ?cy ?ya ?yb
                  (Canvas.drawLeft mt settings logoFailed st L ?cy ?ya ?yb ?c4)] =>
      pose proof (ext_trans _ _ _ _
                    (ext_drawLeft mt settings logoFailed st L cy ya yb c4)
                    (ext_drawRight mt settings logoFailed st L ww cy ya yb
                       (Canvas.drawLeft mt settings logoFailed st L cy ya yb c4)))
        as (_ & _ & m & -> & _)
  end.
  cbn [Canvas.ops Canvas.onCtx].
  destruct (bannerStyle settings) eqn:Es; cbn [style_eqb negb].
  1,2,4: destruct Heff as (Ho & Hf & Hfi); cbn [Canvas.ops Canvas.emit]; rewrite Ho;
    eexists; eexists; eexists; (split; [reflexivity|]);
    (split; [reflexivity|]); (split; [exact Hf | exact Hfi]).
  rewrite Heff. eexists. eexists. eexists. split; [reflexivity|].
  split; reflexivity.
Qed.

End Backdrop.

(** ** Measuring a line *)

Section LineWidth.

Variable mt : Canvas.Font -> string -> Q.

Lemma sumWidths_closed f gap items : forall idx acc n,
  n = (idx + length items)%nat ->
  (Canvas.sumWidths mt f gap n idx items acc
   == acc + sumQ (map (fun i => mt f (text i)) items)
      + inject_Z (Z.of_nat (length items - 1)) * gap)%Q.
Proof.
  induction items as [|x rest IH]; intros idx acc n Hn.
  - simpl. ring.
  - cbn [Canvas.sumWidths map sumQ length].
    rewrite (IH (S idx) _ n) by (rewrite Hn; simpl; lia).
    destruct rest as [|y rest'].
    + assert (E : (idx <? n - 1)%nat = false)
        by (apply Nat.ltb_ge; rewrite Hn; simpl; lia).
      rewrite E. simpl. ring.
    + assert (E : (idx <? n - 1)%nat = true)
        by (apply Nat.ltb_lt; rewrite Hn; simpl; lia).
      rewrite E. cbn [length map sumQ].
      replace (S (S (length rest')) - 1)%nat with (S (length rest' + 1 - 1)) by lia.
      replace (S (length rest') - 1)%nat with (length rest' + 1 - 1)%nat by lia.
      rewrite Nat2Z.inj_succ. unfold Z.succ. rewrite inject_Z_plus. ring.
Qed.

(** The width of a line is the sum of the widths of its non-empty texts
    plus one gap of 2.5 separator widths between consecutive ones: empty
    texts add nothing, and there is no gap before the first or after
    the last text. *)
Theorem line_width_closed_form c items sz b :
  let f := Canvas.Inter b sz in
  (fst (Canvas.measureLine mt c items sz b)
   == sumQ (map (fun i => mt f (text i)) (shown items))
      + inject_Z (Z.of_nat (length (shown items) - 1))
        * (mt f Canvas.SEPARATOR_CHAR * 2.5))%Q.
Proof.
  intros f. unfold Canvas.measureLine. destruct items as [|i rest].
  - simpl. ring.
  - cbv zeta. cbn [fst Canvas.font Canvas.setFont].
    fold (shown (i :: rest)). fold f.
    rewrite sumWidths_closed by reflexivity. ring.
Qed.

End LineWidth.

(** ** The logo box *)

(** A loaded logo of positive natural size keeps its aspect ratio, is at
    most 2.5 banner heights wide and at most [logoH] high. *)
Theorem logo_box_keeps_aspect (bannerH logoH : Q) (natW natH : Z) :
  (0 < natW)%Z -> (0 < natH)%Z -> (0 <= bannerH)%Q -> (0 <= logoH)%Q ->
  let '(lw, lh) := Canvas.logoDims bannerH logoH false natW natH in
  (lw * inject_Z natH == lh * inject_Z natW /\
   lw <= bannerH * 2.5 /\ lh <= logoH)%Q.
Proof.
  intros HW HH Hb Hl. unfold Canvas.logoDims.
  destruct (Z.eqb_spec natW 0) as [E|_]; [lia|].
  destruct (Z.eqb_spec natH 0) as [E|_]; [lia|].
  cbn [negb andb].
  assert (HWq : (0 < inject_Z natW)%Q)
    by (change 0%Q with (inject_Z 0); rewrite <- Zlt_Qlt; exact HW).
  assert (HHq : (0 < inject_Z natH)%Q)
    by (change 0%Q with (inject_Z 0); rewrite <- Zlt_Qlt; exact HH).
  set (W := inject_Z natW) in *. set (H := inject_Z natH) in *.
  destruct (Canvas.Qgtb (logoH * (W / H)) (bannerH * 2.5)) eqn:Eg.
  - apply Qgtb_lt in Eg.
    assert (Hpos : (0 < logoH * (W / H))%Q) by nra.
    assert (Hne : ~ (logoH * (W / H) == 0)%Q) by lra.
    assert (HneH : ~ (H == 0)%Q) by lra.
    assert (HneW : ~ (W == 0)%Q) by lra.
    assert (HneL : ~ (logoH == 0)%Q).
    { intros E. rewrite E in Hpos. lra. }
    repeat split.
    + field. repeat split; assumption.
    + apply Qle_refl.
    + assert (Hr : (bannerH * 2.5 / (logoH * (W / H)) <= 1)%Q).
      { apply Qle_shift_div_r; [exact Hpos|]. lra. }
      assert (Hr0 : (0 <= bannerH * 2.5 / (logoH * (W / H)))%Q).
      { apply Qle_shift_div_l; [exact Hpos|]. lra. }
      nra.
  - apply Qgtb_le in Eg. repeat split.
    + field. lra.
    + exact Eg.
    + apply Qle_refl.
Qed.

Lemma logo_box_keeps_aspect_witness :
  let '(lw, lh) := Canvas.logoDims 120 45.6 false 800 100 in
  (lw * inject_Z 100 == lh * inject_Z 800 /\ lw <= 120 * 2.5 /\ lh <= 45.6)%Q.
Proof.
  apply (logo_box_keeps_aspect 120 45.6 800 100); [lia | lia | discriminate | discriminate].
Defined.

(** ** Rounded rectangles *)

(** [roundRect] traces the closed outline of the box with one corner
    radius that is never more than the radius asked for, nor more than
    half the width or half the height of the box. *)
Theorem roundRect_clamps_radius (x y w h r : Q) (c : Canvas.CanvasEl) :
  exists r',
    Canvas.ops (Canvas.emit Canvas.Fill (Canvas.roundRect x y w h r c))
    = Canvas.ops c ++ map (pair (Canvas.ctx c)) (roundedBox x y w h r') /\
    (r' <= r /\ 2 * r' <= w /\ 2 * r' <= h)%Q.
Proof.
  unfold Canvas.roundRect. cbv zeta.
  set (r1 := if Canvas.Qgtb (2 * r) w then (w / 2)%Q else r).
  set (r2 := if Canvas.Qgtb (2 * r1) h then (h / 2)%Q else r1).
  exists r2. split.
  - simpl. rewrite <- !app_assoc. reflexivity.
  - assert (Hw : (2 * (w / 2) == w)%Q) by field.
    assert (Hh : (2 * (h / 2) == h)%Q) by field.
    assert (H1 : (r1 <= r /\ 2 * r1 <= w)%Q).
    { subst r1. destruct (Canvas.Qgtb (2 * r) w) eqn:E.
      - apply Qgtb_lt in E. split; [|rewrite Hw; apply Qle_refl].
        apply (Qmult_le_l _ _ 2); [reflexivity|]. rewrite Hw. lra.
      - apply Qgtb_le in E. split; lra. }
    destruct H1 as [H1a H1b].
    subst r2. destruct (Canvas.Qgtb (2 * r1) h) eqn:E.
    + apply Qgtb_lt in E.
      assert (Hr : (h / 2 <= r1)%Q).
      { apply (Qmult_le_l _ _ 2); [reflexivity|]. rewrite Hh. lra. }
      repeat split; [lra | rewrite Hh; lra | rewrite Hh; apply Qle_refl].
    + apply Qgtb_le in E. repeat split; lra.
Qed.

(** ** Buckets of the colour sampler *)

Section Descending.
Context {A : Type}.
Variable key : A -> Z.

Let cmp : A -> A -> Z := fun a b => key b - key a.

Lemma insertSorted_head x l y r :
  Arr.insertSorted cmp x l = y :: r ->
  (forall z, In z l -> forall hd tl, l = hd :: tl -> key z <= key hd) ->
  forall z, In z (x :: l) -> key z <= key y.
Proof.
  destruct l as [|a t]; simpl.
  - intros [= <- <-] _ z [<-|[]]. lia.
  - unfold cmp at 1. destruct (Z.leb_spec (key a - key x) 0) as [H|H].
    + intros [= <- <-] Hmax z [<-|Hz]; [lia|].
      specialize (Hmax z Hz a t eq_refl). lia.
    + intros [= <- <-] Hmax z [<-|Hz]; [lia|].
      exact (Hmax z Hz a t eq_refl).
Qed.

(** The head of a list sorted by descending key has the largest key. *)
Lemma sort_head_max l : forall y r,
  Arr.sort cmp l = y :: r -> forall z, In z l -> key z <= key y.
Proof.
  induction l as [|x t IH]; intros y r Hs z Hz; [destruct Hz|].
  simpl in Hs.
  assert (Hmax : forall z, In z (Arr.sort cmp t) ->
                   forall hd tl, Arr.sort cmp t = hd :: tl -> key z <= key hd).
  { intros z' Hz' hd tl E. apply (IH hd tl E).
    apply (Permutation_in _ (sort_perm cmp t)). exact Hz'. }
  apply (insertSorted_head x _ y r Hs Hmax).
  destruct Hz as [<-|Hz]; [now left | right].
  apply (Permutation_in _ (Permutation_sym (sort_perm cmp t))). exact Hz.
Qed.

End Descending.

Lemma totalCount_perm l l' : Permutation l l' -> totalCount l = totalCount l'.
Proof.
  induction 1; simpl; lia.
Qed.

Lemma bump_sound key r g b m :
  isByte r -> isByte g -> isByte b ->
  Forall (fun e => sound (snd e)) m ->
  Forall (fun e => sound (snd e)) (Canvas.bump key r g b m).
Proof.
  unfold isByte. intros Hr Hg Hb Hm.
  induction Hm as [|[k a] t Ha Ht IH]; simpl.
  - constructor; [|constructor]. unfold sound. simpl. lia.
  - destruct (String.eqb k key).
    + constructor; [|exact Ht]. unfold sound in *. simpl in *. lia.
    + constructor; [exact Ha | exact IH].
Qed.

Lemma bump_count key r g b m :
  totalCount (map (fun e => Canvas.toBucket (snd e)) (Canvas.bump key r g b m))
  = 1 + totalCount (map (fun e => Canvas.toBucket (snd e)) m).
Proof.
  induction m as [|[k a] t IH]; simpl; [lia|].
  destruct (String.eqb k key); simpl; lia.
Qed.

Lemma accumulate_inv data : forall m,
  Forall isByte data ->
  Forall (fun e => sound (snd e)) m ->
  Forall (fun e => sound (snd e)) (Canvas.accumulate data m) /\
  totalCount (map (fun e => Canvas.toBucket (snd e)) (Canvas.accumulate data m))
  = pixels data + totalCount (map (fun e => Canvas.toBucket (snd e)) m).
Proof.
  assert (Hgen : forall n data, (length data <= n)%nat -> forall m,
            Forall isByte data ->
            Forall (fun e => sound (snd e)) m ->
            Forall (fun e => sound (snd e)) (Canvas.accumulate data m) /\
            totalCount (map (fun e => Canvas.toBucket (snd e))
                          (Canvas.accumulate data m))
            = pixels data
              + totalCount (map (fun e => Canvas.toBucket (snd e)) m));
    [|intros m; apply (Hgen (length data) data (le_n _))].
  clear data. induction n as [|n IHn]; intros data Hlen m Hd Hm.
  { destruct data; [split; [exact Hm | reflexivity] | simpl in Hlen; lia]. }
  assert (IH : forall rest, (length rest < length data)%nat ->
            forall m, Forall isByte rest ->
            Forall (fun e => sound (snd e)) m ->
            Forall (fun e => sound (snd e)) (Canvas.accumulate rest m) /\
            totalCount (map (fun e => Canvas.toBucket (snd e))
                          (Canvas.accumulate rest m))
            = pixels rest
              + totalCount (map (fun e => Canvas.toBucket (snd e)) m))
    by (intros rest Hr; apply IHn; lia).
  clear IHn.
  destruct data as [|r [|g [|b [|a rest]]]]; try (split; [exact Hm | reflexivity]).
  inversion Hd as [|? ? Hr Hd1]; subst. inversion Hd1 as [|? ? Hg Hd2]; subst.
  inversion Hd2 as [|? ? Hb Hd3]; subst. inversion Hd3 as [|? ? _ Hd4]; subst.
  destruct (IH rest) with (m := Canvas.bump (Canvas.keyOf r g b) r g b m)
    as [Hs Hc].
  - simpl. lia.
  - exact Hd4.
  - now apply bump_sound.
  - split; [exact Hs|].
    change (Canvas.accumulate (r :: g :: b :: a :: rest) m)
      with (Canvas.accumulate rest (Canvas.bump (Canvas.keyOf r g b) r g b m)).
    rewrite Hc, bump_count.
    change (pixels (r :: g :: b :: a :: rest)) with (1 + pixels rest). lia.
Qed.

Lemma avg_byte (s n : Z) :
  0 < n -> 0 <= s <= 255 * n -> isByte (Canvas.avg s n).
Proof.
  intros Hn [Hs0 Hs1]. unfold isByte, Canvas.avg, Canvas.round.
  assert (Hnq : (0 < inject_Z n)%Q)
    by (change 0%Q with (inject_Z 0); now rewrite <- Zlt_Qlt).
  assert (H0 : (0 <= inject_Z s / inject_Z n)%Q).
  { apply Qle_shift_div_l; [exact Hnq|]. rewrite Qmult_0_l.
    change 0%Q with (inject_Z 0). now rewrite <- Zle_Qle. }
  assert (H1 : (inject_Z s / inject_Z n <= 255)%Q).
  { apply Qle_shift_div_r; [exact Hnq|].
    change 255%Q with (inject_Z 255). rewrite <- inject_Z_mult.
    now rewrite <- Zle_Qle. }
  split.
  - change 0 with (Qfloor 0). apply Qfloor_resp_le. lra.
  - change 255 with (Qfloor (255 + (1 # 2))). apply Qfloor_resp_le. lra.
Qed.

Lemma toBucket_bytes a :
  sound a ->
  isByte (Canvas.r (Canvas.toBucket a)) /\
  isByte (Canvas.g (Canvas.toBucket a)) /\
  isByte (Canvas.b (Canvas.toBucket a)) /\
  Canvas.hex (Canvas.toBucket a)
  = rgbString (Canvas.r (Canvas.toBucket a)) (Canvas.g (Canvas.toBucket a))
      (Canvas.b (Canvas.toBucket a)).
Proof.
  intros (Hn & Hr & Hg & Hb). unfold Canvas.toBucket. cbv zeta.
  cbn [Canvas.r Canvas.g Canvas.b Canvas.hex].
  repeat split; try (apply avg_byte; assumption).
Qed.

Lemma findSecondary_spec d rest :
  match Canvas.findSecondary d rest with
  | Some x => exists l1 l2, rest = l1 ++ x :: l2 /\ Canvas.farFrom d x = true /\
                            Forall (fun y => Canvas.farFrom d y = false) l1
  | None => Forall (fun y => Canvas.farFrom d y = false) rest
  end.
Proof.
  induction rest as [|x t IH]; simpl; [constructor|].
  destruct (Canvas.farFrom d x) eqn:E.
  - exists [], t. repeat split; [exact E | constructor].
  - destruct (Canvas.findSecondary d t) as [y|].
    + destruct IH as (l1 & l2 & -> & Hy & Hl).
      exists (x :: l1), l2. repeat split; [exact Hy | constructor; assumption].
    + constructor; assumption.
Qed.

(** *** The entries of [colorMap] are the totals of the grid cells *)

Lemma cellEqb_eq c c' : cellEqb c c' = true <-> c = c'.
Proof.
  destruct c as [[x y] z], c' as [[x' y'] z']. unfold cellEqb, red, green, blue.
  cbn [fst snd]. rewrite !andb_true_iff, !Z.eqb_eq.
  split; [intros [[-> ->] ->]; reflexivity | intros [= -> -> ->]; auto].
Qed.

Lemma cellEqb_refl c : cellEqb c c = true.
Proof. now apply cellEqb_eq. Qed.

Lemma range8_in x : 0 <= x <= 7 -> In x range8.
Proof.
  intros H.
  assert (E : x = 0 \/ x = 1 \/ x = 2 \/ x = 3 \/ x = 4 \/ x = 5 \/ x = 6 \/ x = 7)
    by lia.
  unfold range8. simpl. intuition.
Qed.

Lemma cellOf_in_cells p : bytePixel p -> In (cellOf p) cells.
Proof.
  unfold bytePixel, isByte. intros (Hr & Hg & Hb). unfold cells, cellOf.
  apply in_prod; [apply in_prod|]; apply range8_in;
    Z.div_mod_to_equations; lia.
Qed.

Lemma keyStr_inj c c' :
  In c cells -> In c' cells -> keyStr c = keyStr c' -> c = c'.
Proof.
  intros Hc Hc' E.
  assert (K : keysDistinct = true) by (vm_compute; reflexivity).
  unfold keysDistinct in K. rewrite forallb_forall in K. specialize (K c Hc).
  rewrite forallb_forall in K. specialize (K c' Hc').
  rewrite E, String.eqb_refl in K. cbn [implb] in K. now apply cellEqb_eq.
Qed.

Lemma keyOf_keyStr r g b : Canvas.keyOf r g b = keyStr (cellOf (r, g, b)).
Proof. reflexivity. Qed.

Lemma sumOf_app f l l' : sumOf f (l ++ l') = sumOf f l + sumOf f l'.
Proof. induction l as [|p t IH]; simpl; [reflexivity | rewrite IH; lia]. Qed.

Lemma within_snoc cell ps p :
  within cell (ps ++ [p])
  = within cell ps ++ (if cellEqb (cellOf p) cell then [p] else []).
Proof. unfold within. rewrite List.filter_app. reflexivity. Qed.

Lemma within_In cell ps p : In p (within cell ps) -> In p ps /\ cellOf p = cell.
Proof.
  unfold within. intros H. apply filter_In in H as [H1 H2].
  split; [exact H1 | now apply cellEqb_eq].
Qed.

Lemma bump_keys key r g b m :
  (In key (map fst m) /\ map fst (Canvas.bump key r g b m) = map fst m) \/
  (~ In key (map fst m) /\
   map fst (Canvas.bump key r g b m) = map fst m ++ [key]).
Proof.
  induction m as [|[k a] t IH]; simpl.
  - right. split; [tauto | reflexivity].
  - destruct (String.eqb k key) eqn:E.
    + apply String.eqb_eq in E. left. split; [now left | reflexivity].
    + apply String.eqb_neq in E. simpl. destruct IH as [[Hi Hm] | [Hi Hm]].
      * left. split; [now right | now rewrite Hm].
      * right. split; [intros [H|H]; [congruence | tauto] | now rewrite Hm].
Qed.

Lemma bump_NoDup key r g b m :
  List.NoDup (map fst m) -> List.NoDup (map fst (Canvas.bump key r g b m)).
Proof.
  intros H. destruct (bump_keys key r g b m) as [[_ ->] | [Hn ->]]; [exact H|].
  apply List.NoDup_app; [exact H | repeat constructor; tauto |].
  intros k Hk [<-|[]]. tauto.
Qed.

(** Where an entry of the map after one iteration comes from. *)
Lemma bump_In key r g b m k a' :
  List.NoDup (map fst m) ->
  In (k, a') (Canvas.bump key r g b m) ->
  (k <> key /\ In (k, a') m) \/
  (k = key /\
   exists a, In (key, a) m /\
     a' = Canvas.mkAcc (Canvas.acount a + 1) (Canvas.ar a + r)
            (Canvas.ag a + g) (Canvas.ab a + b)) \/
  (k = key /\ ~ In key (map fst m) /\ a' = Canvas.mkAcc 1 r g b).
Proof.
  induction m as [|[k0 a0] t IH]; simpl; intros Hn Hi.
  - destruct Hi as [[= <- <-]|[]]. right. right. tauto.
  - apply List.NoDup_cons_iff in Hn as [Hk0 Hn].
    destruct (String.eqb k0 key) eqn:E.
    + apply String.eqb_eq in E. subst k0. destruct Hi as [[= <- <-]|Hi].
      * right. left. split; [reflexivity|]. exists a0. split; [now left | reflexivity].
      * left. split; [|now right]. intros ->. apply Hk0.
        apply in_map_iff. exists (key, a'). split; [reflexivity | exact Hi].
    + apply String.eqb_neq in E. destruct Hi as [[= <- <-]|Hi].
      * left. split; [exact E | now left].
      * destruct (IH Hn Hi) as [[H1 H2] | [[H1 (a & H2 & H3)] | (H1 & H2 & H3)]].
        -- left. split; [exact H1 | now right].
        -- right. left. split; [exact H1|]. exists a. split; [now right | exact H3].
        -- right. right. split; [exact H1|]. split; [|exact H3].
           intros [H|H]; [congruence | tauto].
Qed.

Lemma bump_has key r g b m : exists a, In (key, a) (Canvas.bump key r g b m).
Proof.
  induction m as [|[k0 a0] t IH]; simpl.
  - eexists. now left.
  - destruct (String.eqb k0 key) eqn:E.
    + apply String.eqb_eq in E. subst k0. eexists. now left.
    + destruct IH as [a Ha]. exists a. now right.
Qed.

Lemma bump_keeps key r g b m k a :
  In (k, a) m -> exists a', In (k, a') (Canvas.bump key r g b m).
Proof.
  induction m as [|[k0 a0] t IH]; simpl; [tauto|].
  intros [[= -> ->]|Hi].
  - destruct (String.eqb k key); eexists; now left.
  - destruct (String.eqb k0 key).
    + exists a. now right.
    + destruct (IH Hi) as [a' Ha']. exists a'. now right.
Qed.

(** One iteration of the pixel loop keeps the map in step with the
    pixels visited. *)
Lemma bump_tracks ps m p :
  bytePixel p -> tracks ps m ->
  tracks (ps ++ [p])
    (Canvas.bump (keyStr (cellOf p)) (red p) (green p) (blue p) m).
Proof.
  intros Hp (Hn & H1 & H2). split; [now apply bump_NoDup|]. split.
  - intros k a' Hi.
    destruct (bump_In _ _ _ _ _ _ _ Hn Hi)
      as [[Hk Hm] | [[Hk (a & Hm & Ha)] | (Hk & Hm & Ha)]].
    + destruct (H1 k a' Hm) as (cell & Hc & Ek & Hne & Hcount & Hr & Hg & Hb).
      exists cell. split; [exact Hc|]. split; [exact Ek|].
      assert (E : cellEqb (cellOf p) cell = false).
      { destruct (cellEqb (cellOf p) cell) eqn:E; [|reflexivity].
        apply cellEqb_eq in E. subst cell. congruence. }
      unfold holds. rewrite within_snoc, E, app_nil_r. tauto.
    + subst k. destruct (H1 _ a Hm) as (cell & Hc & Ek & Hne & Hcount & Hr & Hg & Hb).
      apply keyStr_inj in Ek; [|now apply cellOf_in_cells | exact Hc]. subst cell.
      exists (cellOf p). split; [exact Hc|]. split; [reflexivity|].
      unfold holds. rewrite within_snoc, cellEqb_refl, !sumOf_app, length_app.
      subst a'. cbn [Canvas.acount Canvas.ar Canvas.ag Canvas.ab sumOf length].
      split; [intros E; now apply app_eq_nil in E as [_ E]|].
      repeat split; lia.
    + subst k. exists (cellOf p). split; [now apply cellOf_in_cells|].
      split; [reflexivity|].
      assert (E : within (cellOf p) ps = []).
      { destruct (within (cellOf p) ps) as [|q t] eqn:E; [reflexivity|].
        exfalso. apply Hm.
        assert (Hq : In q (within (cellOf p) ps)) by (rewrite E; now left).
        apply within_In in Hq as [Hq Eq]. destruct (H2 q Hq) as [_ [a Ha']].
        rewrite Eq in Ha'. apply in_map_iff. now exists (keyStr (cellOf p), a). }
      unfold holds. rewrite within_snoc, cellEqb_refl, E. subst a'.
      cbn [app Canvas.acount Canvas.ar Canvas.ag Canvas.ab sumOf length].
      split; [discriminate|]. repeat split; lia.
  - intros q Hq. apply in_app_or in Hq as [Hq|[<-|[]]].
    + destruct (H2 q Hq) as [Hc [a Ha]].
      split; [exact Hc | now apply bump_keeps with (a := a)].
    + split; [now apply cellOf_in_cells | apply bump_has].
Qed.

(** The loop keeps the map in step with the pixels visited. *)
Lemma accumulate_tracks data : forall ps m,
  Forall isByte data -> tracks ps m ->
  tracks (ps ++ pixelsOf data) (Canvas.accumulate data m).
Proof.
  assert (Hgen : forall n data, (length data <= n)%nat -> forall ps m,
            Forall isByte data -> tracks ps m ->
            tracks (ps ++ pixelsOf data) (Canvas.accumulate data m));
    [|intros ps m; apply (Hgen (length data) data (le_n _))].
  clear data. induction n as [|n IHn]; intros data Hlen ps m Hd Hm.
  { destruct data; [simpl; now rewrite app_nil_r | simpl in Hlen; lia]. }
  destruct data as [|r [|g [|b [|a rest]]]];
    try (simpl; now rewrite app_nil_r).
  inversion Hd as [|? ? Hr Hd1]; subst. inversion Hd1 as [|? ? Hg Hd2]; subst.
  inversion Hd2 as [|? ? Hb Hd3]; subst. inversion Hd3 as [|? ? _ Hd4]; subst.
  change (Canvas.accumulate (r :: g :: b :: a :: rest) m)
    with (Canvas.accumulate rest (Canvas.bump (Canvas.keyOf r g b) r g b m)).
  change (pixelsOf (r :: g :: b :: a :: rest)) with ((r, g, b) :: pixelsOf rest).
  replace (ps ++ (r, g, b) :: pixelsOf rest)
    with ((ps ++ [(r, g, b)]) ++ pixelsOf rest)
    by (now rewrite <- app_assoc).
  apply IHn; [simpl in Hlen |- *; lia | exact Hd4 |].
  rewrite keyOf_keyStr. apply (bump_tracks ps m (r, g, b)); [|exact Hm].
  split; [exact Hr | split; [exact Hg | exact Hb]].
Qed.

(** [Math.round] of a quotient is the nearest integer. *)
Lemma avg_nearest s n : 0 < n -> nearest s n (Canvas.avg s n).
Proof.
  intros Hn. unfold nearest, Canvas.avg, Canvas.round.
  set (y := (inject_Z s / inject_Z n)%Q).
  assert (Hnq : (0 < inject_Z n)%Q)
    by (change 0%Q with (inject_Z 0); now rewrite <- Zlt_Qlt).
  assert (Hy : (y * inject_Z n == inject_Z s)%Q).
  { unfold y. rewrite Qmult_comm. apply Qmult_div_r.
    intros E. rewrite E in Hnq. discriminate. }
  pose proof (Qfloor_le (y + (1 # 2))) as Hlo.
  pose proof (Qlt_floor (y + (1 # 2))) as Hhi.
  set (q := Qfloor (y + (1 # 2))) in *. clearbody q y.
  rewrite inject_Z_plus in Hhi. change (inject_Z 1) with 1%Q in Hhi.
  split.
  - rewrite Zle_Qle, !inject_Z_mult, inject_Z_plus, inject_Z_mult.
    change (inject_Z 2) with 2%Q. nra.
  - rewrite Zlt_Qlt, !inject_Z_mult, !inject_Z_plus, inject_Z_mult.
    change (inject_Z 2) with 2%Q. change (inject_Z 1) with 1%Q. nra.
Qed.

Lemma tracks_nil : tracks [] [].
Proof.
  split; [constructor|]. split; intros ?; [intros ? [] | intros []].
Qed.

(** Every bucket is the average of the pixels of one grid cell. *)
Lemma toBucket_averages data k a :
  Forall isByte data ->
  In (k, a) (Canvas.accumulate data []) ->
  averages data (Canvas.toBucket a).
Proof.
  intros Hd Hi.
  destruct (accumulate_tracks data [] [] Hd tracks_nil) as (_ & H1 & _).
  cbn [app] in H1.
  destruct (H1 k a Hi) as (cell & Hc & Ek & Hne & Hcount & Hr & Hg & Hb).
  assert (Hpos : 0 < Canvas.acount a).
  { rewrite Hcount. destruct (within cell (pixelsOf data)); [congruence|].
    simpl. lia. }
  exists cell. unfold members. unfold Canvas.toBucket. cbv zeta.
  cbn [Canvas.count Canvas.r Canvas.g Canvas.b Canvas.hex].
  split; [exact Hcount|]. split; [exact Hpos|].
  rewrite <- Hr, <- Hg, <- Hb.
  repeat split; try (apply avg_nearest; exact Hpos).
Qed.

(** Every grid cell met by the band has its entry in the map. *)
Lemma cell_has_bucket data cell :
  Forall isByte data -> members cell data <> [] ->
  exists k a, In (k, a) (Canvas.accumulate data []) /\
              Canvas.acount a = Z.of_nat (length (members cell data)).
Proof.
  intros Hd Hne.
  destruct (accumulate_tracks data [] [] Hd tracks_nil) as (_ & H1 & H2).
  cbn [app] in H1, H2. unfold members in *.
  destruct (within cell (pixelsOf data)) as [|p t] eqn:E; [congruence|].
  assert (Hp : In p (within cell (pixelsOf data))) by (rewrite E; now left).
  apply within_In in Hp as [Hp Ec]. destruct (H2 p Hp) as [Hc [a Ha]].
  rewrite Ec in Hc, Ha.
  destruct (H1 _ a Ha) as (cell' & Hc' & Ek & _ & Hcount & _).
  apply keyStr_inj in Ek; [|exact Hc | exact Hc']. subst cell'.
  exists (keyStr cell), a. split; [exact Ha|]. now rewrite Hcount, E.
Qed.

(** For a band of at least one pixel with channel values in 0..255, the
    dominant colour is "rgb(r, g, b)" for the rounded channel averages
    of a bucket that no other bucket outnumbers, the averages are again
    in 0..255, and the bucket counts add up to the number of pixels.
    Every bucket stands for one cell of the 8 x 8 x 8 colour grid: its
    count is the number of pixels of the band in that cell and its
    channels are their averages, rounded to the nearest integer; no cell
    holds more pixels than the dominant bucket counts.
    The secondary colour is that of the first bucket, in descending
    count order, whose squared distance from the dominant one exceeds
    3600, and black or white when there is none. *)
Theorem dominant_is_most_frequent (data : list Z) :
  Forall isByte data -> 0 < pixels data ->
  exists d rest,
    bucketsOf data = d :: rest /\
    Canvas.dominant (Canvas.dominantOfData data)
    = rgbString (Canvas.r d) (Canvas.g d) (Canvas.b d) /\
    isByte (Canvas.r d) /\ isByte (Canvas.g d) /\ isByte (Canvas.b d) /\
    (forall x, In x rest -> Canvas.count x <= Canvas.count d) /\
    totalCount (d :: rest) = pixels data /\
    Forall (averages data) (d :: rest) /\
    (forall cell, Z.of_nat (length (members cell data)) <= Canvas.count d) /\
    ((exists l1 x l2, rest = l1 ++ x :: l2 /\
        Forall (fun y => Canvas.distSq y d <= 3600) l1 /\
        3600 < Canvas.distSq x d /\
        Canvas.secondary (Canvas.dominantOfData data) = Canvas.hex x)
     \/ (Forall (fun y => Canvas.distSq y d <= 3600) rest /\
         (Canvas.secondary (Canvas.dominantOfData data) = "#000000" \/
          Canvas.secondary (Canvas.dominantOfData data) = "#ffffff"))).
Proof.
  intros Hd Hp.
  destruct (accumulate_inv data [] Hd (List.Forall_nil _)) as [Hs Hc].
  simpl in Hc. rewrite Z.add_0_r in Hc.
  set (raw := map (fun e => Canvas.toBucket (snd e)) (Canvas.accumulate data [])) in *.
  assert (Hperm : Permutation (bucketsOf data) raw) by apply sort_perm.
  assert (Htot : totalCount (bucketsOf data) = pixels data)
    by (rewrite (totalCount_perm _ _ Hperm); exact Hc).
  destruct (bucketsOf data) as [|d rest] eqn:Eb.
  { simpl in Htot. lia. }
  exists d, rest. split; [reflexivity|].
  assert (Hin : In d raw) by (apply (Permutation_in _ Hperm); now left).
  apply in_map_iff in Hin as ([k a] & <- & Hin). cbn [snd].
  rewrite List.Forall_forall in Hs. specialize (Hs (k, a) Hin). cbn [snd] in Hs.
  destruct (toBucket_bytes a Hs) as (Br & Bg & Bb & Hhex).
  assert (Edom : Canvas.dominantOfData data
                 = Canvas.mkColors (Canvas.hex (Canvas.toBucket a))
                     (Canvas.hex
                        (match Canvas.findSecondary (Canvas.toBucket a) rest with
                         | Some s => s
                         | None => if Canvas.Qgtb (Canvas.brightnessOf (Canvas.toBucket a)) 128
                                   then Canvas.blackBucket else Canvas.whiteBucket
                         end))).
  { unfold Canvas.dominantOfData. fold raw. unfold bucketsOf in Eb. fold raw in Eb.
    rewrite Eb. reflexivity. }
  rewrite Edom. cbn [Canvas.dominant Canvas.secondary].
  split; [exact Hhex|]. split; [exact Br|]. split; [exact Bg|]. split; [exact Bb|].
  split.
  { intros x Hx. unfold bucketsOf in Eb. fold raw in Eb.
    apply (sort_head_max Canvas.count raw _ rest Eb).
    apply (Permutation_in _ Hperm). now right. }
  split; [exact Htot|].
  split.
  { apply List.Forall_forall. intros x Hx.
    apply (Permutation_in _ Hperm) in Hx.
    apply in_map_iff in Hx as ([k' a'] & <- & Hx). cbn [snd].
    now apply toBucket_averages with (k := k'). }
  split.
  { intros cell. destruct (members cell data) as [|p t] eqn:Em.
    - destruct Hs as [Hs _]. cbn [length Canvas.toBucket Canvas.count]. lia.
    - rewrite <- Em.
      destruct (cell_has_bucket data cell Hd) as (k' & a' & Hi & <-);
        [rewrite Em; discriminate|].
      unfold bucketsOf in Eb. fold raw in Eb.
      apply (sort_head_max Canvas.count raw _ rest Eb (Canvas.toBucket a')).
      apply in_map_iff. now exists (k', a'). }
  assert (Hnear : forall l, Forall (fun y => Canvas.farFrom (Canvas.toBucket a) y = false) l ->
                            Forall (fun y => Canvas.distSq y (Canvas.toBucket a) <= 3600) l).
  { intros l. apply List.Forall_impl. intros y Hy. unfold Canvas.farFrom in Hy.
    apply Z.ltb_ge in Hy. exact Hy. }
  pose proof (findSecondary_spec (Canvas.toBucket a) rest) as Hsec.
  destruct (Canvas.findSecondary (Canvas.toBucket a) rest) as [x|].
  - left. destruct Hsec as (l1 & l2 & -> & Hx & Hl).
    exists l1, x, l2. split; [reflexivity|]. split; [now apply Hnear|].
    split; [|reflexivity]. unfold Canvas.farFrom in Hx. now apply Z.ltb_lt in Hx.
  - right. split; [now apply Hnear|].
    destruct (Canvas.Qgtb _ _); [now left | now right].
Qed.

Lemma dominant_is_most_frequent_witness :
  exists d rest,
    bucketsOf [200; 10; 10; 255; 128; 128; 128; 255; 129; 128; 128; 255]
    = d :: rest /\
    Canvas.count d = 2 /\ Canvas.r d = 129 /\ Canvas.g d = 128 /\
    totalCount (d :: rest) = 3 /\
    Forall (averages [200; 10; 10; 255; 128; 128; 128; 255; 129; 128; 128; 255])
      (d :: rest) /\
    Z.of_nat (length (members (4, 4, 4)
                        [200; 10; 10; 255; 128; 128; 128; 255; 129; 128; 128; 255]))
    <= Canvas.count d.
Proof.
  destruct (dominant_is_most_frequent
              [200; 10; 10; 255; 128; 128; 128; 255; 129; 128; 128; 255])
    as (d & rest & Hb & _ & _ & _ & _ & _ & Ht & Ha & Hc & _).
  - repeat constructor; unfold isByte; lia.
  - reflexivity.
  - exists d, rest. split; [exact Hb|].
    split; [|split; [|split; [|split; [exact Ht | split; [exact Ha | apply Hc]]]]];
      vm_compute in Hb; injection Hb as <- _; reflexivity.
Defined.

(** ** The record of [extractExifData] *)

Lemma append_not_empty (a b : string) (c : ascii) :
  a +:+ String c b <> EmptyString.
Proof. destruct a; discriminate. Qed.

Lemma chars_cut s :
  chars s = match cut s with
            | None => []
            | Some (ch, r) => ch :: chars r
            end.
Proof.
  destruct s as [|c1 [|c2 [|c3 [|c4 r]]]]; cbn [chars cut];
    try reflexivity; destruct (width c1) as [|[|[|[|[|n]]]]]; reflexivity.
Qed.

(** A first character is found again when what follows it is replaced
    by a string that is not longer. *)
Lemma cut_spec s ch r :
  cut s = Some (ch, r) ->
  s = ch +:+ r /\
  (String.length r < String.length s)%nat /\
  forall t, (String.length t <= String.length r)%nat -> cut (ch +:+ t) = Some (ch, t).
Proof.
  destruct s as [|c1 r1]; [discriminate|]. cbn [cut].
  destruct (width c1) as [|[|[|[|[|n]]]]] eqn:W;
    destruct r1 as [|c2 [|c3 [|c4 r4]]]; intros [= <- <-]; sapp;
    (split; [reflexivity|]); (split; [cbn [String.length]; lia|]);
    intros t Ht; sapp; cbn [cut]; rewrite W; cbn [String.length] in Ht;
    try reflexivity;
    destruct t as [|t1 [|t2 [|t3 t4]]]; cbn [String.length] in Ht; try lia;
    reflexivity.
Qed.

Lemma join_chars s : join (chars s) = s.
Proof.
  remember (String.length s) as n eqn:En. revert s En.
  induction n as [n IH] using lt_wf_ind. intros s ->.
  rewrite chars_cut. destruct (cut s) as [[ch r]|] eqn:E.
  - destruct (cut_spec _ _ _ E) as (-> & Hl & _).
    cbn [join fold_right]. fold (join (chars r)).
    now rewrite (IH _ Hl r eq_refl).
  - destruct s; [reflexivity | discriminate].
Qed.

Lemma length_join_filter (p : string -> bool) l :
  (String.length (join (List.filter p l)) <= String.length (join l))%nat.
Proof.
  induction l as [|a l IH]; [reflexivity|]. cbn [List.filter join fold_right].
  fold (join l). destruct (p a); cbn [join fold_right];
    fold (join (List.filter p l)); rewrite ?length_append; lia.
Qed.

(** Dropping characters and splitting again gives the characters that
    were kept. *)
Lemma chars_filter (p : string -> bool) s :
  chars (join (List.filter p (chars s))) = List.filter p (chars s).
Proof.
  remember (String.length s) as n eqn:En. revert s En.
  induction n as [n IH] using lt_wf_ind. intros s ->.
  rewrite (chars_cut s). destruct (cut s) as [[ch r]|] eqn:E; [|reflexivity].
  destruct (cut_spec _ _ _ E) as (_ & Hl & Hst).
  cbn [List.filter]. destruct (p ch).
  - cbn [join fold_right]. fold (join (List.filter p (chars r))).
    rewrite chars_cut, Hst.
    + now rewrite (IH _ Hl r eq_refl).
    + etransitivity; [apply length_join_filter|]. now rewrite join_chars.
  - exact (IH _ Hl r eq_refl).
Qed.

Lemma removeSpaces_chars s :
  Forall (fun ch => isSpace ch = false) (chars (removeSpaces s)).
Proof.
  unfold removeSpaces. rewrite chars_filter.
  apply List.Forall_forall. intros ch Hin. apply filter_In in Hin as [_ H].
  now apply negb_true_iff in H.
Qed.

Lemma normDate_not_empty now d : Exif.normDate now d <> EmptyString.
Proof.
  unfold Exif.normDate. destruct (truthy d) eqn:Ed.
  - destruct (splitSpace d) as [|p0 rest].
    + destruct d; [discriminate Ed | discriminate].
    + change (" " +:+ orElse match rest with
                             | [] => EmptyString
                             | p1 :: _ => p1
                             end EmptyString)
        with (String " " (orElse match rest with
                                 | [] => EmptyString
                                 | p1 :: _ => p1
                                 end EmptyString)).
      apply append_not_empty.
  - unfold Exif.formatNow.
    change ("." +:+ ?x) with (String "." x). apply append_not_empty.
Qed.

(** Every record that [extractExifData] returns has a non-empty model
    and date, an aperture that is empty or starts with "f/", a shutter
    time that is empty or ends with "s", and a focal length none of
    whose characters is white space (the class [\s]: the ASCII ones,
    the no-break space, the Unicode spaces and line separators, the
    byte-order mark). *)
Theorem extracted_record_shape pf ns now (tags : gmap string Exif.Tag) e :
  Exif.extractExifData pf ns now tags = Exif.Returned e ->
  Exif.model e <> EmptyString /\
  Exif.dateTime e <> EmptyString /\
  (Exif.fNumber e = EmptyString \/ startsWith (Exif.fNumber e) "f/" = true) /\
  (Exif.exposureTime e = EmptyString \/ endsWith (Exif.exposureTime e) "s" = true) /\
  Forall (fun ch => isSpace ch = false) (chars (Exif.focalLength e)).
Proof.
  intros He.
  destruct (extract_fields _ _ _ _ _ He) as (-> & -> & -> & _ & -> & -> & _).
  split; [|split; [|split; [|split]]].
  - unfold orElse. destruct (Exif.desc tags "Model"); simpl; discriminate.
  - apply normDate_not_empty.
  - unfold Exif.normFNumber.
    destruct (Exif.desc tags "FNumber") as [|c r] eqn:E; [now left|].
    right. cbn [truthy andb].
    destruct (startsWith (String c r) "f/") eqn:Es; [exact Es|].
    cbn [negb]. apply startsWith_append.
  - unfold Exif.normExposure.
    destruct (Exif.desc tags "ExposureTime") as [|c r] eqn:E; [now left|].
    right. cbn [truthy andb].
    destruct (endsWith (String c r) "s") eqn:Es; [exact Es|].
    cbn [negb]. apply endsWith_append.
  - apply removeSpaces_chars.
Qed.

Lemma extracted_record_shape_witness :
  exists e,
    Exif.extractExifData noFloat noString noon spacedTags = Exif.Returned e /\
    Exif.focalLength e = "24mm" /\
    Exif.model e <> EmptyString.
Proof.
  eexists. split; [vm_compute; reflexivity|]. split; [vm_compute; reflexivity|].
  match goal with
  | |- Exif.model ?e <> _ =>
      apply (extracted_record_shape noFloat noString noon spacedTags e)
  end.
  vm_compute. reflexivity.
Defined.

(** Capture dates that are not of the two-part form: a description
    without a space (a date only) comes out with its colons turned into
    dots and a trailing space; of a description with more than one
    space only the first two parts are kept. *)
Theorem date_edge_cases pf ns now (tags : gmap string Exif.Tag) t e :
  tags !! "DateTimeOriginal" = Some t ->
  Exif.extractExifData pf ns now tags = Exif.Returned e ->
  (Exif.description t <> EmptyString ->
   lacks " " (Exif.description t) = true ->
   Exif.dateTime e = replaceColons (Exif.description t) +:+ " ") /\
  (forall a b c,
     Exif.description t = a +:+ " " +:+ b +:+ " " +:+ c ->
     lacks " " a = true -> lacks " " b = true ->
     Exif.dateTime e = replaceColons a +:+ " " +:+ b).
Proof.
  intros Ht He.
  destruct (extract_fields _ _ _ _ _ He) as (_ & _ & _ & _ & _ & -> & _).
  unfold Exif.desc. rewrite Ht.
  unfold Exif.normDate. split.
  - intros Hne Hl. destruct (Exif.description t) as [|c r] eqn:E; [now destruct Hne|].
    cbn [truthy]. rewrite (splitSpace_lacks _ Hl). reflexivity.
  - intros a b c -> Ha Hb.
    rewrite truthy_append_r by reflexivity.
    rewrite (splitSpace_append a _ Ha), (splitSpace_append b _ Hb).
    now rewrite orElse_empty.
Qed.

Lemma date_edge_cases_witness :
  (exists e,
     Exif.extractExifData noFloat noString noon (dateOnlyTags "2024:05:01")
     = Exif.Returned e /\
     Exif.dateTime e = "2024.05.01 ")
  /\ (exists e,
        Exif.extractExifData noFloat noString noon
          (dateOnlyTags "2024:05:01 10:30:00 +02:00") = Exif.Returned e /\
        Exif.dateTime e = "2024.05.01 10:30:00").
Proof.
  split; eexists; (split; [vm_compute; reflexivity|]).
  - match goal with
    | |- Exif.dateTime ?e = _ =>
        destruct (date_edge_cases noFloat noString noon (dateOnlyTags "2024:05:01")
                    (Exif.mkTag Exif.VOther "2024:05:01") e eq_refl) as [H _];
          [vm_compute; reflexivity|]
    end.
    apply H; [discriminate | reflexivity].
  - match goal with
    | |- Exif.dateTime ?e = _ =>
        destruct (date_edge_cases noFloat noString noon
                    (dateOnlyTags "2024:05:01 10:30:00 +02:00")
                    (Exif.mkTag Exif.VOther "2024:05:01 10:30:00 +02:00") e eq_refl)
          as [_ H]; [vm_compute; reflexivity|]
    end.
    apply (H "2024:05:01" "10:30:00" "+02:00"); reflexivity.
Defined.

Lemma checked_range (p : Z -> bool) (lo n : nat) :
  forallb (fun k => p (Z.of_nat k)) (seq lo n) = true ->
  forall z, Z.of_nat lo <= z < Z.of_nat (lo + n) -> p z = true.
Proof.
  intros H z Hz. rewrite forallb_forall in H.
  specialize (H (Z.to_nat z)). rewrite Z2Nat.id in H by lia.
  apply H. apply in_seq. lia.
Qed.

Lemma padded_two_digits (z : Z) :
  0 <= z <= 99 -> padStart2 (numToString z) = twoDigits z.
Proof.
  intros Hz. apply String.eqb_eq.
  apply (checked_range
           (fun z => String.eqb (padStart2 (numToString z)) (twoDigits z)) 0 100);
    [vm_compute; reflexivity | lia].
Qed.

Lemma year_four_digits (z : Z) :
  1000 <= z <= 9999 -> numToString z = fourDigits z.
Proof.
  intros Hz. apply String.eqb_eq.
  apply (checked_range (fun z => String.eqb (numToString z) (fourDigits z))
           (Z.to_nat 1000) (Z.to_nat 9000));
    [vm_compute; reflexivity | lia].
Qed.

(** Without a capture date the record's date is the clock reading
    written YYYY.MM.DD HH:MM: the year with four digits, then the month
    counted from 1, the day of the month, the hour and the minute, each
    with exactly two digits (a leading zero below ten), in this order
    and with these separators. *)
Theorem missing_date_uses_clock pf ns now (tags : gmap string Exif.Tag) e :
  Exif.desc tags "DateTimeOriginal" = EmptyString ->
  validClock now ->
  Exif.extractExifData pf ns now tags = Exif.Returned e ->
  Exif.dateTime e
  = fourDigits (Exif.getFullYear now) +:+ "." +:+
    twoDigits (Exif.getMonth now + 1) +:+ "." +:+
    twoDigits (Exif.getDate now) +:+ " " +:+
    twoDigits (Exif.getHours now) +:+ ":" +:+
    twoDigits (Exif.getMinutes now).
Proof.
  intros Hd (Hy & Hm & Hday & Hh & Hmin) He.
  destruct (extract_fields _ _ _ _ _ He) as (_ & _ & _ & _ & _ & -> & _).
  rewrite Hd. unfold Exif.normDate. cbn [truthy].
  unfold Exif.formatNow.
  rewrite (year_four_digits _ Hy).
  rewrite !padded_two_digits by lia. reflexivity.
Qed.

Lemma missing_date_uses_clock_witness :
  exists e,
    Exif.extractExifData noFloat noString captureClock exposureTags
    = Exif.Returned e /\
    Exif.dateTime e = "2024.05.01 10:30".
Proof.
  eexists. split; [vm_compute; reflexivity|].
  match goal with
  | |- Exif.dateTime ?e = _ =>
      rewrite (missing_date_uses_clock noFloat noString captureClock exposureTags e)
  end.
  - reflexivity.
  - reflexivity.
  - unfold validClock. simpl. lia.
  - vm_compute. reflexivity.
Defined.

Lemma convertDMS_short a ref :
  (entries a < 3)%nat -> Exif.convertDMSToDecimal a ref = None.
Proof.
  destruct a as [[|? [|? [|? ?]]]|[|? [|? [|? ?]]]]; simpl; intros H;
    try lia; reflexivity.
Qed.

(** What the GPS block computes before it formats the label. *)
Lemma gps_block pf ns tags latTag lonTag :
  tags !! "GPSLatitude" = Some latTag ->
  tags !! "GPSLongitude" = Some lonTag ->
  exists lat lon,
    (lat, lon)
    = match Exif.value latTag, Exif.value lonTag with
      | Exif.VArray la, Exif.VArray lo =>
          (Exif.convertDMSToDecimal la (Exif.refOf tags "GPSLatitudeRef" "N"),
           Exif.convertDMSToDecimal lo (Exif.refOf tags "GPSLongitudeRef" "E"))
      | _, _ =>
          (Exif.unlessNaN (pf (Exif.description latTag)),
           Exif.unlessNaN (pf (Exif.description lonTag)))
      end /\
    Exif.extractGps pf ns tags
    = match lat, lon with
      | Some la, Some lo =>
          match Exif.coordToFixed ns la with
          | Exif.Returned a =>
              match Exif.coordToFixed ns lo with
              | Exif.Returned b => Exif.Returned (lat, lon, Some (a +:+ ", " +:+ b))
              | Exif.Threw => Exif.Threw
              end
          | Exif.Threw => Exif.Threw
          end
      | _, _ => Exif.Returned (lat, lon, Some "Location Data")
      end.
Proof.
  intros Hla Hlo. unfold Exif.extractGps. cbv zeta. rewrite Hla, Hlo.
  match goal with
  | |- context [let '(x, y) := ?p in _] => destruct p as [lat lon] eqn:E
  end.
  exists lat, lon. split; reflexivity.
Qed.

Lemma gps_by_description pf ns now tags latTag lonTag :
  tags !! "GPSLatitude" = Some latTag ->
  tags !! "GPSLongitude" = Some lonTag ->
  Exif.value latTag = Exif.VOther \/ Exif.value lonTag = Exif.VOther ->
  let x := pf (Exif.description latTag) in
  let y := pf (Exif.description lonTag) in
  exists e, Exif.extractExifData pf ns now tags = Exif.Returned e /\
            Exif.lat e = (if isNaN x then None else Some (Exif.Num x)) /\
            Exif.lon e = (if isNaN y then None else Some (Exif.Num y)) /\
            Exif.gps e
            = Some (if isNaN x || isNaN y then "Location Data"
                    else toFixed ns 4 x +:+ ", " +:+ toFixed ns 4 y).
Proof.
  intros Hla Hlo Hother x y.
  destruct (gps_block pf ns tags latTag lonTag Hla Hlo) as (lat & lon & Ep & Hg).
  assert (Ep' : (lat, lon) = (Exif.unlessNaN x, Exif.unlessNaN y)).
  { rewrite Ep. destruct Hother as [-> | ->]; [reflexivity|].
    now destruct (Exif.value latTag). }
  injection Ep' as -> ->. unfold Exif.unlessNaN in Hg.
  assert (Hg' : Exif.extractGps pf ns tags
                = Exif.Returned
                    (if isNaN x then None else Some (Exif.Num x),
                     if isNaN y then None else Some (Exif.Num y),
                     Some (if isNaN x || isNaN y then "Location Data"
                           else toFixed ns 4 x +:+ ", " +:+ toFixed ns 4 y))).
  { rewrite Hg. now destruct (isNaN x), (isNaN y). }
  destruct (extract_returns pf ns now tags _ Hg') as (e & He & Hf).
  exists e. split; [exact He|]. now injection Hf as -> -> ->.
Qed.

(** The GPS block by cases.  Without both GPS tags the record has no
    label and no coordinate.  With both tags, every record that is
    returned has a label, and the label is "Location Data" whenever a
    coordinate is undefined.  Arrays of fewer than three entries leave
    their coordinate undefined.  When the values are not both arrays the
    coordinates are the parsed descriptions, undefined where the
    description does not parse, and the label shows four decimals of
    each.  When both values are arrays of at least three plain numbers,
    the coordinates are degrees + minutes / 60 + seconds / 3600 in
    binary64, negated for "S" and "W", and the label shows four decimals
    of each. *)
Theorem gps_label_cases pf ns now (tags : gmap string Exif.Tag) :
  let r := Exif.extractExifData pf ns now tags in
  ((tags !! "GPSLatitude" = None \/ tags !! "GPSLongitude" = None) ->
   exists e, r = Exif.Returned e /\
             Exif.gps e = None /\ Exif.lat e = None /\ Exif.lon e = None) /\
  (forall latTag lonTag,
     tags !! "GPSLatitude" = Some latTag ->
     tags !! "GPSLongitude" = Some lonTag ->
     (forall e, r = Exif.Returned e ->
        Exif.gps e <> None /\
        (Exif.lat e = None \/ Exif.lon e = None ->
         Exif.gps e = Some "Location Data")) /\
     (forall la lo,
        Exif.value latTag = Exif.VArray la ->
        Exif.value lonTag = Exif.VArray lo ->
        (entries la < 3 \/ entries lo < 3)%nat ->
        exists e, r = Exif.Returned e /\
                  Exif.gps e = Some "Location Data" /\
                  ((entries la < 3)%nat -> Exif.lat e = None) /\
                  ((entries lo < 3)%nat -> Exif.lon e = None)) /\
     (Exif.value latTag = Exif.VOther \/ Exif.value lonTag = Exif.VOther ->
      let x := pf (Exif.description latTag) in
      let y := pf (Exif.description lonTag) in
      exists e, r = Exif.Returned e /\
                Exif.lat e = (if isNaN x then None else Some (Exif.Num x)) /\
                Exif.lon e = (if isNaN y then None else Some (Exif.Num y)) /\
                Exif.gps e
                = Some (if isNaN x || isNaN y then "Location Data"
                        else toFixed ns 4 x +:+ ", " +:+ toFixed ns 4 y)) /\
     (forall d1 m1 s1 r1 d2 m2 s2 r2,
        Exif.value latTag = Exif.VArray (Exif.Numbers (d1 :: m1 :: s1 :: r1)) ->
        Exif.value lonTag = Exif.VArray (Exif.Numbers (d2 :: m2 :: s2 :: r2)) ->
        let x := signedDegrees d1 m1 s1 (Exif.refOf tags "GPSLatitudeRef" "N") in
        let y := signedDegrees d2 m2 s2 (Exif.refOf tags "GPSLongitudeRef" "E") in
        exists e, r = Exif.Returned e /\
                  Exif.lat e = Some (Exif.Num x) /\
                  Exif.lon e = Some (Exif.Num y) /\
                  Exif.gps e = Some (toFixed ns 4 x +:+ ", " +:+ toFixed ns 4 y))).
Proof.
  intros r. subst r. split.
  - intros H. pose proof (gps_absent pf ns tags H) as Hg.
    destruct (extract_returns pf ns now tags _ Hg) as (e & He & Hf).
    exists e. split; [exact He|]. now injection Hf as -> -> ->.
  - intros latTag lonTag Hla Hlo.
    destruct (gps_block pf ns tags latTag lonTag Hla Hlo) as (lat & lon & Ep & Hg).
    split; [|split; [|split]].
    + intros e He.
      destruct (extract_fields _ _ _ _ _ He) as (_ & _ & _ & _ & _ & _ & Hf).
      rewrite Hf in Hg.
      destruct lat as [la|], lon as [lo|];
        try (injection Hg as -> -> ->; split;
             [discriminate | intros _; reflexivity]).
      destruct (Exif.coordToFixed ns la); [|discriminate Hg].
      destruct (Exif.coordToFixed ns lo); [|discriminate Hg].
      injection Hg as -> -> ->.
      split; [discriminate | intros [H|H]; discriminate H].
    + intros la lo Hva Hvo Hshort. rewrite Hva, Hvo in Ep.
      injection Ep as -> ->.
      assert (Hl : (entries la < 3)%nat ->
                   Exif.convertDMSToDecimal la (Exif.refOf tags "GPSLatitudeRef" "N")
                   = None) by apply convertDMS_short.
      assert (Hr : (entries lo < 3)%nat ->
                   Exif.convertDMSToDecimal lo (Exif.refOf tags "GPSLongitudeRef" "E")
                   = None) by apply convertDMS_short.
      assert (Hg' : Exif.extractGps pf ns tags
                    = Exif.Returned
                        (Exif.convertDMSToDecimal la (Exif.refOf tags "GPSLatitudeRef" "N"),
                         Exif.convertDMSToDecimal lo (Exif.refOf tags "GPSLongitudeRef" "E"),
                         Some "Location Data")).
      { rewrite Hg. destruct Hshort as [H|H].
        - now rewrite (Hl H).
        - rewrite (Hr H). now destruct (Exif.convertDMSToDecimal la _). }
      destruct (extract_returns pf ns now tags _ Hg') as (e & He & Hf).
      exists e. split; [exact He|]. injection Hf as -> -> ->.
      split; [reflexivity|]. split; assumption.
    + intros Hother. exact (gps_by_description pf ns now tags _ _ Hla Hlo Hother).
    + intros d1 m1 s1 r1 d2 m2 s2 r2 Hva Hvo x y. rewrite Hva, Hvo in Ep.
      assert (Ep' : (lat, lon) = (Some (Exif.Num x), Some (Exif.Num y))).
      { rewrite Ep. unfold x, y, signedDegrees, Exif.convertDMSToDecimal.
        destruct (String.eqb (Exif.refOf tags "GPSLatitudeRef" "N") "S"
                  || String.eqb (Exif.refOf tags "GPSLatitudeRef" "N") "W");
          destruct (String.eqb (Exif.refOf tags "GPSLongitudeRef" "E") "S"
                    || String.eqb (Exif.refOf tags "GPSLongitudeRef" "E") "W");
          reflexivity. }
      injection Ep' as -> ->. cbn [Exif.coordToFixed] in Hg.
      destruct (extract_returns pf ns now tags _ Hg) as (e & He & Hf).
      exists e. split; [exact He|]. now injection Hf as -> -> ->.
Qed.

Lemma gps_label_cases_witness :
  (exists e,
     Exif.extractExifData noFloat noString noon exposureTags = Exif.Returned e /\
     Exif.gps e = None)
  /\ (exists e,
        Exif.extractExifData noFloat noString noon shortGpsTags = Exif.Returned e /\
        Exif.gps e = Some "Location Data" /\ Exif.lat e = None)
  /\ (exists e,
        Exif.extractExifData tableFloat noString noon equatorTags = Exif.Returned e /\
        Exif.gps e = Some "0.0000, -73.9857")
  /\ (exists e,
        Exif.extractExifData noFloat noString noon plainGpsTags = Exif.Returned e /\
        Exif.gps e = Some "40.7484, -73.9857").
Proof.
  destruct (gps_label_cases noFloat noString noon exposureTags) as [Hnone _].
  destruct (gps_label_cases noFloat noString noon shortGpsTags) as [_ Hshort].
  destruct (gps_label_cases tableFloat noString noon equatorTags) as [_ Hdesc].
  destruct (gps_label_cases noFloat noString noon plainGpsTags) as [_ Hplain].
  split; [|split; [|split]].
  - destruct Hnone as (e & He & Hg & _); [left; reflexivity|].
    exists e. split; assumption.
  - destruct (Hshort
                (Exif.mkTag (Exif.VArray (Exif.Rationals [(40, 1); (44, 1)])) "40.73")
                (Exif.mkTag (Exif.VArray (Exif.Rationals [(73, 1); (59, 1); (852, 100)]))
                   "73.9857")
                eq_refl eq_refl) as (_ & H & _).
    destruct (H _ _ eq_refl eq_refl) as (e & He & Hg & Hl & _);
      [left; simpl; lia|].
    exists e. split; [exact He|]. split; [exact Hg|]. apply Hl. simpl. lia.
  - destruct (Hdesc (Exif.mkTag Exif.VOther "0") (Exif.mkTag Exif.VOther "-73.9857")
                eq_refl eq_refl) as (_ & _ & H & _).
    destruct H as (e & He & _ & _ & Hg); [now left|].
    exists e. split; [exact He|]. rewrite Hg. vm_compute. reflexivity.
  - destruct (Hplain
                (Exif.mkTag
                   (Exif.VArray (Exif.Numbers [ofInt 40; ofInt 44; ofRatio 5436 100]))
                   "40.7484")
                (Exif.mkTag
                   (Exif.VArray (Exif.Numbers [ofInt 73; ofInt 59; ofRatio 852 100]))
                   "73.9857")
                eq_refl eq_refl) as (_ & _ & _ & H).
    destruct (H _ _ _ _ _ _ _ _ eq_refl eq_refl) as (e & He & _ & _ & Hg).
    exists e. split; [exact He|]. rewrite Hg. vm_compute. reflexivity.
Defined.

(** ** What the renderer reads of the settings *)

Section Look.

Variable mt : Canvas.Font -> string -> Q.
Variable sb : Q -> Q -> option (list Z).

Lemma sameLook_measure s1 s2 c L :
  sameLook s1 s2 -> Canvas.measure mt c s1 L = Canvas.measure mt c s2 L.
Proof.
  intros (Hl & Hr & _ & _ & Hp & _). unfold Canvas.measure.
  now rewrite !Hl, !Hr, Hp.
Qed.

Lemma sameLook_applyStyle s1 s2 w h L c :
  sameLook s1 s2 ->
  Canvas.applyStyle sb s1 w h L c = Canvas.applyStyle sb s2 w h L c.
Proof.
  intros (_ & _ & Hs & Hb & _ & Ha). unfold Canvas.applyStyle.
  now rewrite Hs, Hb, Ha.
Qed.

Lemma sameLook_drawLeft s1 s2 lf st L cy y1 y2 c :
  sameLook s1 s2 ->
  Canvas.drawLeft mt s1 lf st L cy y1 y2 c = Canvas.drawLeft mt s2 lf st L cy y1 y2 c.
Proof.
  intros (Hl & _ & _ & _ & Hp & _). unfold Canvas.drawLeft.
  now rewrite !Hl, Hp.
Qed.

Lemma sameLook_drawRight s1 s2 lf st L w cy y1 y2 c :
  sameLook s1 s2 ->
  Canvas.drawRight mt s1 lf st L w cy y1 y2 c
  = Canvas.drawRight mt s2 lf st L w cy y1 y2 c.
Proof.
  intros (_ & Hr & _ & _ & Hp & _). unfold Canvas.drawRight.
  now rewrite !Hr, Hp.
Qed.

(** The canvas depends on the settings only through the four visible
    groups, the banner style with its parameters and the logo position. *)
Lemma sameLook_processRender s1 s2 w h natW natH lf canvas :
  sameLook s1 s2 ->
  Canvas.processRender mt sb s1 w h natW natH lf canvas
  = Canvas.processRender mt sb s2 w h natW natH lf canvas.
Proof.
  intros H. unfold Canvas.processRender, Canvas.fitPass.
  rewrite (sameLook_measure s1 s2 _ _ H). cbv zeta.
  destruct (Canvas.measure mt (Canvas.ctx canvas) s2
              (Canvas.initialLayout w h lf natW natH)) as [total c0].
  cbn [fst].
  rewrite (sameLook_applyStyle s1 s2 _ _ _ _ H).
  destruct (Canvas.applyStyle sb s2 _ _ _ _) as [st c2].
  destruct H as (Hl & Hr & Hs & Hb & Hp & Ha).
  rewrite Hs.
  rewrite (sameLook_drawLeft s1 s2) by (repeat split; assumption).
  apply sameLook_drawRight. repeat split; assumption.
Qed.

End Look.

Lemma hidden_filtered (p : WatermarkElement -> bool) k e e' els :
  App.get k els = Some e -> p e = false -> p e' = false ->
  List.filter p (map snd (App.assign k e' els)) = List.filter p (map snd els).
Proof.
  intros Hg He He'. induction els as [|[k0 e0] t IH]; simpl in *; [discriminate|].
  destruct (String.eqb k0 k).
  - injection Hg as ->. simpl. now rewrite He, He'.
  - simpl. destruct (p e0); [f_equal|]; now apply IH.
Qed.

(** Editing the text of a hidden slot changes nothing in the rendered
    canvas, nor in the outcome of [generateWatermark]. *)
Theorem hidden_text_not_rendered mt sb tdu key v prev e :
  App.get key (elements prev) = Some e -> side e = off ->
  exists next,
    App.updateElementText key v prev = Some next /\
    (forall w h natW natH lf canvas,
       Canvas.processRender mt sb next w h natW natH lf canvas
       = Canvas.processRender mt sb prev w h natW natH lf canvas) /\
    (forall imgLoad hasCtx logoLoad timer,
       Canvas.generateWatermark mt sb tdu next imgLoad hasCtx logoLoad timer
       = Canvas.generateWatermark mt sb tdu prev imgLoad hasCtx logoLoad timer).
Proof.
  intros Hg Hs. unfold App.updateElementText. rewrite Hg.
  eexists. split; [reflexivity|].
  assert (Hlook : sameLook
            (App.withElements
               (App.assign key
                  (mkElement (id e) (label e) v (side e) (line e) (order e))
                  (elements prev)) prev) prev).
  { repeat split; try reflexivity; intros l; unfold Canvas.group;
      cbn [elements App.withElements]; f_equal;
      apply (hidden_filtered _ key e); try exact Hg; cbn [side]; rewrite Hs;
      reflexivity. }
  split.
  - intros. now apply sameLook_processRender.
  - intros imgLoad hasCtx logoLoad timer. unfold Canvas.generateWatermark.
    destruct timer; try reflexivity;
      (destruct imgLoad as [[w h]|]; [|reflexivity]);
      (destruct (negb hasCtx); [reflexivity|]); try reflexivity.
    destruct logoLoad as [[natW natH]|];
      now rewrite (sameLook_processRender mt sb _ _ _ _ _ _ _ _ Hlook).
Qed.

Lemma hidden_text_not_rendered_witness :
  Canvas.processRender monoText (fun _ _ => None)
    (withText "gps" "Kyoto, Japan") 1000 800 0 0 true (sizedCanvas 1000 800)
  = Canvas.processRender monoText (fun _ _ => None)
      App.initialSettings 1000 800 0 0 true (sizedCanvas 1000 800).
Proof.
  destruct (hidden_text_not_rendered monoText (fun _ _ => None) (fun _ => EmptyString)
              "gps" "Kyoto, Japan" App.initialSettings
              (mkElement "gps" "gps" EmptyString off Line2 1) eq_refl eq_refl)
    as (next & Hn & Hr & _).
  unfold withText. rewrite Hn. apply Hr.
Defined.

(** ** Hiding and restoring slots *)

Lemma get_keys k e els : App.get k els = Some e -> In k (map fst els).
Proof. intros H. apply get_In in H. apply (in_map fst) in H. exact H. Qed.

(** Hiding a slot keeps the slot keys, changes only that slot's side,
    and keeps the order values distinct within the visible groups. *)
Theorem hide_keeps_visible_orders key prev e :
  App.get key (elements prev) = Some e ->
  visibleOrdersDistinct (elements prev) ->
  exists next,
    App.handleHide key prev = Some next /\
    map fst (elements next) = map fst (elements prev) /\
    App.get key (elements next)
    = Some (mkElement (id e) (label e) (text e) off (line e) (order e)) /\
    (forall k, k <> key -> App.get k (elements next) = App.get k (elements prev)) /\
    visibleOrdersDistinct (elements next).
Proof.
  intros Hg Hd. unfold App.handleHide. rewrite Hg.
  eexists. split; [reflexivity|]. cbn [elements App.withElements].
  split; [apply keys_assign; eapply get_keys; exact Hg|].
  split; [rewrite get_assign, String.eqb_refl; reflexivity|].
  assert (Hother : forall k, k <> key ->
            App.get k (App.assign key
                         (mkElement (id e) (label e) (text e) off (line e) (order e))
                         (elements prev)) = App.get k (elements prev)).
  { intros k Hk. rewrite get_assign.
    destruct (String.eqb_spec key k) as [->|_]; [now destruct Hk | reflexivity]. }
  split; [exact Hother|].
  intros k1 k2 e1 e2 Hne H1 H2 Hv Hs Hl.
  rewrite get_assign in H1, H2.
  destruct (String.eqb_spec key k1) as [E1|N1].
  - injection H1 as <-. now destruct Hv.
  - destruct (String.eqb_spec key k2) as [E2|N2].
    + injection H2 as <-. cbn [side] in Hs. now destruct Hv.
    + exact (Hd k1 k2 e1 e2 Hne H1 H2 Hv Hs Hl).
Qed.

Lemma hide_keeps_visible_orders_witness :
  exists next,
    App.handleHide "iso" App.initialSettings = Some next /\
    visibleOrdersDistinct (elements next).
Proof.
  assert (Hv : visibleOrdersDistinct (elements App.initialSettings)).
  { intros k1 k2 e1 e2 Hne H1 H2 _.
    exact (initial_orders_distinct k1 k2 e1 e2 Hne H1 H2). }
  destruct (hide_keeps_visible_orders "iso" App.initialSettings
              (mkElement "iso" "iso" EmptyString right Line1 2) eq_refl Hv)
    as (next & Hn & _ & _ & _ & Hd).
  exists next. split; [exact Hn | exact Hd].
Defined.

(** Restoring a slot puts it on the first line of the left side with
    the order value it had; nothing is renumbered, so when a slot of
    that group already has this order value the group ends up with two
    slots of equal order. *)
Theorem restore_keeps_order_value key prev e :
  App.get key (elements prev) = Some e ->
  exists next,
    App.handleRestore key prev = Some next /\
    map fst (elements next) = map fst (elements prev) /\
    App.get key (elements next)
    = Some (mkElement (id e) (label e) (text e) left Line1 (order e)) /\
    (forall k, k <> key -> App.get k (elements next) = App.get k (elements prev)) /\
    (forall k e', k <> key -> App.get k (elements prev) = Some e' ->
       side e' = left -> line e' = Line1 -> order e' = order e ->
       ~ visibleOrdersDistinct (elements next)).
Proof.
  intros Hg. unfold App.handleRestore. rewrite Hg.
  eexists. split; [reflexivity|]. cbn [elements App.withElements].
  split; [apply keys_assign; eapply get_keys; exact Hg|].
  assert (Hkey : App.get key (App.assign key
                   (mkElement (id e) (label e) (text e) left Line1 (order e))
                   (elements prev))
                 = Some (mkElement (id e) (label e) (text e) left Line1 (order e)))
    by (rewrite get_assign, String.eqb_refl; reflexivity).
  split; [exact Hkey|].
  assert (Hother : forall k, k <> key ->
            App.get k (App.assign key
                         (mkElement (id e) (label e) (text e) left Line1 (order e))
                         (elements prev)) = App.get k (elements prev)).
  { intros k Hk. rewrite get_assign.
    destruct (String.eqb_spec key k) as [->|_]; [now destruct Hk | reflexivity]. }
  split; [exact Hother|].
  intros k e' Hk Hg' Hs Hl Ho Hd.
  refine (Hd k key e' (mkElement (id e) (label e) (text e) left Line1 (order e))
            Hk _ Hkey _ Hs Hl Ho).
  - rewrite Hother by exact Hk. exact Hg'.
  - rewrite Hs. discriminate.
Qed.

Lemma restore_keeps_order_value_witness :
  exists next,
    App.handleRestore "gps" App.initialSettings = Some next /\
    ~ visibleOrdersDistinct (elements next).
Proof.
  destruct (restore_keeps_order_value "gps" App.initialSettings
              (mkElement "gps" "gps" EmptyString off Line2 1) eq_refl)
    as (next & Hn & _ & _ & _ & Hc).
  exists next. split; [exact Hn|].
  apply (Hc "lens" (mkElement "lens" "lens" EmptyString left Line1 1));
    [discriminate | reflexivity..].
Defined.

(** ** Loading a photograph into the slots *)

Lemma setText_get k v els els1 :
  App.setText k v els = Some els1 ->
  map fst els1 = map fst els /\
  forall k',
    App.get k' els1
    = if String.eqb k k'
      then option_map
             (fun e => mkElement (id e) (label e) v (side e) (line e) (order e))
             (App.get k els)
      else App.get k' els.
Proof.
  unfold App.setText. destruct (App.get k els) as [e|] eqn:Eg; [|discriminate].
  intros [= <-]. split.
  - apply keys_assign. eapply get_keys. exact Eg.
  - intros k'. rewrite get_assign. destruct (String.eqb k k'); reflexivity.
Qed.

Lemma setText_samePlace k v els els1 :
  App.setText k v els = Some els1 ->
  forall k' e', App.get k' els1 = Some e' ->
    exists e, App.get k' els = Some e /\ samePlace e e'.
Proof.
  intros H k' e' Hg. destruct (setText_get k v els els1 H) as [_ Hget].
  rewrite Hget in Hg. destruct (String.eqb_spec k k') as [->|_].
  - destruct (App.get k' els) as [e|]; [|discriminate].
    injection Hg as <-. exists e. repeat split.
  - exists e'. repeat split. exact Hg.
Qed.

Lemma setText_None k v els : App.setText k v els = None <-> App.get k els = None.
Proof.
  unfold App.setText. destruct (App.get k els); split; intros H; congruence.
Qed.

Lemma samePlace_trans e1 e2 e3 : samePlace e1 e2 -> samePlace e2 e3 -> samePlace e1 e3.
Proof. unfold samePlace. intuition congruence. Qed.

Lemma onDropUpdate_setTexts data prev :
  App.onDropUpdate data prev
  = option_map (fun els => App.withElements els prev)
      (setTexts (combine slotKeys (slotTexts data)) (elements prev)).
Proof.
  unfold App.onDropUpdate, slotKeys, slotTexts. cbn [combine setTexts].
  repeat match goal with
         | |- context [App.setText ?k ?v ?els] =>
             destruct (App.setText k v els); cbn [mbind option_bind option_map];
             [|reflexivity]
         end.
  reflexivity.
Qed.

Lemma setTexts_keeps kvs : forall els els',
  setTexts kvs els = Some els' ->
  map fst els' = map fst els /\
  (forall k e', App.get k els' = Some e' ->
     exists e, App.get k els = Some e /\ samePlace e e').
Proof.
  induction kvs as [|[k v] t IH]; intros els els' H; simpl in H.
  - injection H as <-. split; [reflexivity|].
    intros k e' Hg. exists e'. split; [exact Hg | repeat split].
  - destruct (App.setText k v els) as [els1|] eqn:E; [|discriminate].
    destruct (IH _ _ H) as [Hk Hp].
    destruct (setText_get _ _ _ _ E) as [Hk1 _]. split; [congruence|].
    intros k' e' Hg. destruct (Hp k' e' Hg) as (e1 & Hg1 & S1).
    destruct (setText_samePlace _ _ _ _ E k' e1 Hg1) as (e0 & Hg0 & S0).
    exists e0. split; [exact Hg0 | eapply samePlace_trans; eassumption].
Qed.

Lemma setTexts_other kvs k : forall els els',
  setTexts kvs els = Some els' -> ~ In k (map fst kvs) ->
  option_map text (App.get k els') = option_map text (App.get k els).
Proof.
  induction kvs as [|[k0 v] t IH]; intros els els' H Hni; simpl in H.
  - now injection H as <-.
  - destruct (App.setText k0 v els) as [els1|] eqn:E; [|discriminate].
    rewrite (IH _ _ H) by (intros Hin; apply Hni; now right).
    destruct (setText_get _ _ _ _ E) as [_ Hg]. rewrite Hg.
    destruct (String.eqb_spec k0 k) as [->|_]; [|reflexivity].
    destruct Hni. now left.
Qed.

Lemma setTexts_texts kvs : forall els els',
  List.NoDup (map fst kvs) ->
  setTexts kvs els = Some els' ->
  map (fun k => option_map text (App.get k els')) (map fst kvs)
  = map Some (map snd kvs).
Proof.
  induction kvs as [|[k v] t IH]; intros els els' Hnd H; [reflexivity|].
  inversion Hnd as [|? ? Hni Hnd']; subst. simpl in H.
  destruct (App.setText k v els) as [els1|] eqn:E; [|discriminate].
  cbn [map fst snd]. rewrite (IH _ _ Hnd' H). f_equal.
  rewrite (setTexts_other t k _ _ H Hni).
  destruct (setText_get _ _ _ _ E) as [_ Hg]. rewrite Hg, String.eqb_refl.
  unfold App.setText in E. destruct (App.get k els); [reflexivity | discriminate].
Qed.

Lemma setTexts_None kvs : forall els,
  setTexts kvs els = None <-> exists k, In k (map fst kvs) /\ App.get k els = None.
Proof.
  induction kvs as [|[k v] t IH]; intros els; simpl.
  - split; [discriminate | intros (k & [] & _)].
  - destruct (App.setText k v els) as [els1|] eqn:E.
    + rewrite IH. destruct (setText_get _ _ _ _ E) as [Hk _].
      assert (Hn : forall k', App.get k' els1 = None <-> App.get k' els = None)
        by (intros k'; rewrite !get_None, Hk; reflexivity).
      split.
      * intros (k' & Hin & Hg). exists k'. split; [now right | now apply Hn].
      * intros (k' & [Hk'|Hin] & Hg).
        -- subst k'. apply (setText_None k v els) in Hg. congruence.
        -- exists k'. split; [exact Hin | now apply Hn].
    + split; [|reflexivity]. intros _. exists k. split; [now left|].
      now apply setText_None in E.
Qed.

(** Loading a photograph rewrites the texts of the eight slots and
    nothing else: the slot keys, every slot's identity, side, line and
    order, and all other settings stay as they are.  The update goes
    through exactly when all eight slots exist. *)
Theorem onDrop_keeps_arrangement (data : Exif.ExifData) (prev : WatermarkSettings) :
  (forall next,
     App.onDropUpdate data prev = Some next ->
     map fst (elements next) = map fst (elements prev) /\
     (forall k e', App.get k (elements next) = Some e' ->
        exists e, App.get k (elements prev) = Some e /\ samePlace e e') /\
     map (fun k => option_map text (App.get k (elements next))) slotKeys
     = map Some (slotTexts data) /\
     App.withElements (elements prev) next = prev) /\
  (App.onDropUpdate data prev = None
   <-> exists k, In k slotKeys /\ App.get k (elements prev) = None).
Proof.
  rewrite onDropUpdate_setTexts.
  assert (Hkeys : map fst (combine slotKeys (slotTexts data)) = slotKeys)
    by reflexivity.
  assert (Hvals : map snd (combine slotKeys (slotTexts data)) = slotTexts data)
    by reflexivity.
  split.
  - intros next H.
    destruct (setTexts (combine slotKeys (slotTexts data)) (elements prev))
      as [els'|] eqn:E; [|discriminate].
    injection H as <-. cbn [elements App.withElements].
    destruct (setTexts_keeps _ _ _ E) as [Hk Hp].
    split; [exact Hk|]. split; [exact Hp|]. split.
    + rewrite <- Hkeys at 1. rewrite <- Hvals.
      apply (setTexts_texts _ (elements prev)); [|exact E].
      simpl. repeat constructor; simpl; intuition discriminate.
    + destruct prev; reflexivity.
  - rewrite <- (setTexts_None (combine slotKeys (slotTexts data)) (elements prev)).
    destruct (setTexts _ _); simpl; split; congruence.
Qed.

Lemma onDrop_keeps_arrangement_witness :
  let data := App.exifAfterDrop EmptyString
                (Exif.extractExifData noFloat noString noon exposureTags) in
  App.onDropUpdate data sevenSlots = None
  /\ exists next,
       App.onDropUpdate data App.initialSettings = Some next /\
       map fst (elements next) = slotKeys.
Proof.
  intros data. split.
  - apply (onDrop_keeps_arrangement data sevenSlots).
    exists "gps". split; [simpl; tauto | reflexivity].
  - eexists. split; [reflexivity|].
    apply (onDrop_keeps_arrangement data App.initialSettings).
    reflexivity.
Defined.

(** ** The place lookup *)

Lemma convertDMS_rationals_cases xs ref :
  Exif.convertDMSToDecimal (Exif.Rationals xs) ref = None \/
  Exif.convertDMSToDecimal (Exif.Rationals xs) ref = Some (Exif.Num NaN) \/
  exists t, Exif.convertDMSToDecimal (Exif.Rationals xs) ref = Some (Exif.Str t).
Proof.
  destruct xs as [|a [|b [|c r]]]; try (now left).
  rewrite convertDMS_rationals.
  destruct (String.eqb ref "S" || String.eqb ref "W");
    [right; now left | right; right; eexists; reflexivity].
Qed.

Ltac after_drop localeNow now Hg :=
  match type of Hg with
  | Exif.extractGps ?pf ?ns ?tags = Exif.Threw =>
      rewrite (extract_threw pf ns now tags Hg); reflexivity
  | Exif.extractGps ?pf ?ns ?tags = Exif.Returned ?g =>
      let e := fresh "e" in
      let He := fresh "He" in
      let Hf := fresh "Hf" in
      destruct (extract_returns pf ns now tags g Hg) as (e & He & Hf);
      let H1 := fresh "H" in
      let H2 := fresh "H" in
      let H3 := fresh "H" in
      rewrite He; unfold App.lookupWanted, App.exifAfterDrop;
      injection Hf as H1 H2 H3; rewrite H1; try rewrite H2; reflexivity
  end.

(** When the place lookup is not started.  For a photograph whose GPS
    values are arrays of [numerator, denominator] pairs it never is:
    extraction either throws, so that [onDrop] falls back on its
    stand-in record, or leaves a coordinate undefined, [NaN] or, next to
    an undefined one, a string.  When the coordinates are read from the
    descriptions, a coordinate that parses as zero gives a label but no
    lookup. *)
Theorem lookup_skipped pf ns now localeNow (tags : gmap string Exif.Tag)
  latTag lonTag :
  tags !! "GPSLatitude" = Some latTag ->
  tags !! "GPSLongitude" = Some lonTag ->
  let exif := App.exifAfterDrop localeNow (Exif.extractExifData pf ns now tags) in
  (rationals (Exif.value latTag) -> rationals (Exif.value lonTag) ->
   App.lookupWanted (Some exif) = false) /\
  (Exif.value latTag = Exif.VOther \/ Exif.value lonTag = Exif.VOther ->
   numTruthy (pf (Exif.description latTag)) = false \/
   numTruthy (pf (Exif.description lonTag)) = false ->
   Exif.gps exif <> None /\ App.lookupWanted (Some exif) = false).
Proof.
  intros Hla Hlo exif. subst exif. split.
  - intros [xs Hva] [ys Hvo].
    destruct (gps_block pf ns tags latTag lonTag Hla Hlo) as (lat & lon & Ep & Hg).
    rewrite Hva, Hvo in Ep.
    pose proof (convertDMS_rationals_cases xs (Exif.refOf tags "GPSLatitudeRef" "N"))
      as Ca.
    pose proof (convertDMS_rationals_cases ys (Exif.refOf tags "GPSLongitudeRef" "E"))
      as Co.
    set (ca := Exif.convertDMSToDecimal (Exif.Rationals xs) _) in *.
    set (co := Exif.convertDMSToDecimal (Exif.Rationals ys) _) in *.
    clearbody ca co. injection Ep as -> ->.
    destruct Ca as [->|[->|[ta ->]]]; destruct Co as [->|[->|[to ->]]];
      cbn [Exif.coordToFixed] in Hg;
      after_drop localeNow now Hg.
  - intros Hother Hzero.
    destruct (gps_by_description pf ns now tags _ _ Hla Hlo Hother)
      as (e & He & Ha & Ho & Hg).
    rewrite He. cbn [App.exifAfterDrop]. split; [rewrite Hg; discriminate|].
    unfold App.lookupWanted. rewrite Ha, Ho.
    destruct (isNaN (pf (Exif.description latTag))); [reflexivity|].
    destruct (isNaN (pf (Exif.description lonTag))); [reflexivity|].
    cbn [App.coordTruthy].
    destruct Hzero as [-> | ->]; [reflexivity | apply andb_false_r].
Qed.

Lemma lookup_skipped_witness :
  App.lookupWanted
    (Some (App.exifAfterDrop "1/5/2024, 10:30:00 AM"
             (Exif.extractExifData noFloat noString noon gpsTags))) = false
  /\ Exif.gps (App.exifAfterDrop "1/5/2024, 10:30:00 AM"
                 (Exif.extractExifData tableFloat noString noon equatorTags))
     <> None
  /\ App.lookupWanted
       (Some (App.exifAfterDrop "1/5/2024, 10:30:00 AM"
                (Exif.extractExifData tableFloat noString noon equatorTags))) = false.
Proof.
  destruct (lookup_skipped noFloat noString noon "1/5/2024, 10:30:00 AM" gpsTags
              (Exif.mkTag (Exif.VArray (Exif.Rationals [(40, 1); (44, 1); (5436, 100)]))
                 "40.7484")
              (Exif.mkTag (Exif.VArray (Exif.Rationals [(73, 1); (59, 1); (852, 100)]))
                 "73.9857")
              eq_refl eq_refl) as [H1 _].
  destruct (lookup_skipped tableFloat noString noon "1/5/2024, 10:30:00 AM" equatorTags
              (Exif.mkTag Exif.VOther "0") (Exif.mkTag Exif.VOther "-73.9857")
              eq_refl eq_refl) as [_ H2].
  split.
  - apply H1; eexists; reflexivity.
  - apply H2; [now left | left; reflexivity].
Defined.

(** ** Brand classification and the logo file *)

Lemma lowerChar_upperChar c : lowerChar (upperChar c) = lowerChar c.
Proof. destruct c as [[] [] [] [] [] [] [] []]; reflexivity. Qed.

Lemma lowerChar_idem c : lowerChar (lowerChar c) = lowerChar c.
Proof. destruct c as [[] [] [] [] [] [] [] []]; reflexivity. Qed.

Lemma toLowerCase_upper s : toLowerCase (toUpperCase s) = toLowerCase s.
Proof.
  induction s as [|c s IH]; simpl; [reflexivity|].
  now rewrite lowerChar_upperChar, IH.
Qed.

Lemma toLowerCase_idem s : toLowerCase (toLowerCase s) = toLowerCase s.
Proof.
  induction s as [|c s IH]; simpl; [reflexivity|].
  now rewrite lowerChar_idem, IH.
Qed.

Lemma toLowerCase_append a b :
  toLowerCase (a +:+ b) = toLowerCase a +:+ toLowerCase b.
Proof. induction a as [|c a IH]; sapp; [reflexivity | now rewrite IH]. Qed.

Lemma includes_prefix s p : startsWith s p = true -> includes s p = true.
Proof. unfold startsWith. destruct s; simpl; intros ->; reflexivity. Qed.

Lemma includes_append a p b : includes (a +:+ p +:+ b) p = true.
Proof.
  induction a as [|c a IH].
  - rewrite append_nil. apply includes_prefix, startsWith_append.
  - rewrite append_cons. simpl. rewrite IH. apply orb_true_r.
Qed.

(** The brand key does not depend on the letter case of the make, and a
    make that contains "canon" in any letter case, anywhere, is CANON. *)
Theorem brand_key_ignores_case (make : string) :
  Exif.getBrandLogoKey (toUpperCase make) = Exif.getBrandLogoKey make /\
  Exif.getBrandLogoKey (toLowerCase make) = Exif.getBrandLogoKey make /\
  (forall pre x post,
     toLowerCase x = "canon" ->
     Exif.getBrandLogoKey (pre +:+ x +:+ post) = "CANON").
Proof.
  unfold Exif.getBrandLogoKey. cbv zeta.
  rewrite toLowerCase_upper, toLowerCase_idem.
  split; [reflexivity|]. split; [reflexivity|].
  intros pre x post Hx. rewrite !toLowerCase_append, Hx.
  now rewrite includes_append.
Qed.

Lemma brand_key_ignores_case_witness :
  Exif.getBrandLogoKey ("Made by " +:+ "CaNoN" +:+ " Inc.") = "CANON".
Proof.
  destruct (brand_key_ignores_case EmptyString) as (_ & _ & H).
  apply H. reflexivity.
Defined.

Lemma brand_key_range make :
  In (Exif.getBrandLogoKey make)
    ["CANON"; "NIKON"; "FUJIFILM"; "SONY"; "LEICA"; "HASSELBLAD"; "OLYMPUS";
     "PANASONIC"; "GOOGLE"; "APPLE"; "DEFAULT"].
Proof.
  unfold Exif.getBrandLogoKey. cbv zeta.
  repeat match goal with
         | |- context [if ?b then _ else _] => destruct b
         end; simpl; tauto.
Qed.

(** Which image the renderer asks for as logo.  With automatic
    selection it is one of eleven bundled files, whatever the make of
    the camera; with the custom selection it is the uploaded SVG text
    when one is there, and the file /logos/Custom.svg when none is. *)
Theorem logo_source_cases (settings : WatermarkSettings) :
  (selectedLogoKey settings = "AUTO" ->
   forall make,
     exists f, In f logoFiles /\
       Canvas.logoImgSrc settings
         (App.finalLogoKey settings (Exif.getBrandLogoKey make))
       = Canvas.PathOf f) /\
  (selectedLogoKey settings = "CUSTOM" ->
   forall key,
     Canvas.logoImgSrc settings key
     = match customLogoSvg settings with
       | Some (String c r) => Canvas.BlobOf (String c r)
       | _ => Canvas.PathOf "/logos/Custom.svg"
       end).
Proof.
  split.
  - intros Hs make. unfold Canvas.logoImgSrc, App.finalLogoKey. rewrite Hs.
    cbn [String.eqb Ascii.eqb Bool.eqb andb].
    assert (Hc : match customLogoSvg settings with
                 | Some svg => if false then Some svg else None
                 | None => None
                 end = @None string) by (destruct (customLogoSvg settings); reflexivity).
    change (if ("AUTO" =? "CUSTOM")%string && _ then _ else _) with (@None string).
    pose proof (brand_key_range make) as Hr.
    destruct (customLogoSvg settings);
      simpl in Hr;
      destruct Hr as [<-|[<-|[<-|[<-|[<-|[<-|[<-|[<-|[<-|[<-|[<-|[]]]]]]]]]]]];
      eexists; (split; [|vm_compute; reflexivity]); simpl; tauto.
  - intros Hs key. unfold Canvas.logoImgSrc. rewrite Hs.
    destruct (customLogoSvg settings) as [[|c r]|]; reflexivity.
Qed.

Lemma logo_source_cases_witness :
  Canvas.logoImgSrc (withLogo "AUTO" None)
    (App.finalLogoKey (withLogo "AUTO" None)
       (Exif.getBrandLogoKey "NIKON CORPORATION"))
  = Canvas.PathOf "/logos/Nikon.svg"
  /\ Canvas.logoImgSrc (withLogo "CUSTOM" None) "NIKON"
     = Canvas.PathOf "/logos/Custom.svg".
Proof.
  destruct (logo_source_cases (withLogo "AUTO" None)) as [Ha _].
  destruct (logo_source_cases (withLogo "CUSTOM" None)) as [_ Hc].
  split.
  - destruct (Ha eq_refl "NIKON CORPORATION") as (f & _ & Hf).
    rewrite Hf. vm_compute in Hf. injection Hf as <-. reflexivity.
  - apply (Hc eq_refl "NIKON").
Defined.

(** ** The sequence of texts of one line *)

Section Sequence.
Variable mt : Canvas.Font -> string -> Q.

Lemma textCalls_app a b : textCalls (a ++ b) = textCalls a ++ textCalls b.
Proof. unfold textCalls. apply flat_map_app. Qed.

Lemma drawSeqLoop_more st y gap pipeFont dir item item2 rest cursor c :
  Canvas.drawSeqLoop mt st y gap pipeFont dir (item :: item2 :: rest) cursor c
  = let c1 := Canvas.onCtx (Canvas.setFont (Canvas.itemFont item)) c in
    let itemW := mt (Canvas.font (Canvas.ctx c1)) (Canvas.content item) in
    let drawX := match dir with Canvas.ltr => cursor | Canvas.rtl => (cursor - itemW)%Q end in
    let c2 := Canvas.onCtx (Canvas.setTextAlign "left") c1 in
    let c3 := Canvas.onCtx (Canvas.setFillStyle (Canvas.color item)) c2 in
    let c4 := Canvas.emit (Canvas.FillText (Canvas.content item) drawX y) c3 in
    let cursor1 := match dir with
                   | Canvas.ltr => (cursor + itemW)%Q
                   | Canvas.rtl => (cursor - itemW)%Q
                   end in
    let pipeX := match dir with
                 | Canvas.ltr => (cursor1 + gap / 2)%Q
                 | Canvas.rtl => (cursor1 - gap / 2)%Q
                 end in
    let c5 := Canvas.onCtx (Canvas.setTextAlign "center") c4 in
    let c6 := Canvas.onCtx (Canvas.setFillStyle (Canvas.secondaryTextColor st)) c5 in
    let c7 := Canvas.onCtx (Canvas.setFont pipeFont) c6 in
    let c8 := Canvas.emit (Canvas.FillText Canvas.SEPARATOR_CHAR pipeX y) c7 in
    let cursor2 := match dir with
                   | Canvas.ltr => (cursor1 + gap)%Q
                   | Canvas.rtl => (cursor1 - gap)%Q
                   end in
    Canvas.drawSeqLoop mt st y gap pipeFont dir (item2 :: rest) cursor2 c8.
Proof. reflexivity. Qed.

Lemma between_more {A : Type} (sep a b : A) l :
  between sep (a :: b :: l) = a :: sep :: between sep (b :: l).
Proof. reflexivity. Qed.

Lemma drawSeqLoop_calls st y gap pipeFont dir items :
  forall cursor c,
    exists more,
      Canvas.ops (Canvas.drawSeqLoop mt st y gap pipeFont dir items cursor c)
      = Canvas.ops c ++ more /\
      map (fun t => fst (fst t)) (textCalls more)
      = between Canvas.SEPARATOR_CHAR (map Canvas.content items) /\
      Forall (fun t => snd t = y) (textCalls more) /\
      length (textCalls more) = length more.
Proof.
  induction items as [|item rest IH]; intros cursor c.
  - exists []. simpl. rewrite app_nil_r. repeat split. constructor.
  - destruct rest as [|item2 rest].
    + eexists. cbn [Canvas.drawSeqLoop Canvas.emit Canvas.onCtx Canvas.ops].
      split; [reflexivity|]. simpl. repeat split. repeat constructor.
    + rewrite drawSeqLoop_more. cbv zeta.
      match goal with
      | |- context [Canvas.drawSeqLoop mt st y gap pipeFont dir _ ?cur ?cv] =>
          destruct (IH cur cv) as (more & Hops & Htxt & Hy & Hlen);
          rewrite Hops
      end.
      cbn [Canvas.emit Canvas.onCtx Canvas.ops].
      rewrite <- !app_assoc. eexists. split; [reflexivity|].
      rewrite !textCalls_app, !map_app, !length_app.
      cbn [textCalls flat_map snd app fst length].
      rewrite Htxt, Hlen.
      change (map Canvas.content (item :: item2 :: rest))
        with (Canvas.content item :: Canvas.content item2 :: map Canvas.content rest).
      rewrite between_more.
      split; [reflexivity | split; [|reflexivity]].
      repeat constructor. exact Hy.
Qed.

(** A line is drawn as its entries in order with the separator between
    consecutive ones: no separator before the first or after the last
    entry, all texts on the baseline [y], and nothing but text is
    drawn. *)
Theorem line_entries_separated st L x y dir items bold c :
  exists more,
    Canvas.ops (Canvas.drawSeqY mt st L x y dir items bold c)
    = Canvas.ops c ++ more /\
    map (fun t => fst (fst t)) (textCalls more)
    = between Canvas.SEPARATOR_CHAR (map Canvas.content items) /\
    Forall (fun t => snd t = y) (textCalls more) /\
    length (textCalls more) = length more.
Proof.
  unfold Canvas.drawSeqY. cbv zeta.
  destruct (drawSeqLoop_calls st y
              (mt (Canvas.font (Canvas.ctx c)) Canvas.SEPARATOR_CHAR * 2.5)%Q
              (if bold then Canvas.Inter true (Canvas.mainFontSize L)
               else Canvas.Inter false (Canvas.subFontSize L))
              dir items x c) as (more & H).
  exists more. exact H.
Qed.

End Sequence.

(** ** Text colour against the sampled background *)

Lemma digitRuns_digits s : forall cur v c r,
  digitsVal s cur = Some v ->
  Canvas.digitVal c = None ->
  Canvas.digitRuns (s +:+ String c r) cur = v :: Canvas.digitRuns r None.
Proof.
  induction s as [|x s IH]; intros cur v c r Hv Hc.
  - rewrite append_nil. simpl in Hv. subst cur.
    cbn [Canvas.digitRuns]. now rewrite Hc.
  - rewrite append_cons. cbn [digitsVal] in Hv. cbn [Canvas.digitRuns].
    destruct (Canvas.digitVal x) as [d|]; [|discriminate].
    destruct cur as [u|]; now apply IH.
Qed.

Lemma byte_digits (z : Z) :
  isByte z -> digitsVal (numToString z) None = Some z.
Proof.
  intros Hz.
  pose proof (checked_range
                (fun z => match digitsVal (numToString z) None with
                          | Some v => v =? z
                          | None => false
                          end) 0 256) as H.
  specialize (H ltac:(vm_compute; reflexivity) z).
  cbv beta in H. unfold isByte in Hz.
  destruct (digitsVal (numToString z) None) as [v|].
  - f_equal. apply Z.eqb_eq. apply H. lia.
  - discriminate H. lia.
Qed.

Lemma brightness_roundtrip (r g b : Z) :
  isByte r -> isByte g -> isByte b ->
  Canvas.getBrightness (rgbString r g b)
  = Some (inject_Z (r * 299 + g * 587 + b * 114) / 1000)%Q.
Proof.
  intros Hr Hg Hb. unfold Canvas.getBrightness, rgbString.
  assert (E : Canvas.digitRuns
                ("rgb(" +:+ numToString r +:+ ", " +:+ numToString g +:+ ", " +:+
                 numToString b +:+ ")") None = [r; g; b]).
  { sapp. cbn [Canvas.digitRuns].
    change (Canvas.digitVal "r") with (@None Z).
    change (Canvas.digitVal "g") with (@None Z).
    change (Canvas.digitVal "b") with (@None Z).
    change (Canvas.digitVal "(") with (@None Z).
    cbv iota.
    rewrite (digitRuns_digits _ None r) by (try apply byte_digits; auto).
    cbn [Canvas.digitRuns]. change (Canvas.digitVal " ") with (@None Z). cbv iota.
    rewrite (digitRuns_digits _ None g) by (try apply byte_digits; auto).
    cbn [Canvas.digitRuns]. change (Canvas.digitVal " ") with (@None Z). cbv iota.
    rewrite (digitRuns_digits _ None b) by (try apply byte_digits; auto).
    reflexivity. }
  rewrite E. reflexivity.
Qed.

Lemma dominant_rgb (data : list Z) :
  Forall isByte data -> 0 < pixels data ->
  exists d rest,
    bucketsOf data = d :: rest /\
    Canvas.dominant (Canvas.dominantOfData data)
    = rgbString (Canvas.r d) (Canvas.g d) (Canvas.b d) /\
    isByte (Canvas.r d) /\ isByte (Canvas.g d) /\ isByte (Canvas.b d).
Proof.
  intros Hd Hp.
  destruct (accumulate_inv data [] Hd (List.Forall_nil _)) as [Hs Hc].
  simpl in Hc. rewrite Z.add_0_r in Hc.
  set (raw := map (fun e => Canvas.toBucket (snd e)) (Canvas.accumulate data [])) in *.
  assert (Hperm : Permutation (bucketsOf data) raw) by apply sort_perm.
  assert (Htot : totalCount (bucketsOf data) = pixels data)
    by (rewrite (totalCount_perm _ _ Hperm); exact Hc).
  destruct (bucketsOf data) as [|d rest] eqn:Eb.
  { simpl in Htot. lia. }
  exists d, rest. split; [reflexivity|].
  assert (Hin : In d raw) by (apply (Permutation_in _ Hperm); now left).
  apply in_map_iff in Hin as ([k a] & <- & Hin). cbn [snd].
  rewrite List.Forall_forall in Hs. specialize (Hs (k, a) Hin). cbn [snd] in Hs.
  destruct (toBucket_bytes a Hs) as (Br & Bg & Bb & Hhex).
  split; [|tauto].
  unfold Canvas.dominantOfData. fold raw. unfold bucketsOf in Eb. fold raw in Eb.
  rewrite Eb. exact Hhex.
Qed.

Lemma geNum_Some (v t : Q) : Canvas.geNum (Some v) t = Qle_bool t v.
Proof. reflexivity. Qed.

(** With the adaptive banner and fixed text colours, the banner takes
    the dominant colour of the sampled band and the text is black when
    the brightness (0.299 r + 0.587 g + 0.114 b) of that colour is at
    least 128, white below; on the blurred banner the text is black from
    brightness 160 on.  The brightness is recovered from the colour
    string "rgb(r, g, b)" without loss. *)
Theorem text_contrast_follows_brightness
  (sampleBand : Q -> Q -> option (list Z)) (settings : WatermarkSettings)
  (w h : Q) (L : Canvas.Layout) (data : list Z) :
  Forall isByte data -> 0 < pixels data ->
  exists d rest,
    bucketsOf data = d :: rest /\
    (bannerStyle settings = ADAPTIVE ->
     useAdaptiveTextColor settings = false ->
     sampleBand (h - h * 0.15)%Q (h * 0.15)%Q = Some data ->
     let st := Canvas.styleOf sampleBand settings w h L in
     Canvas.bgColor st = rgbString (Canvas.r d) (Canvas.g d) (Canvas.b d) /\
     Canvas.textColor st
     = (if Qle_bool 128 (Canvas.brightnessOf d) then "#000000" else "#ffffff") /\
     Canvas.secondaryTextColor st
     = (if Qle_bool 128 (Canvas.brightnessOf d) then "#333333" else "#dddddd")) /\
    (bannerStyle settings = BLUR ->
     sampleBand (h - Canvas.bannerH L)%Q (Canvas.bannerH L) = Some data ->
     let st := Canvas.styleOf sampleBand settings w h L in
     Canvas.textColor st
     = (if Qle_bool 160 (Canvas.brightnessOf d) then "#000000" else "#ffffff") /\
     Canvas.secondaryTextColor st
     = (if Qle_bool 160 (Canvas.brightnessOf d) then "#222222" else "#eeeeee")).
Proof.
  intros Hd Hp.
  destruct (dominant_rgb data Hd Hp) as (d & rest & Hb & Hdom & Br & Bg & Bb).
  exists d, rest. split; [exact Hb|].
  pose proof (brightness_roundtrip _ _ _ Br Bg Bb) as Hbr.
  fold (Canvas.brightnessOf d) in Hbr.
  split.
  - intros Hs Ha Hband. cbv zeta.
    unfold Canvas.styleOf, Canvas.applyStyle. rewrite Hs, Ha. cbv zeta.
    unfold Canvas.getDominantColors. rewrite Hband, Hdom, Hbr, geNum_Some.
    destruct (Qle_bool 128 (Canvas.brightnessOf d)); repeat split.
  - intros Hs Hband. cbv zeta.
    unfold Canvas.styleOf, Canvas.applyStyle. rewrite Hs. cbv zeta.
    unfold Canvas.getDominantColors. rewrite Hband, Hdom, Hbr, geNum_Some.
    destruct (Qle_bool 160 (Canvas.brightnessOf d)); repeat split.
Qed.

Lemma text_contrast_follows_brightness_witness :
  Canvas.textColor
    (Canvas.styleOf (fun _ _ => Some redBand) (adaptiveSettings false)
       1000 500 (Canvas.initialLayout 1000 500 false 100 100))
  = "#ffffff".
Proof.
  destruct (text_contrast_follows_brightness
              (fun _ _ => Some redBand) (adaptiveSettings false)
              1000 500 (Canvas.initialLayout 1000 500 false 100 100) redBand)
    as (d & rest & Hb & Ha & _).
  - repeat constructor; unfold isByte; lia.
  - reflexivity.
  - destruct (Ha eq_refl eq_refl eq_refl) as (_ & Ht & _).
    rewrite Ht. vm_compute in Hb. injection Hb as <- _. reflexivity.
Defined.

(** ** The shadow of the texts *)

Lemma keeps_refl c : keeps c c.
Proof. split; [reflexivity|]. exists []. now rewrite app_nil_r. Qed.

Lemma keeps_trans a b c : keeps a b -> keeps b c -> keeps a c.
Proof.
  intros (S1 & m1 & O1 & F1) (S2 & m2 & O2 & F2).
  split; [congruence|]. exists (m1 ++ m2). split.
  - rewrite O2, O1. now rewrite app_assoc.
  - apply Forall_app. split; [exact F1|].
    rewrite S1 in F2. exact F2.
Qed.

Lemma keeps_emit cmd c : keeps c (Canvas.emit cmd c).
Proof.
  split; [reflexivity|]. exists [(Canvas.ctx c, cmd)].
  split; [reflexivity | repeat constructor].
Qed.

Lemma keeps_onCtx f c :
  (forall x, shadowOf (f x) = shadowOf x) -> keeps c (Canvas.onCtx f c).
Proof.
  intros Hf. split; [apply Hf|]. exists [].
  split; [simpl; now rewrite app_nil_r | constructor].
Qed.

Ltac keeps_step :=
  first [ apply keeps_emit
        | apply keeps_onCtx; intros ?; reflexivity ].

Ltac keeps_chain :=
  first [ apply keeps_refl | eapply keeps_trans; [| keeps_step]; keeps_chain ].

Section Shadow.

Variable mt : Canvas.Font -> string -> Q.
Variable sb : Q -> Q -> option (list Z).

Lemma keeps_roundRect x y w h r c : keeps c (Canvas.roundRect x y w h r c).
Proof. unfold Canvas.roundRect. cbv zeta. keeps_chain. Qed.

Lemma keeps_drawSeqLoop st y gap pipeFont dir items :
  forall cursor c,
    keeps c (Canvas.drawSeqLoop mt st y gap pipeFont dir items cursor c).
Proof.
  induction items as [|item rest IH]; intros cursor c; [apply keeps_refl|].
  simpl. destruct rest as [|item' rest'].
  - keeps_chain.
  - eapply keeps_trans; [| apply IH]. keeps_chain.
Qed.

Lemma keeps_drawSeqY st L x y dir items isBold c :
  keeps c (Canvas.drawSeqY mt st L x y dir items isBold c).
Proof. unfold Canvas.drawSeqY. apply keeps_drawSeqLoop. Qed.

Lemma keeps_drawLines st L centerY y1 y2 cursor dir l1 l2 c :
  keeps c (Canvas.drawLines mt st L centerY y1 y2 cursor dir l1 l2 c).
Proof.
  unfold Canvas.drawLines. cbv zeta.
  destruct (Canvas.hasText l1), (Canvas.hasText l2);
    repeat (eapply keeps_trans; [| apply keeps_drawSeqY]); apply keeps_refl.
Qed.

Lemma keeps_seqWidthLoop f gap n texts :
  forall idx w c,
    keeps c (snd (Canvas.seqWidthLoop mt f gap n idx texts w c)).
Proof.
  induction texts as [|t rest IH]; intros idx w c; [apply keeps_refl|].
  simpl. eapply keeps_trans; [| apply IH]. keeps_chain.
Qed.

Lemma keeps_seqWidth f gap items c :
  keeps c (snd (Canvas.seqWidth mt f gap items c)).
Proof. unfold Canvas.seqWidth. apply keeps_seqWidthLoop. Qed.

Lemma keeps_drawLogoSeparator st L x y c :
  keeps c (Canvas.drawLogoSeparator st L x y c).
Proof. unfold Canvas.drawLogoSeparator. cbv zeta. keeps_chain. Qed.

Lemma keeps_applyStyle settings w h L c :
  keeps c (snd (Canvas.applyStyle sb settings w h L c)).
Proof.
  unfold Canvas.applyStyle.
  destruct (bannerStyle settings); cbv zeta.
  - simpl. keeps_chain.
  - simpl. keeps_chain.
  - match goal with
    | |- context [if ?b then _ else _] => destruct b
    end; simpl; keeps_chain.
  - destruct (useAdaptiveTextColor settings); [simpl; keeps_chain|].
    match goal with
    | |- context [if ?b then _ else _] => destruct b
    end; simpl; keeps_chain.
Qed.

Lemma keeps_drawLogo logoFailed st L centerY x dir c :
  keeps c (snd (Canvas.drawLogoSequence logoFailed st L centerY x dir c)).
Proof.
  unfold Canvas.drawLogoSequence. destruct logoFailed; cbv zeta; cbn [snd].
  - eapply keeps_trans; [| keeps_step].
    eapply keeps_trans; [| apply keeps_roundRect]. keeps_chain.
  - destruct (_ && _); keeps_chain.
Qed.

Lemma keeps_drawLeft settings logoFailed st L centerY y1 y2 c :
  keeps c (Canvas.drawLeft mt settings logoFailed st L centerY y1 y2 c).
Proof.
  unfold Canvas.drawLeft. cbv zeta.
  destruct (logoPosition settings).
  - pose proof (keeps_drawLogo logoFailed st L centerY (Canvas.padding L) Canvas.ltr c) as E.
    destruct (Canvas.drawLogoSequence logoFailed st L centerY (Canvas.padding L) Canvas.ltr c)
      as [lw c1]. cbn [snd] in E.
    destruct (_ || _).
    + eapply keeps_trans; [| apply keeps_drawLines].
      eapply keeps_trans; [exact E | apply keeps_drawLogoSeparator].
    + eapply keeps_trans; [exact E | apply keeps_drawLines].
  - apply keeps_drawLines.
Qed.

Lemma keeps_drawRight settings logoFailed st L w centerY y1 y2 c :
  keeps c (Canvas.drawRight mt settings logoFailed st L w centerY y1 y2 c).
Proof.
  unfold Canvas.drawRight. cbv zeta.
  destruct (logoPosition settings); [apply keeps_drawLines|].
  set (r1 := Canvas.group settings right Line1).
  set (r2 := Canvas.group settings right Line2).
  set (gap := (mt (Canvas.font (Canvas.ctx c)) Canvas.SEPARATOR_CHAR * 2.5)%Q).
  assert (E1 : exists m1 c1, keeps c c1 /\
            (if Canvas.hasText r1
             then let '(tw, c0) :=
                    Canvas.seqWidth mt
                      (Canvas.Inter true (Canvas.mainFontSize L)) gap r1 c in
                  (if Canvas.Qgtb tw 0 then tw else 0%Q, c0)
             else (0%Q, c)) = (m1, c1)).
  { destruct (Canvas.hasText r1).
    - pose proof (keeps_seqWidth (Canvas.Inter true (Canvas.mainFontSize L)) gap r1 c) as E.
      destruct (Canvas.seqWidth mt _ gap r1 c) as [tw c0].
      eexists. eexists. split; [exact E | reflexivity].
    - eexists. eexists. split; [apply keeps_refl | reflexivity]. }
  destruct E1 as (m1 & c1 & X1 & ->).
  assert (E2 : exists m2 c2, keeps c1 c2 /\
            (if Canvas.hasText r2
             then let '(tw, c0) :=
                    Canvas.seqWidth mt
                      (Canvas.Inter false (Canvas.subFontSize L)) gap r2 c1 in
                  (if Canvas.Qgtb tw m1 then tw else m1, c0)
             else (m1, c1)) = (m2, c2)).
  { destruct (Canvas.hasText r2).
    - pose proof (keeps_seqWidth (Canvas.Inter false (Canvas.subFontSize L)) gap r2 c1) as E.
      destruct (Canvas.seqWidth mt _ gap r2 c1) as [tw c0].
      eexists. eexists. split; [exact E | reflexivity].
    - eexists. eexists. split; [apply keeps_refl | reflexivity]. }
  destruct E2 as (m2 & c2 & X2 & ->).
  pose proof (keeps_drawLines st L centerY y1 y2
                (w - Canvas.padding L)%Q Canvas.rtl r1 r2 c2) as X3.
  set (c3 := Canvas.drawLines mt st L centerY y1 y2
               (w - Canvas.padding L)%Q Canvas.rtl r1 r2 c2) in *.
  destruct (Canvas.hasText r1 || Canvas.hasText r2);
    (eapply keeps_trans; [| apply keeps_drawLogo]);
    (eapply keeps_trans; [exact X1|]); (eapply keeps_trans; [exact X2|]);
    (eapply keeps_trans; [exact X3|]); keeps_chain.
Qed.

Lemma enableShadow_shadow st L cx :
  shadowOf cx = ("transparent", 0%Q, 0%Q, 0%Q) ->
  shadowOf (Canvas.enableShadow st L cx) = textShadow st L.
Proof.
  unfold Canvas.enableShadow, textShadow, shadowOf. intros [= Hc Hb Hx Hy].
  destruct (Canvas.useShadow st); simpl; [reflexivity|].
  now rewrite Hb, Hx, Hy.
Qed.

Lemma style_useShadow settings w h L :
  Canvas.useShadow (Canvas.styleOf sb settings w h L) = true
  <-> bannerStyle settings = ADAPTIVE \/ bannerStyle settings = BLUR.
Proof.
  unfold Canvas.styleOf, Canvas.applyStyle.
  destruct (bannerStyle settings); cbv zeta.
  - simpl. split; [discriminate | intros [H|H]; discriminate H].
  - simpl. split; [discriminate | intros [H|H]; discriminate H].
  - match goal with
    | |- context [if ?b then _ else _] => destruct b
    end; simpl; split; auto.
  - destruct (useAdaptiveTextColor settings); [simpl; split; auto|].
    match goal with
    | |- context [if ?b then _ else _] => destruct b
    end; simpl; split; auto.
Qed.

(** The photograph and the backdrop of the banner are drawn without
    shadow; the logo and every text after them are drawn under one
    shadow setting.  On the black and the white banner that setting is
    again no shadow.  On the adaptive and the blurred banner it is a
    centred glow of radius 0.8 of the main font size, dark under white
    text and light under any other text colour. *)
Theorem shadow_only_on_sampled_banners settings w h natW natH logoFailed :
  let L := Canvas.finalLayout mt settings w h logoFailed natW natH in
  let st := Canvas.styleOf sb settings (inject_Z w) (inject_Z h) L in
  (Canvas.useShadow st = true
   <-> bannerStyle settings = ADAPTIVE \/ bannerStyle settings = BLUR) /\
  exists backdrop content,
    Canvas.ops (Canvas.processRender mt sb settings w h natW natH logoFailed
                  (sizedCanvas w h))
    = (Canvas.defaultCtx, Canvas.DrawImage3 Canvas.SrcImg 0 0)
      :: backdrop :: content /\
    shadowOf (fst backdrop) = ("transparent", 0%Q, 0%Q, 0%Q) /\
    Forall (fun op => shadowOf (fst op) = textShadow st L) content.
Proof.
  intros L st. split; [apply style_useShadow|].
  unfold Canvas.processRender. cbv zeta.
  change (fst (Canvas.fitPass mt (Canvas.ctx (sizedCanvas w h)) settings w
                 (Canvas.initialLayout w h logoFailed natW natH))) with L.
  set (c1 := Canvas.onCtx (Canvas.setShadowColor "transparent")
               (Canvas.onCtx (Canvas.setShadowBlur 0)
                  (Canvas.emit (Canvas.DrawImage3 Canvas.SrcImg 0 0)
                     (Canvas.setHeight (inject_Z h + Canvas.bannerH L)
                        (Canvas.setWidth (inject_Z w) (sizedCanvas w h)))))).
  assert (S1 : shadowOf (Canvas.ctx c1) = ("transparent", 0%Q, 0%Q, 0%Q)) by reflexivity.
  assert (O1 : Canvas.ops c1 = [(Canvas.defaultCtx, Canvas.DrawImage3 Canvas.SrcImg 0 0)])
    by reflexivity.
  pose proof (applyStyle_style sb settings (inject_Z w) (inject_Z h) L c1) as Hst.
  fold st in Hst.
  pose proof (applyStyle_effect sb settings (inject_Z w) (inject_Z h) L c1) as Heff.
  pose proof (keeps_applyStyle settings (inject_Z w) (inject_Z h) L c1) as Hk.
  cbv zeta in Heff.
  destruct (Canvas.applyStyle sb settings (inject_Z w) (inject_Z h) L c1)
    as [st' c2]. cbn [fst snd] in Hst, Heff, Hk. subst st'.
  set (c3 := if negb (style_eqb (bannerStyle settings) BLUR)
             then Canvas.emit (Canvas.FillRect 0 (inject_Z h) (inject_Z w)
                                 (Canvas.bannerH L)) c2
             else c2).
  assert (H3 : shadowOf (Canvas.ctx c3) = ("transparent", 0%Q, 0%Q, 0%Q) /\
               exists backdrop, Canvas.ops c3
                 = [(Canvas.defaultCtx, Canvas.DrawImage3 Canvas.SrcImg 0 0); backdrop] /\
                 shadowOf (fst backdrop) = ("transparent", 0%Q, 0%Q, 0%Q)).
  { destruct Hk as (S2 & m & O2 & F2). rewrite S1 in S2, F2. subst c3.
    destruct (bannerStyle settings); cbn [style_eqb negb].
    1,2,4: destruct Heff as (Ho & _); cbn [Canvas.ctx Canvas.ops Canvas.emit];
      (split; [exact S2|]); eexists; (split; [rewrite Ho, O1; reflexivity | exact S2]).
    split; [exact S2|]. rewrite Heff in O2. apply app_inv_head in O2. subst m.
    inversion F2 as [|? ? Hop _]; subst.
    eexists. split; [rewrite Heff, O1; reflexivity | exact Hop]. }
  destruct H3 as (S3 & backdrop & O3 & Sb).
  set (c4 := Canvas.onCtx (Canvas.enableShadow st L)
               (Canvas.onCtx (Canvas.setTextBaseline "middle") c3)).
  assert (S4 : shadowOf (Canvas.ctx c4) = textShadow st L).
  { subst c4. cbn [Canvas.ctx Canvas.onCtx]. apply enableShadow_shadow. exact S3. }
  assert (O4 : Canvas.ops c4 = Canvas.ops c3) by reflexivity.
  match goal with
  | |- context [Canvas.drawRight mt settings logoFailed st L ?ww ?cy ?ya ?yb
                  (Canvas.drawLeft mt settings logoFailed st L ?cy ?ya ?yb c4)] =>
      pose proof (keeps_trans _ _ _
                    (keeps_drawLeft settings logoFailed st L cy ya yb c4)
                    (keeps_drawRight settings logoFailed st L ww cy ya yb
                       (Canvas.drawLeft mt settings logoFailed st L cy ya yb c4)))
        as (_ & m & -> & Hm)
  end.
  exists backdrop, m. rewrite O4, O3. split; [reflexivity|].
  split; [exact Sb|]. rewrite S4 in Hm. exact Hm.
Qed.

End Shadow.
